(** * dsvreader: a streaming reader for delimiter-separated data

    A shallow embedding of the Go package [dsvreader] (reader, numeric
    decoders, date decoders) and the properties of its row splitter, column
    cursor and typed decoders.

    The reader keeps Go slices into two backing arrays, the fixed read buffer
    [rBuf] and the growable array behind [scratch].  Slices are modelled as
    views (array, offset, length) over an explicit store, because [Bytes]
    unescapes a column in place and the row buffer [rowBuf] aliases the same
    storage. *)

From Stdlib Require Import ZArith Lia Strings.String Strings.Byte.
From stdpp Require Import base numbers list.

Set Default Proof Using "Type".

(** ** Bytes *)

Abbreviation bytes := (list byte).

#[global] Instance byte_eq_dec : EqDecision byte := Byte.byte_eq_dec.

(** A Go string or byte-slice literal. *)
Definition bs (s : string) : bytes := list_byte_of_string s.

Definition newline : byte := x0a.
Definition backslash : byte := x5c.

(** A line of input: the text and its newline. *)
Definition line_of (s : string) : bytes := bs s ++ [newline].

(** [bytes.IndexByte]: the index of the first [c] in [s]; Go's [-1] is [None]. *)
Fixpoint IndexByte (s : bytes) (c : byte) : option nat :=
  match s with
  | [] => None
  | x :: s' => if decide (x = c) then Some 0 else S <$> IndexByte s' c
  end.

(** ** Go's [int] (64 bits, two's complement) *)

Definition int_wrap (z : Z) : Z := ((z + 2 ^ 63) mod 2 ^ 64 - 2 ^ 63)%Z.
Definition int_incr (z : Z) : Z := int_wrap (z + 1).

(** ** Errors

    Go builds its errors with [fmt.Errorf]; one constructor stands for each
    format string of the package and carries the formatted arguments by value
    ([%q] copies the bytes when the error is made). *)

Inductive numerr := ErrSyntax | ErrRange.

Inductive error :=
| EOF                                     (* io.EOF *)
| ErrStream (msg : string)                (* any other error of the stream *)
| ErrUnreadCols (row : Z) (rowBuf rest : bytes)
    (* "row #%d %q contains unread columns: %q" *)
| ErrReadRow (row : Z) (cause : error)
    (* "cannot read row #%d: %s" *)
| ErrNoNewline (row : Z) (pending : bytes)
    (* "cannot find newline at the end of row #%d; row: %q" *)
| ErrCol (msg : string) (row col : Z) (rowBuf : bytes) (cause : error)
    (* "%s at row #%d, col #%d %q: %s" *)
| ErrText (msg : string)                  (* fmt.Errorf of a constant text *)
| ErrField (msg : string) (cause : error) (* "invalid hour: %s" and the like *)
| ErrNum (fn : string) (num : bytes) (cause : numerr). (* *strconv.NumError *)

#[global] Instance numerr_eq_dec : EqDecision numerr.
Proof. solve_decision. Defined.

#[global] Instance string_eq_dec : EqDecision string := String.string_dec.

#[global] Instance error_eq_dec : EqDecision error.
Proof.
  intros x. induction x; intros [] ; try (right; discriminate).
  all: try (left; reflexivity).
  - destruct (decide (msg = msg0)) as [->|]; [left; reflexivity | right; congruence].
  - destruct (decide (row = row0)) as [->|]; [|right; congruence].
    destruct (decide (rowBuf = rowBuf0)) as [->|]; [|right; congruence].
    destruct (decide (rest = rest0)) as [->|]; [left; reflexivity|right; congruence].
  - destruct (decide (row = row0)) as [->|]; [|right; congruence].
    destruct (IHx cause) as [->|]; [left; reflexivity|right; congruence].
  - destruct (decide (row = row0)) as [->|]; [|right; congruence].
    destruct (decide (pending = pending0)) as [->|]; [left; reflexivity|right; congruence].
  - destruct (decide (msg = msg0)) as [->|]; [|right; congruence].
    destruct (decide (row = row0)) as [->|]; [|right; congruence].
    destruct (decide (col = col0)) as [->|]; [|right; congruence].
    destruct (decide (rowBuf = rowBuf0)) as [->|]; [|right; congruence].
    destruct (IHx cause) as [->|]; [left; reflexivity|right; congruence].
  - destruct (decide (msg = msg0)) as [->|]; [left; reflexivity|right; congruence].
  - destruct (decide (msg = msg0)) as [->|]; [|right; congruence].
    destruct (IHx cause) as [->|]; [left; reflexivity|right; congruence].
  - destruct (decide (fn = fn0)) as [->|]; [|right; congruence].
    destruct (decide (num = num0)) as [->|]; [|right; congruence].
    destruct (decide (cause = cause0)) as [->|]; [left; reflexivity|right; congruence].
Defined.

(** ** The byte stream ([io.Reader])

    A stream is the script of its reads: each entry is the data of one burst
    and the error reported with its last byte ([None] is Go's [nil]).  A read
    into a buffer of [cap] bytes delivers at most [cap] bytes, so a longer
    burst arrives over several reads.  A stream whose script is used up reports
    [(0, io.EOF)]. *)

Definition stream := list (bytes * option error).

Definition Read (s : stream) (cap : nat) : bytes * option error * stream :=
  match s with
  | [] => ([], Some EOF, [])
  | (d, e) :: s' =>
      if decide (length d ≤ cap) then (d, e, s')
      else (take cap d, None, (drop cap d, e) :: s')
  end.

(** ** Slices over the reader's two arrays *)

Inductive array := RBuf | Heap.

Record slice := Slice { arr : array; off : nat; len : nat }.

#[global] Instance array_eq_dec : EqDecision array.
Proof. solve_decision. Defined.
#[global] Instance slice_eq_dec : EqDecision slice.
Proof. solve_decision. Defined.

(** [len(s)] of a slice that may be nil. *)
Definition slen (s : option slice) : nat := from_option len 0 s.

(** [s[i:j]] and [s[i:]]. *)
Definition sub (s : slice) (i j : nat) : slice :=
  Slice (arr s) (off s + i) (j - i).
Definition sfrom (s : slice) (i : nat) : slice := sub s i (len s).

(** Writing [xs] into an array from index [i] on.  Past the end the array
    grows, which is what [append] does to [scratch] when it reallocates. *)
Definition write_at (a : bytes) (i : nat) (xs : bytes) : bytes :=
  take i a ++ xs ++ drop (i + length xs) a.

(** ** The reader *)

Definition rBufSize : nat := 4096. (* 4 << 10 *)

(** The fields of Go's [Reader]; [heap] is the array behind [scratch].
    [scratch] is only measured and appended to, so its nil and empty states
    are one. *)
Record Reader := mkReader {
  r : stream;
  rb : option slice;
  rErr : option error;
  rBuf : bytes;
  col : Z;
  row : Z;
  rowBuf : option slice;
  b : option slice;
  scratch : slice;
  heap : bytes;
  err : option error;
  sep : byte;
  needUnescape : bool
}.

Definition set_r v tr := mkReader v (rb tr) (rErr tr) (rBuf tr) (col tr) (row tr) (rowBuf tr) (b tr) (scratch tr) (heap tr) (err tr) (sep tr) (needUnescape tr).
Definition set_rb v tr := mkReader (r tr) v (rErr tr) (rBuf tr) (col tr) (row tr) (rowBuf tr) (b tr) (scratch tr) (heap tr) (err tr) (sep tr) (needUnescape tr).
Definition set_rErr v tr := mkReader (r tr) (rb tr) v (rBuf tr) (col tr) (row tr) (rowBuf tr) (b tr) (scratch tr) (heap tr) (err tr) (sep tr) (needUnescape tr).
Definition set_rBuf v tr := mkReader (r tr) (rb tr) (rErr tr) v (col tr) (row tr) (rowBuf tr) (b tr) (scratch tr) (heap tr) (err tr) (sep tr) (needUnescape tr).
Definition set_col v tr := mkReader (r tr) (rb tr) (rErr tr) (rBuf tr) v (row tr) (rowBuf tr) (b tr) (scratch tr) (heap tr) (err tr) (sep tr) (needUnescape tr).
Definition set_row v tr := mkReader (r tr) (rb tr) (rErr tr) (rBuf tr) (col tr) v (rowBuf tr) (b tr) (scratch tr) (heap tr) (err tr) (sep tr) (needUnescape tr).
Definition set_rowBuf v tr := mkReader (r tr) (rb tr) (rErr tr) (rBuf tr) (col tr) (row tr) v (b tr) (scratch tr) (heap tr) (err tr) (sep tr) (needUnescape tr).
Definition set_b v tr := mkReader (r tr) (rb tr) (rErr tr) (rBuf tr) (col tr) (row tr) (rowBuf tr) v (scratch tr) (heap tr) (err tr) (sep tr) (needUnescape tr).
Definition set_scratch v tr := mkReader (r tr) (rb tr) (rErr tr) (rBuf tr) (col tr) (row tr) (rowBuf tr) (b tr) v (heap tr) (err tr) (sep tr) (needUnescape tr).
Definition set_heap v tr := mkReader (r tr) (rb tr) (rErr tr) (rBuf tr) (col tr) (row tr) (rowBuf tr) (b tr) (scratch tr) v (err tr) (sep tr) (needUnescape tr).
Definition set_err v tr := mkReader (r tr) (rb tr) (rErr tr) (rBuf tr) (col tr) (row tr) (rowBuf tr) (b tr) (scratch tr) (heap tr) v (sep tr) (needUnescape tr).
Definition set_needUnescape v tr := mkReader (r tr) (rb tr) (rErr tr) (rBuf tr) (col tr) (row tr) (rowBuf tr) (b tr) (scratch tr) (heap tr) (err tr) (sep tr) v.

(** The store: the contents of an array, and of a slice. *)
Definition mem (tr : Reader) (a : array) : bytes :=
  match a with RBuf => rBuf tr | Heap => heap tr end.

Definition set_mem (a : array) (v : bytes) (tr : Reader) : Reader :=
  match a with RBuf => set_rBuf v tr | Heap => set_heap v tr end.

Definition bytes_of (tr : Reader) (s : slice) : bytes :=
  take (len s) (drop (off s) (mem tr (arr s))).

(** The contents of a slice that may be nil. *)
Definition view (tr : Reader) (s : option slice) : bytes :=
  from_option (bytes_of tr) [] s.

(** [d = append(d, xs...)] where the array of [d] has room, or is the array
    of [scratch]: the bytes land right after [d]. *)
Definition append (tr : Reader) (d : slice) (xs : bytes) : Reader * slice :=
  (set_mem (arr d) (write_at (mem tr (arr d)) (off d + len d) xs) tr,
   Slice (arr d) (off d) (len d + length xs)).

(** [d[len(d)-1] = x]. *)
Definition store_last (tr : Reader) (d : slice) (x : byte) : Reader :=
  set_mem (arr d) (<[off d + len d - 1 := x]> (mem tr (arr d))) tr.

(** The zero [Reader]: Go zeroes the read buffer. *)
Definition zeroReader : Reader :=
  mkReader [] None None (replicate rBufSize x00) 0 0 None None
           (Slice Heap 0 0) [] None x00 false.

(** [Reset]: [tr.scratch[:0]] keeps the array of [scratch]. *)
Definition Reset (s : stream) (tr : Reader) : Reader :=
  mkReader s None None (rBuf tr) 0 0 None None
           (sub (scratch tr) 0 0) (heap tr) None (sep tr) false.

Definition with_sep (c : byte) (tr : Reader) : Reader :=
  mkReader (r tr) (rb tr) (rErr tr) (rBuf tr) (col tr) (row tr) (rowBuf tr)
           (b tr) (scratch tr) (heap tr) (err tr) c (needUnescape tr).

Definition NewCustom (c : byte) (s : stream) : Reader :=
  Reset s (with_sep c zeroReader).
Definition NewCSV (s : stream) : Reader := NewCustom "," s.
Definition NewTSV (s : stream) : Reader := NewCustom x09 s.
Definition NewPSV (s : stream) : Reader := NewCustom "|" s.

(** [Error]: a clean end of stream is no error. *)
Definition Error (tr : Reader) : option error :=
  if decide (err tr = Some EOF) then None else err tr.

Definition ResetError (tr : Reader) : Reader := set_err None tr.

(** [HasCols]: [len(tr.rowBuf) > 0 && tr.b != nil]. *)
Definition HasCols (tr : Reader) : bool :=
  bool_decide (0 < slen (rowBuf tr)) && bool_decide (b tr ≠ None).

(** ** The row splitter: [Next] *)

(** The refill of [Next]: [tr.r.Read(tr.rBuf[:])] and the three assignments
    after it. *)
Definition fill (tr : Reader) : Reader :=
  let '(d, e, s') := Read (r tr) rBufSize in
  let tr := set_r s' (set_rBuf (write_at (rBuf tr) 0 d) tr) in
  let tr := set_rb (Some (Slice RBuf 0 (length d))) tr in
  let tr := set_needUnescape
              (bool_decide (IndexByte (view tr (rb tr)) backslash ≠ None)) tr in
  set_rErr e tr.

(** The error [Next] leaves when the read buffer is empty and the stream has
    already reported [e]. *)
Definition terminal_error (tr : Reader) (e : error) : error :=
  if decide (e ≠ EOF) then ErrReadRow (row tr) e
  else if decide (0 < len (scratch tr))
       then ErrNoNewline (row tr) (bytes_of tr (scratch tr))
       else e.

(** The fast path of [Next]: the newline is at index [n] of [tr.rb]. *)
Definition take_row (n : nat) (tr : Reader) : Reader :=
  let line := (λ s, sub s 0 n) <$> rb tr in
  let tr := set_rb ((λ s, sfrom s (n + 1)) <$> rb tr) tr in
  let '(tr, line) :=
    if decide (0 < len (scratch tr)) then
      let '(tr, s) := append tr (scratch tr) (view tr line) in
      (set_scratch (sub s 0 0) tr, Some s)
    else (tr, line) in
  set_b line (set_rowBuf line tr).

(** The slow path of [Next]: [tr.rb] goes to [scratch]. *)
Definition stash (tr : Reader) : Reader :=
  let '(tr, s) := append tr (scratch tr) (view tr (rb tr)) in
  set_rb None (set_scratch s tr).

(** One pass of the [for] loop of [Next]: it returns ([inl]) or goes round
    again ([inr]). *)
Definition Next_pass (tr : Reader) : (bool * Reader) + Reader :=
  let filled :=
    if decide (slen (rb tr) = 0) then
      match rErr tr with
      | Some e => inl (set_err (Some (terminal_error tr e)) tr)
      | None => inr (fill tr)
      end
    else inr tr in
  match filled with
  | inl tr' => inl (false, tr')
  | inr tr1 =>
      match IndexByte (view tr1 (rb tr1)) newline with
      | Some n => inl (true, take_row n tr1)
      | None => inr (stash tr1)
      end
  end.

(** The loop.  [None] is a loop that has not returned within [fuel] passes. *)
Fixpoint Next_loop (fuel : nat) (tr : Reader) : option (bool * Reader) :=
  match fuel with
  | O => None
  | S fuel' =>
      match Next_pass tr with
      | inl res => Some res
      | inr tr' => Next_loop fuel' tr'
      end
  end.

(** What is left of the stream's script, in bytes and entries. *)
Definition stream_size (s : stream) : nat :=
  foldr (λ e n, S (length e.1) + n) 0 s.

(** Passes that the loop of [Next] can make before it returns: one read per
    pass, plus the pass that stashes a non-empty [rb] and the pass that sees
    the error of the stream. *)
Definition Next_fuel (tr : Reader) : nat := stream_size (r tr) + 3.

(** [Next].  The loop always returns within [Next_fuel] passes
    ([Next_loop_total] below), so the last branch is never taken. *)
Definition Next (tr : Reader) : bool * Reader :=
  if decide (err tr ≠ None) then (false, tr)
  else if HasCols tr then
    (false, set_err (Some (ErrUnreadCols (row tr) (view tr (rowBuf tr))
                                         (view tr (b tr)))) tr)
  else
    let tr1 := set_rowBuf None (set_col 0 (set_row (int_incr (row tr)) tr)) in
    match Next_loop (Next_fuel tr1) tr1 with
    | Some res => res
    | None => (false, tr1)
    end.

(** ** The column cursor *)

(** [nextCol]: the column as a slice, or the error. *)
Definition nextCol (tr : Reader) : (option slice + error) * Reader :=
  if decide (row tr = 0%Z) then (inr (ErrText "missing Next call"), tr)
  else
    let tr := set_col (int_incr (col tr)) tr in
    match b tr with
    | None => (inr (ErrText "no more columns"), tr)
    | Some c =>
        match IndexByte (bytes_of tr c) (sep tr) with
        | None => (inl (Some c), set_b None tr)
        | Some n => (inl (Some (sub c 0 n)), set_b (Some (sfrom c (n + 1))) tr)
        end
    end.

(** [b2s]: the bytes of a slice read as a string, without a copy. *)
Definition b2s (tr : Reader) (c : option slice) : bytes := view tr c.

Definition setColError (msg : string) (e : error) (tr : Reader) : Reader :=
  set_err (Some (ErrCol msg (row tr) (col tr) (view tr (rowBuf tr)) e)) tr.

Definition SkipCol (tr : Reader) : Reader :=
  if decide (err tr ≠ None) then tr
  else
    match nextCol tr with
    | (inr e, tr) => setColError "cannot skip column" e tr
    | (inl _, tr) => tr
    end.

(** The byte an escape sequence stands for, from the byte after the marker. *)
Definition unescape_byte (c : byte) : byte :=
  match c with
  | "b" => x08
  | "f" => x0c
  | "r" => x0d
  | "n" => x0a
  | "t" => x09
  | "0" => x00
  | x27 => x27
  | x5c => x5c
  | _ => c
  end%byte.

(** The [for len(b) > 0] loop of [Bytes]: [d] is the output so far and ends in
    the marker, [c] is the input left (Go's [b]).  Each pass takes at least
    one byte of [c], so [len c] passes are enough. *)
Fixpoint unescape_loop (fuel : nat) (tr : Reader) (d c : slice)
  : Reader * slice :=
  match fuel with
  | O => (tr, d)
  | S fuel' =>
      match bytes_of tr c with
      | [] => (tr, d)
      | c0 :: _ =>
          let tr := store_last tr d (unescape_byte c0) in
          let c := sfrom c 1 in
          match IndexByte (bytes_of tr c) backslash with
          | None => append tr d (bytes_of tr c)
          | Some n =>
              let '(tr, d) := append tr d (bytes_of tr (sub c 0 (n + 1))) in
              unescape_loop fuel' tr d (sfrom c (n + 1))
          end
      end
  end.

(** [Bytes]: the next column, unescaped in place when the last refill saw the
    marker.  The result is a slice ([None] is nil). *)
Definition Bytes (tr : Reader) : option slice * Reader :=
  if decide (err tr ≠ None) then (None, tr)
  else
    match nextCol tr with
    | (inr e, tr) => (None, setColError "cannot read `bytes`" e tr)
    | (inl c, tr) =>
        if negb (needUnescape tr) then (c, tr)
        else
          match IndexByte (view tr c) backslash, c with
          | Some n, Some c =>
              let '(tr, d) :=
                unescape_loop (len c) tr (sub c 0 (n + 1)) (sfrom c (n + 1)) in
              (Some d, tr)
          | _, _ => (c, tr)
          end
    end.

(** [Bytes] with the contents of the slice it returns, read at once. *)
Definition BytesValue (tr : Reader) : option bytes * Reader :=
  let '(c, tr) := Bytes tr in (bytes_of tr <$> c, tr).

(** [String]: [string(tr.Bytes())], a copy of the bytes. *)
Definition String' (tr : Reader) : bytes * Reader :=
  let '(c, tr) := Bytes tr in (view tr c, tr).

(** ** [strconv], from Go's standard library

    Base 10 only, as the package calls it.  A result is Go's pair of a value
    and an error. *)
Module strconv.

Definition IntSize : Z := 64.

(** The value of a decimal digit. *)
Definition digit (c : byte) : option Z :=
  let n := Z.of_N (Byte.to_N c) in
  if decide (48 ≤ n ≤ 57)%Z then Some (n - 48)%Z else None.

(** The digit loop of [ParseUint]: [n] is the value so far, [maxVal] the
    largest value of the width.  The cutoff is [maxUint64/10 + 1]. *)
Fixpoint digits (maxVal : Z) (s : bytes) (n : Z) : Z * option numerr :=
  match s with
  | [] => (n, None)
  | c :: s' =>
      match digit c with
      | None => (0%Z, Some ErrSyntax)
      | Some d =>
          if decide ((2 ^ 64 - 1) / 10 + 1 ≤ n)%Z then (maxVal, Some ErrRange)
          else
            let n1 := (n * 10 + d)%Z in
            if decide (2 ^ 64 ≤ n1 ∨ maxVal < n1)%Z
            then (maxVal, Some ErrRange)
            else digits maxVal s' n1
      end
  end.

Definition bits (bitSize : Z) : Z :=
  if decide (bitSize = 0%Z) then IntSize else bitSize.

(** The unsigned parse shared by [ParseUint] and [ParseInt]. *)
Definition parse_uint (s : bytes) (bitSize : Z) : Z * option numerr :=
  match s with
  | [] => (0%Z, Some ErrSyntax)
  | _ => digits (2 ^ bits bitSize - 1) s 0
  end.

Definition ParseUint (s : bytes) (bitSize : Z) : Z * option error :=
  let '(n, e) := parse_uint s bitSize in
  (n, ErrNum "ParseUint" s <$> e).

(** [ParseInt], with the function name that the error reports. *)
Definition parse_int (fn : string) (s : bytes) (bitSize : Z)
  : Z * option error :=
  match s with
  | [] => (0%Z, Some (ErrNum fn s ErrSyntax))
  | c :: s' =>
      let neg := bool_decide (c = "-"%byte) in
      let digs := if decide (c = "+"%byte ∨ c = "-"%byte) then s' else s in
      match parse_uint digs bitSize with
      | (_, Some ErrSyntax) => (0%Z, Some (ErrNum fn s ErrSyntax))
      | (un, _) =>
          let cutoff := (2 ^ (bits bitSize - 1))%Z in
          if negb neg && bool_decide (cutoff ≤ un)%Z
          then ((cutoff - 1)%Z, Some (ErrNum fn s ErrRange))
          else if neg && bool_decide (cutoff < un)%Z
          then ((- cutoff)%Z, Some (ErrNum fn s ErrRange))
          else ((if neg then - un else un)%Z, None)
      end
  end.

Definition ParseInt (s : bytes) (bitSize : Z) : Z * option error :=
  parse_int "ParseInt" s bitSize.

(** [Atoi] is [ParseInt(s, 10, 0)] under its own name; its fast path for
    short inputs computes the same result. *)
Definition Atoi (s : bytes) : Z * option error := parse_int "Atoi" s 0.

End strconv.

(** ** Integer conversions and the limits of package [math] *)

Definition to_uint (w : Z) (z : Z) : Z := (z mod 2 ^ w)%Z.
Definition to_int (w : Z) (z : Z) : Z :=
  ((z + 2 ^ (w - 1)) mod 2 ^ w - 2 ^ (w - 1))%Z.

Definition MinInt8 : Z := -128.
Definition MaxInt8 : Z := 127.
Definition MaxUint8 : Z := 255.
Definition MinInt16 : Z := -32768.
Definition MaxInt16 : Z := 32767.
Definition MaxUint16 : Z := 65535.
Definition MinInt32 : Z := -2147483648.
Definition MaxInt32 : Z := 2147483647.
Definition MaxUint32 : Z := 4294967295.
Definition MinInt64 : Z := -9223372036854775808.
Definition MaxInt64 : Z := 9223372036854775807.
Definition MaxUint64 : Z := 18446744073709551615.

(** ** The integer decoders *)

Definition Int (tr : Reader) : Z * Reader :=
  if decide (err tr ≠ None) then (0%Z, tr)
  else
    match nextCol tr with
    | (inr e, tr) => (0%Z, setColError "cannot read `int`" e tr)
    | (inl c, tr) =>
        match strconv.Atoi (b2s tr c) with
        | (_, Some e) => (0%Z, setColError "cannot parse `int`" e tr)
        | (n, None) => (n, tr)
        end
    end.

Definition Uint (tr : Reader) : Z * Reader :=
  if decide (err tr ≠ None) then (0%Z, tr)
  else
    match nextCol tr with
    | (inr e, tr) => (0%Z, setColError "cannot read `uint`" e tr)
    | (inl c, tr) =>
        let s := b2s tr c in
        let '(n, e) := strconv.Atoi s in
        if bool_decide (e = None) && bool_decide (0 ≤ n)%Z
        then (to_uint 64 n, tr)
        else
          match strconv.ParseUint s strconv.IntSize with
          | (_, Some e) => (0%Z, setColError "cannot parse `uint`" e tr)
          | (nu, None) => (to_uint 64 nu, tr)
          end
    end.

Definition Int32 (tr : Reader) : Z * Reader :=
  if decide (err tr ≠ None) then (0%Z, tr)
  else
    match nextCol tr with
    | (inr e, tr) => (0%Z, setColError "cannot read `int32`" e tr)
    | (inl c, tr) =>
        let s := b2s tr c in
        let '(n, e) := strconv.Atoi s in
        if bool_decide (e = None) && bool_decide (MinInt32 ≤ n)%Z
           && bool_decide (n ≤ MaxInt32)%Z
        then (to_int 32 n, tr)
        else
          match strconv.ParseInt s 32 with
          | (_, Some e) => (0%Z, setColError "cannot parse `int32`" e tr)
          | (n32, None) => (to_int 32 n32, tr)
          end
    end.

Definition Uint32 (tr : Reader) : Z * Reader :=
  if decide (err tr ≠ None) then (0%Z, tr)
  else
    match nextCol tr with
    | (inr e, tr) => (0%Z, setColError "cannot read `uint32`" e tr)
    | (inl c, tr) =>
        let s := b2s tr c in
        let '(n, e) := strconv.Atoi s in
        if bool_decide (e = None) && bool_decide (0 ≤ n)%Z
           && bool_decide (n ≤ MaxUint32)%Z
        then (to_uint 32 n, tr)
        else
          match strconv.ParseUint s 32 with
          | (_, Some e) => (0%Z, setColError "cannot parse `uint32`" e tr)
          | (n32, None) => (to_uint 32 n32, tr)
          end
    end.

Definition Int16 (tr : Reader) : Z * Reader :=
  if decide (err tr ≠ None) then (0%Z, tr)
  else
    match nextCol tr with
    | (inr e, tr) => (0%Z, setColError "cannot read `int16`" e tr)
    | (inl c, tr) =>
        match strconv.Atoi (b2s tr c) with
        | (_, Some e) => (0%Z, setColError "cannot parse `int16`" e tr)
        | (n, None) =>
            if decide (n < MinInt16 ∨ MaxInt16 < n)%Z
            then (0%Z, setColError "cannot parse `int16`"
                                   (ErrText "out of range") tr)
            else (to_int 16 n, tr)
        end
    end.

Definition Uint16 (tr : Reader) : Z * Reader :=
  if decide (err tr ≠ None) then (0%Z, tr)
  else
    match nextCol tr with
    | (inr e, tr) => (0%Z, setColError "cannot read `uint16`" e tr)
    | (inl c, tr) =>
        match strconv.Atoi (b2s tr c) with
        | (_, Some e) => (0%Z, setColError "cannot parse `uint16`" e tr)
        | (n, None) =>
            if decide (n < 0)%Z
            then (0%Z, setColError "cannot parse `uint16`"
                                   (ErrText "invalid syntax") tr)
            else if decide (MaxUint16 < n)%Z
            then (0%Z, setColError "cannot parse `uint16`"
                                   (ErrText "out of range") tr)
            else (to_uint 16 n, tr)
        end
    end.

Definition Int8 (tr : Reader) : Z * Reader :=
  if decide (err tr ≠ None) then (0%Z, tr)
  else
    match nextCol tr with
    | (inr e, tr) => (0%Z, setColError "cannot read `int8`" e tr)
    | (inl c, tr) =>
        match strconv.Atoi (b2s tr c) with
        | (_, Some e) => (0%Z, setColError "cannot parse `int8`" e tr)
        | (n, None) =>
            if decide (n < MinInt8 ∨ MaxInt8 < n)%Z
            then (0%Z, setColError "cannot parse `int8`"
                                   (ErrText "out of range") tr)
            else (to_int 8 n, tr)
        end
    end.

Definition Uint8 (tr : Reader) : Z * Reader :=
  if decide (err tr ≠ None) then (0%Z, tr)
  else
    match nextCol tr with
    | (inr e, tr) => (0%Z, setColError "cannot read `uint8`" e tr)
    | (inl c, tr) =>
        match strconv.Atoi (b2s tr c) with
        | (_, Some e) => (0%Z, setColError "cannot parse `uint8`" e tr)
        | (n, None) =>
            if decide (n < 0)%Z
            then (0%Z, setColError "cannot parse `uint8`"
                                   (ErrText "invalid syntax") tr)
            else if decide (MaxUint8 < n)%Z
            then (0%Z, setColError "cannot parse `uint8`"
                                   (ErrText "out of range") tr)
            else (to_uint 8 n, tr)
        end
    end.

Definition Int64 (tr : Reader) : Z * Reader :=
  if decide (err tr ≠ None) then (0%Z, tr)
  else
    match nextCol tr with
    | (inr e, tr) => (0%Z, setColError "cannot read `int64`" e tr)
    | (inl c, tr) =>
        let s := b2s tr c in
        let '(n, e) := strconv.Atoi s in
        if bool_decide (e = None) && bool_decide (MinInt64 ≤ to_int 64 n)%Z
           && bool_decide (to_int 64 n ≤ MaxInt64)%Z
        then (to_int 64 n, tr)
        else
          match strconv.ParseInt s 64 with
          | (_, Some e) => (0%Z, setColError "cannot parse `int64`" e tr)
          | (n64, None) => (n64, tr)
          end
    end.

Definition Uint64 (tr : Reader) : Z * Reader :=
  if decide (err tr ≠ None) then (0%Z, tr)
  else
    match nextCol tr with
    | (inr e, tr) => (0%Z, setColError "cannot read `uint64`" e tr)
    | (inl c, tr) =>
        let s := b2s tr c in
        let '(n, e) := strconv.Atoi s in
        if bool_decide (e = None) && bool_decide (0 ≤ n)%Z
           && bool_decide (to_uint 64 n ≤ MaxUint64)%Z
        then (to_uint 64 n, tr)
        else
          match strconv.ParseUint s 64 with
          | (_, Some e) => (0%Z, setColError "cannot parse `uint64`" e tr)
          | (n64, None) => (n64, tr)
          end
    end.

(** ** The float decoders

    Floating-point values and [strconv.ParseFloat] are taken as given: the
    decoders only pass the column on and report the error. *)
Section Floats.

Variables float64 float32 : Type.
Variable zero64 : float64.
Variable zero32 : float32.
Variable ParseFloat : bytes → Z → float64 * option error.
Variable to_float32 : float64 → float32.

Definition Float32 (tr : Reader) : float32 * Reader :=
  if decide (err tr ≠ None) then (zero32, tr)
  else
    match nextCol tr with
    | (inr e, tr) => (zero32, setColError "cannot read `float32`" e tr)
    | (inl c, tr) =>
        match ParseFloat (b2s tr c) 32 with
        | (_, Some e) => (zero32, setColError "cannot parse `float32`" e tr)
        | (f32, None) => (to_float32 f32, tr)
        end
    end.

Definition Float64 (tr : Reader) : float64 * Reader :=
  if decide (err tr ≠ None) then (zero64, tr)
  else
    match nextCol tr with
    | (inr e, tr) => (zero64, setColError "cannot read `float64`" e tr)
    | (inl c, tr) =>
        match ParseFloat (b2s tr c) 64 with
        | (_, Some e) => (zero64, setColError "cannot parse `float64`" e tr)
        | (f64, None) => (f64, tr)
        end
    end.

End Floats.

(** ** The date decoders *)

(** [time.Time], as the fields handed to [time.Date] with [time.UTC] and zero
    nanoseconds; the normalisation that [time.Date] applies to fields out of
    their range is left out.  The zero [time.Time] is January 1 of year 1,
    00:00:00 UTC. *)
Record Time := DateUTC {
  year : Z; month : Z; day : Z; hour : Z; minute : Z; second : Z
}.

Definition zeroTime : Time := DateUTC 1 1 1 0 0 0.

#[global] Instance byte_inhabited : Inhabited byte := populate x00.

(** [parseDate]: Go's named results [y, m, d, err]. *)
Definition parseDate (s : bytes) : Z * Z * Z * option error :=
  if decide (length s ≠ 10) then (0, 0, 0, Some (ErrText "too short date"))%Z
  else
    let s := take 10 s in
    if decide (s !!! 4 ≠ "-"%byte ∧ s !!! 7 ≠ "-"%byte)
    then (0, 0, 0,
          Some (ErrText "invalid date format. Must be YYYY-MM-DD"))%Z
    else
      let yS := take 4 s in
      let mS := take 2 (drop 5 s) in
      let dS := drop 8 s in
      match strconv.Atoi yS with
      | (y, Some e) => (y, 0, 0, Some (ErrField "invalid year" e))%Z
      | (y, None) =>
          match strconv.Atoi mS with
          | (m, Some e) => (y, m, 0%Z, Some (ErrField "invalid month" e))
          | (m, None) =>
              match strconv.Atoi dS with
              | (d, Some e) => (y, m, d, Some (ErrField "invalid day" e))
              | (d, None) => (y, m, d, None)
              end
          end
      end.

Definition parseDateTime (s : bytes) : Time * option error :=
  if decide (length s ≠ 19) then (zeroTime, Some (ErrText "too short datetime"))
  else
    match parseDate (take 10 s) with
    | (_, _, _, Some e) => (zeroTime, Some e)
    | (y, m, d, None) =>
        let s := drop 10 s in
        if decide (s !!! 0 ≠ " "%byte ∨ s !!! 3 ≠ ":"%byte ∨ s !!! 6 ≠ ":"%byte)
        then (zeroTime,
              Some (ErrText "invalid time format. Must be hh:mm:ss"))
        else
          let hS := take 2 (drop 1 s) in
          let minS := take 2 (drop 4 s) in
          let secS := drop 7 s in
          match strconv.Atoi hS with
          | (_, Some e) => (zeroTime, Some (ErrField "invalid hour" e))
          | (h, None) =>
              match strconv.Atoi minS with
              | (_, Some e) => (zeroTime, Some (ErrField "invalid minute" e))
              | (min, None) =>
                  match strconv.Atoi secS with
                  | (_, Some e) =>
                      (zeroTime, Some (ErrField "invalid second" e))
                  | (sec, None) =>
                      if decide (y = 0 ∧ m = 0 ∧ d = 0)%Z
                      then (zeroTime, None)
                      else (DateUTC y m d h min sec, None)
                  end
              end
          end
    end.

Definition Date (tr : Reader) : Time * Reader :=
  if decide (err tr ≠ None) then (zeroTime, tr)
  else
    match nextCol tr with
    | (inr e, tr) => (zeroTime, setColError "cannot read `date`" e tr)
    | (inl c, tr) =>
        match parseDate (b2s tr c) with
        | (_, _, _, Some e) => (zeroTime, setColError "cannot parse `date`" e tr)
        | (y, m, d, None) =>
            if decide (y = 0 ∧ m = 0 ∧ d = 0)%Z then (zeroTime, tr)
            else (DateUTC y m d 0 0 0, tr)
        end
    end.

Definition DateTime (tr : Reader) : Time * Reader :=
  if decide (err tr ≠ None) then (zeroTime, tr)
  else
    match nextCol tr with
    | (inr e, tr) => (zeroTime, setColError "cannot read `datetime`" e tr)
    | (inl c, tr) =>
        match parseDateTime (b2s tr c) with
        | (_, Some e) => (zeroTime, setColError "cannot parse `datetime`" e tr)
        | (dt, None) => (dt, tr)
        end
    end.

(** ** Callers *)

(** One call of the reader's interface, and what the caller sees of it. *)
Inductive op := OpNext | OpHasCols | OpBytes | OpString | OpSkipCol
              | OpUint8 | OpError | OpResetError.

Inductive obs :=
| ObsBool (v : bool)
| ObsBytes (v : option bytes)
| ObsString (v : bytes)
| ObsInt (v : Z)
| ObsError (v : option error)
| ObsDone.

Definition step (o : op) (tr : Reader) : obs * Reader :=
  match o with
  | OpNext => let '(v, tr) := Next tr in (ObsBool v, tr)
  | OpHasCols => (ObsBool (HasCols tr), tr)
  | OpBytes => let '(v, tr) := BytesValue tr in (ObsBytes v, tr)
  | OpString => let '(v, tr) := String' tr in (ObsString v, tr)
  | OpSkipCol => (ObsDone, SkipCol tr)
  | OpUint8 => let '(v, tr) := Uint8 tr in (ObsInt v, tr)
  | OpError => (ObsError (Error tr), tr)
  | OpResetError => (ObsDone, ResetError tr)
  end.

(** A caller's sequence of calls and the trace it observes. *)
Fixpoint run (ops : list op) (tr : Reader) : list obs * Reader :=
  match ops with
  | [] => ([], tr)
  | o :: ops' =>
      let '(v, tr) := step o tr in
      let '(vs, tr) := run ops' tr in
      (v :: vs, tr)
  end.

(** [k] calls of an accessor on the current row. *)
Fixpoint read_cols {A} (get : Reader → A * Reader) (k : nat) (tr : Reader)
  : list A * Reader :=
  match k with
  | O => ([], tr)
  | S k' =>
      let '(v, tr) := get tr in
      let '(vs, tr) := read_cols get k' tr in
      (v :: vs, tr)
  end.

(** The loop [for tr.Next() { ... }] of a caller that knows how many columns
    each row has: the values of the rows that [Next] announced. *)
Fixpoint read_rows {A} (get : Reader → A * Reader) (shape : list nat)
  (tr : Reader) : list (list A) * Reader :=
  match shape with
  | [] => ([], tr)
  | k :: shape' =>
      let '(ok, tr) := Next tr in
      if ok then
        let '(vs, tr) := read_cols get k tr in
        let '(rows, tr) := read_rows get shape' tr in
        (vs :: rows, tr)
      else ([], tr)
  end.

(** ** The wire format *)

(** The columns of a row, separated by [c]. *)
Fixpoint join (c : byte) (cols : list bytes) : bytes :=
  match cols with
  | [] => []
  | [x] => x
  | x :: cols' => x ++ c :: join c cols'
  end.

(** Rows, each closed by a newline. *)
Definition encode (c : byte) (rows : list (list bytes)) : bytes :=
  concat (map (λ cols, join c cols ++ [newline]) rows).

(** A column holds no separator, newline or escape marker; a row has at
    least one column. *)
Definition plain_col (c : byte) (x : bytes) : Prop :=
  (c ∉ x) ∧ (newline ∉ x) ∧ (backslash ∉ x).
Definition plain_row (c : byte) (cols : list bytes) : Prop :=
  cols ≠ [] ∧ Forall (plain_col c) cols.

(** The bytes a stream delivers before its first error, and whether that
    error, if any, is the end of the stream. *)
Fixpoint stream_data (s : stream) : bytes :=
  match s with
  | [] => []
  | (d, None) :: s' => d ++ stream_data s'
  | (d, Some _) :: _ => d
  end.

Fixpoint ends_in_EOF (s : stream) : Prop :=
  match s with
  | [] => True
  | (_, None) :: s' => ends_in_EOF s'
  | (_, Some e) :: _ => e = EOF
  end.

(** The input that the reader has not yet split into rows: the staged bytes,
    the rest of the read buffer and what the stream still holds. *)
Definition pending (tr : Reader) : bytes :=
  bytes_of tr (scratch tr) ++ view tr (rb tr) ++
  match rErr tr with None => stream_data (r tr) | Some _ => [] end.

(** The stream fails in no other way than by ending. *)
Definition clean (tr : Reader) : Prop :=
  match rErr tr with None => ends_in_EOF (r tr) | Some e => e = EOF end.

(** [scratch] lies within its array. *)
Definition scratch_ok (tr : Reader) : Prop :=
  arr (scratch tr) = Heap ∧
  off (scratch tr) + len (scratch tr) ≤ length (heap tr).

(** ** Escape sequences, as the format defines them *)

(** The table of escape sequences: the byte after the marker and the byte the
    pair stands for. *)
Definition escape_table : list (byte * byte) :=
  [("b"%byte, x08); ("f"%byte, x0c); ("r"%byte, x0d); ("n"%byte, x0a);
   ("t"%byte, x09); ("0"%byte, x00); (x27, x27); (x5c, x5c)].

(** The decoded byte: the entry of the table, or the byte itself. *)
Definition spec_escape (c : byte) : byte :=
  match list_find (λ p, p.1 = c) escape_table with
  | Some (_, (_, v)) => v
  | None => c
  end.

(** Every pair of marker and following byte becomes one byte; a marker with
    nothing after it stays. *)
Fixpoint spec_unescape (s : bytes) : bytes :=
  match s with
  | [] => []
  | c :: s' =>
      if decide (c = backslash) then
        match s' with
        | [] => [c]
        | e :: s'' => spec_escape e :: spec_unescape s''
        end
      else c :: spec_unescape s'
  end.

(** ** Predicates on reader states *)

(** The passes that the loop of [Next] still needs, from the state of the
    read buffer and the stream. *)
Definition passes (tr : Reader) : nat :=
  (if decide (slen (rb tr) = 0) then 0 else 1) +
  match rErr tr with Some _ => 1 | None => stream_size (r tr) + 2 end.

(** What the loop of [Next] keeps true: [scratch] lies within its array and
    holds no newline, the read buffer is a slice of [rBuf], and the stream
    fails in no other way than by ending. *)
Definition loop_inv (tr : Reader) : Prop :=
  scratch_ok tr ∧ clean tr ∧ (newline ∉ bytes_of tr (scratch tr)) ∧
  from_option (λ s, arr s = RBuf) True (rb tr).

(** What the loop returns, from the input [p] that was pending: the row up to
    the first newline, or the end of the stream. *)
Definition Next_post (p : bytes) (tr : Reader) (res : bool * Reader) : Prop :=
  row res.2 = row tr ∧ col res.2 = col tr ∧ sep res.2 = sep tr ∧
  match IndexByte p newline with
  | None =>
      res.1 = false ∧
      err res.2 =
        Some (if decide (p = []) then EOF else ErrNoNewline (row tr) p)
  | Some n =>
      res.1 = true ∧ err res.2 = err tr ∧
      (∃ c, rowBuf res.2 = Some c ∧ b res.2 = Some c ∧
            bytes_of res.2 c = take n p) ∧
      pending res.2 = drop (S n) p ∧ loop_inv res.2 ∧
      len (scratch res.2) = 0
  end.

(** What one pass of the loop keeps of the counters, the separator and the
    error. *)
Definition pass_post (tr : Reader) (res : (bool * Reader) + Reader) : Prop :=
  match res with
  | inr tr' =>
      err tr' = err tr ∧ row tr' = row tr ∧ col tr' = col tr ∧ sep tr' = sep tr
  | inl (true, tr') =>
      err tr' = err tr ∧ row tr' = row tr ∧ col tr' = col tr ∧
      sep tr' = sep tr ∧ ∃ c, rowBuf tr' = Some c ∧ b tr' = Some c
  | inl (false, tr') =>
      row tr' = row tr ∧ col tr' = col tr ∧ sep tr' = sep tr ∧
      ∃ e, err tr' = Some (terminal_error tr e)
  end.

(** The error is not the one that [Next] raises for unread columns. *)
Definition not_unread (e : option error) : Prop :=
  match e with Some (ErrUnreadCols _ _ _) => False | _ => True end.

(** The cursor holds the columns [cols], joined by the separator. *)
Definition cursor_at (tr : Reader) (cols : list bytes) : Prop :=
  match cols with
  | [] => b tr = None
  | _ => ∃ c, b tr = Some c ∧ bytes_of tr c = join (sep tr) cols
  end.

(** [tr'] is [tr] after writes to array [a] below index [k]: the other
    fields, the other array, the length of [a] and its bytes from [k] on are
    the same. *)
Definition writes_below (a : array) (k : nat) (tr tr' : Reader) : Prop :=
  length (mem tr' a) = length (mem tr a) ∧
  drop k (mem tr' a) = drop k (mem tr a) ∧
  (∀ a', a' ≠ a → mem tr' a' = mem tr a') ∧
  r tr' = r tr ∧ rb tr' = rb tr ∧ rErr tr' = rErr tr ∧ col tr' = col tr ∧
  row tr' = row tr ∧ rowBuf tr' = rowBuf tr ∧ b tr' = b tr ∧
  scratch tr' = scratch tr ∧ err tr' = err tr ∧ sep tr' = sep tr ∧
  needUnescape tr' = needUnescape tr.


(** ** Decimal texts *)

(** The value of a run of decimal digits read after the value [acc]; [None]
    when a byte is not a digit. *)
Fixpoint dec_value (s : bytes) (acc : Z) : option Z :=
  match s with
  | [] => Some acc
  | c :: s' =>
      match strconv.digit c with
      | Some d => dec_value s' (acc * 10 + d)
      | None => None
      end
  end.

(** The value of an unsigned decimal text: one digit at least. *)
Definition uint_text (s : bytes) : option Z :=
  match s with [] => None | _ => dec_value s 0 end.

(** The value of a decimal text with an optional sign. *)
Definition int_text (s : bytes) : option Z :=
  match s with
  | [] => None
  | c :: s' =>
      if decide (c = "+"%byte) then uint_text s'
      else if decide (c = "-"%byte) then Z.opp <$> uint_text s'
      else uint_text s
  end.

(** The value of a signed decimal text, when it lies in [lo..hi]. *)
Definition int_in (lo hi : Z) (s : bytes) : option Z :=
  match int_text s with
  | Some v => if decide (lo ≤ v ≤ hi)%Z then Some v else None
  | None => None
  end.

(** The value of a column that [Uint] and [Uint64] accept: a signed text with
    a value in [0..MaxInt64] (the fast path through [Atoi]) or an unsigned
    text with a value up to [MaxUint64] (the slow path). *)
Definition uint64_text (s : bytes) : option Z :=
  match int_in 0 MaxInt64 s with
  | Some v => Some v
  | None =>
      match uint_text s with
      | Some u => if decide (u ≤ MaxUint64)%Z then Some u else None
      | None => None
      end
  end.

(** An integer decoder [D] called on [tr] decodes the value [v] and leaves
    the reader as [SkipCol] does ([Some v]), or returns 0 and leaves it with
    a column error ([None]). *)
Definition decodes (D : Reader → Z * Reader) (tr : Reader) (ov : option Z)
  : Prop :=
  match ov with
  | Some v => D tr = (v, SkipCol tr)
  | None => ∃ msg e, D tr = (0%Z, setColError msg e (SkipCol tr))
  end.

(** ** Failing streams *)

(** The error that ends a stream: the first one of its script, [EOF] when the
    script runs out. *)
Fixpoint stream_error (s : stream) : error :=
  match s with
  | [] => EOF
  | (_, None) :: s' => stream_error s'
  | (_, Some e) :: _ => e
  end.

(** The error that the reader will meet: the one it has seen already, or the
    one its stream ends with. *)
Definition final_error (tr : Reader) : error :=
  match rErr tr with Some e => e | None => stream_error (r tr) end.

(** The input that [Next] has not looked at yet: the rest of the read buffer
    and what the stream still holds. *)
Definition unread (tr : Reader) : bytes :=
  view tr (rb tr) ++
  match rErr tr with None => stream_data (r tr) | Some _ => [] end.

(** ** Rows with a variable number of columns *)

(** The loop [for tr.HasCols() { get }] that reads the columns of the current
    row, and the values it collects; [fuel] bounds the passes. *)
Fixpoint cols_loop {A} (get : Reader → A * Reader) (fuel : nat) (tr : Reader)
  : list A * Reader :=
  match fuel with
  | O => ([], tr)
  | S fuel' =>
      if HasCols tr then
        let '(v, tr) := get tr in
        let '(vs, tr) := cols_loop get fuel' tr in
        (v :: vs, tr)
      else ([], tr)
  end.

(** The loop [for tr.Next() { for tr.HasCols() { get } }]: at most [n] calls
    of [Next], at most [m] columns a row. *)
Fixpoint scan {A} (get : Reader → A * Reader) (n m : nat) (tr : Reader)
  : list (list A) * Reader :=
  match n with
  | O => ([], tr)
  | S n' =>
      let '(ok, tr) := Next tr in
      if ok then
        let '(vs, tr) := cols_loop get m tr in
        let '(rows, tr) := scan get n' m tr in
        (vs :: rows, tr)
      else ([], tr)
  end.

(** The fields of a line: the pieces between the separators, one more than
    there are separators. *)
Fixpoint fields (c : byte) (s : bytes) : list bytes :=
  match s with
  | [] => [[]]
  | x :: s' =>
      if decide (x = c) then [] :: fields c s'
      else
        match fields c s' with
        | f :: fs => (x :: f) :: fs
        | [] => [[x]]
        end
  end.

(** The columns of a row: an empty row has none. *)
Definition columns (c : byte) (line : bytes) : list bytes :=
  match line with [] => [] | _ => fields c line end.

(** The lines of an input, each closed by a newline, and what follows the
    last newline. *)
Fixpoint lines (s : bytes) : list bytes * bytes :=
  match s with
  | [] => ([], [])
  | x :: s' =>
      let '(ls, t) := lines s' in
      if decide (x = newline) then ([] :: ls, t)
      else
        match ls with
        | l :: ls' => ((x :: l) :: ls', t)
        | [] => ([], x :: t)
        end
  end.

(** The reader is on a row that [Next] has just found: the row and the cursor
    are one slice that lies within its array, the rest of the read buffer
    lies behind it, and nothing is staged. *)
Definition row_layout (tr : Reader) : Prop :=
  ∃ c, rowBuf tr = Some c ∧ b tr = Some c ∧
    off c + len c ≤ length (mem tr (arr c)) ∧
    from_option (λ s, arr s = arr c → off c + len c ≤ off s) True (rb tr) ∧
    len (scratch tr) = 0.

(** [tr'] is [tr] after the cursor has moved and bytes of array [a] below
    index [k] have been written. *)
Definition row_frame (a : array) (k : nat) (tr tr' : Reader) : Prop :=
  writes_below a k (set_b (b tr') (set_col (col tr') tr)) tr'.

(** The whole input arrives in one read: either the read is still to come,
    or it has been made and every marker of what is left has been seen by
    it. *)
Definition single_read (tr : Reader) : Prop :=
  len (scratch tr) = 0 ∧
  ((slen (rb tr) = 0 ∧ rErr tr = None ∧
    ∃ d e, r tr = [(d, e)] ∧ length d ≤ rBufSize) ∨
   (r tr = [] ∧ (needUnescape tr = true ∨ (backslash ∉ pending tr)))).

(** The cursor lies within its array. *)
Definition cursor_ok (tr : Reader) : Prop :=
  from_option (λ c, off c + len c ≤ length (mem tr (arr c))) True (b tr).

(** ** Date texts *)





(** [SkipCol] as an accessor without a value. *)
Definition skip (tr : Reader) : unit * Reader := (tt, SkipCol tr).

(** The bytes of array [a] below index [k] are the same in [tr] and [tr']. *)
Definition same_below (a : array) (k : nat) (tr tr' : Reader) : Prop :=
  take k (mem tr' a) = take k (mem tr a).

(** ** Sample readers and inputs *)

(** A reader whose stream ended inside a row: its error is set. *)
Definition sticky_reader : Reader := (Next (NewCSV [(bs "a", None)])).2.

(** A reader on the row [255]. *)
Definition uint8_reader : Reader := (Next (NewCSV [(line_of "255", None)])).2.


(** A reader before an empty row. *)
Definition empty_row_reader : Reader := NewCSV [([newline], None)].

(** Two rows, and a stream that delivers them in three reads. *)
Definition sample_rows : list (list bytes) := [[bs "a"; bs "bc"]; [bs "d"]].
Definition sample_stream : stream :=
  [(bs "a,", None); (bs "bc" ++ [newline] ++ bs "d", None);
   ([newline], Some EOF)].

(** A caller that reads one column of the first row and goes on to the end. *)
Definition trace_ops : list op := [OpNext; OpBytes; OpNext; OpError].

(** The row [a\nb] (marker and [n] between [a] and [b]) in one read, and
    split after the [n]. *)
Definition escaped_row : bytes := [ "a"%byte; backslash; "n"%byte; "b"%byte ].
Definition escaped_whole : stream := [(escaped_row ++ [newline], None)].
Definition escaped_split : stream :=
  [(take 3 escaped_row, None); (drop 3 escaped_row ++ [newline], None)].

(** The row [1,x\ty], split between the marker and the [t]. *)
Definition tab_column : bytes := [ "x"%byte; backslash; "t"%byte; "y"%byte ].
Definition tab_split : stream :=
  [(bs "1," ++ take 2 tab_column, None);
   (drop 2 tab_column ++ [newline], None)].

(** A reader on the row [+7,-0]. *)
Definition signed_row_reader : Reader :=
  (Next (NewCSV [(line_of "+7,-0", None)])).2.


(** A reader on the row [x\ty,z], read at once. *)
Definition escaped_row_reader : Reader :=
  (Next (NewCSV [(tab_column ++ line_of ",z", None)])).2.

(** A reader whose stream breaks inside the second row. *)
Definition broken_stream : stream :=
  [(line_of "a,b", None); (bs "c", Some (ErrStream "connection reset"))].

(** Rows with different numbers of columns, an empty row and an unfinished
    one, in three reads. *)
Definition ragged_stream : stream :=
  [(bs "a,", None); (bs ",b" ++ [newline; newline] ++ bs "c,", None);
   ([newline] ++ bs "d", Some EOF)].
Definition ragged_lines : list bytes := [bs "a,,b"; []; bs "c,"].

(** Two rows with escape sequences, in one read. *)
Definition escaped_input : bytes :=
  tab_column ++ bs "," ++ escaped_row ++ [newline] ++ line_of "q".

(** ** Proof tools *)

(** The rewrite base [reader] holds the equations of the fields under a write
    to the store. *)
Create Rewrite HintDb reader.

Ltac rsimpl := repeat (progress (simpl; autorewrite with reader)).

(** [c ∉ l] for a byte [c] and a list [l] that are given in full. *)
Ltac absent :=
  let H := fresh in
  intros H;
  repeat (apply elem_of_cons in H as [H|H]; [discriminate|]);
  by apply elem_of_nil in H.

(** A decoder [D] against [SkipCol], branch by branch. *)
Ltac advance D tr :=
  unfold D, SkipCol; destruct (decide (err tr ≠ None)); [reflexivity|];
  destruct (nextCol tr) as [[?|?] ?]; [|reflexivity];
  cbv zeta; repeat case_match; reflexivity.

(** A decoder [D] on a reader without error whose next column is known. *)
Ltac on_column D tr Herr Hnext Hx :=
  unfold D; destruct (decide (err tr ≠ None)) as [Hne|_];
  [by rewrite Herr in Hne|];
  rewrite Hnext; cbv zeta; rewrite Hx.

#[global] Arguments append : simpl never.

(** * Properties *)

(** ** The store and the other fields *)

Lemma set_mem_r a v tr : r (set_mem a v tr) = r tr.
Proof. by destruct a. Qed.
Lemma set_mem_rb a v tr : rb (set_mem a v tr) = rb tr.
Proof. by destruct a. Qed.
Lemma set_mem_rErr a v tr : rErr (set_mem a v tr) = rErr tr.
Proof. by destruct a. Qed.
Lemma set_mem_col a v tr : col (set_mem a v tr) = col tr.
Proof. by destruct a. Qed.
Lemma set_mem_row a v tr : row (set_mem a v tr) = row tr.
Proof. by destruct a. Qed.
Lemma set_mem_rowBuf a v tr : rowBuf (set_mem a v tr) = rowBuf tr.
Proof. by destruct a. Qed.
Lemma set_mem_b a v tr : b (set_mem a v tr) = b tr.
Proof. by destruct a. Qed.
Lemma set_mem_scratch a v tr : scratch (set_mem a v tr) = scratch tr.
Proof. by destruct a. Qed.
Lemma set_mem_err a v tr : err (set_mem a v tr) = err tr.
Proof. by destruct a. Qed.
Lemma set_mem_sep a v tr : sep (set_mem a v tr) = sep tr.
Proof. by destruct a. Qed.
Lemma set_mem_needUnescape a v tr :
  needUnescape (set_mem a v tr) = needUnescape tr.
Proof. by destruct a. Qed.

Lemma mem_set_mem a a' v tr :
  mem (set_mem a v tr) a' = if decide (a = a') then v else mem tr a'.
Proof. by destruct a, a'. Qed.

#[global] Hint Rewrite set_mem_r set_mem_rb set_mem_rErr set_mem_col set_mem_row
  set_mem_rowBuf set_mem_b set_mem_scratch set_mem_err set_mem_sep
  set_mem_needUnescape : reader.

(** ** Termination of the loop of [Next] *)

Lemma Next_loop_mono fuel fuel' tr res :
  Next_loop fuel tr = Some res → fuel ≤ fuel' → Next_loop fuel' tr = Some res.
Proof.
  revert fuel' tr. induction fuel as [|fuel IH]; intros fuel' tr H Hle.
  - discriminate.
  - destruct fuel' as [|fuel']; [lia|]. simpl in *.
    destruct (Next_pass tr); [done|]. apply IH; [done|lia].
Qed.

Lemma Read_size s d e s' :
  Read s rBufSize = (d, e, s') →
  match e with Some _ => 0 | None => stream_size s' + 1 end ≤ stream_size s.
Proof.
  destruct s as [|[d0 e0] s0]; simpl.
  - intros [= <- <- <-]. lia.
  - destruct (decide _) as [Hle|Hgt]; intros [= <- <- <-].
    + destruct e0; simpl; lia.
    + simpl. rewrite length_drop. unfold rBufSize in *. lia.
Qed.

Lemma Next_pass_passes tr tr' :
  Next_pass tr = inr tr' → S (passes tr') ≤ passes tr.
Proof.
  unfold Next_pass, passes.
  destruct (decide (slen (rb tr) = 0)) as [Hz|Hnz].
  - destruct (rErr tr) as [e|] eqn:HrErr; [done|].
    unfold fill. destruct (Read (r tr) rBufSize) as [[d e] s'] eqn:HR.
    apply Read_size in HR.
    destruct (IndexByte _ _); [done|]. intros [= <-].
    unfold stash, append. rsimpl. destruct e; simpl in *; lia.
  - destruct (IndexByte _ _); [done|]. intros [= <-].
    unfold stash, append. rsimpl. destruct (rErr tr); lia.
Qed.

Lemma Next_loop_passes fuel tr :
  passes tr ≤ fuel → is_Some (Next_loop fuel tr).
Proof.
  revert tr. induction fuel as [|fuel IH]; intros tr Hle; simpl.
  - unfold passes in Hle. destruct (rErr tr); lia.
  - destruct (Next_pass tr) as [res|tr'] eqn:Hp; [by eexists|].
    apply Next_pass_passes in Hp. apply IH. lia.
Qed.

Lemma Next_loop_total tr : is_Some (Next_loop (Next_fuel tr) tr).
Proof.
  apply Next_loop_passes. unfold passes, Next_fuel.
  destruct (decide _), (rErr tr); lia.
Qed.

(** ** [IndexByte] *)

Lemma IndexByte_None s c : IndexByte s c = None ↔ c ∉ s.
Proof.
  induction s as [|x s IH]; simpl.
  - split; [intros _; apply not_elem_of_nil | done].
  - destruct (decide (x = c)) as [->|Hne].
    + split; [done | intros H; destruct H; left].
    + rewrite not_elem_of_cons, <- IH.
      destruct (IndexByte s c); simpl; split; try done; intros []; done.
Qed.

Lemma IndexByte_Some s c n :
  IndexByte s c = Some n →
  s = take n s ++ c :: drop (S n) s ∧ (c ∉ take n s) ∧ n < length s.
Proof.
  revert n. induction s as [|x s IH]; intros n; simpl; [done|].
  destruct (decide (x = c)) as [->|Hne].
  - intros [= <-]. simpl. rewrite drop_0.
    split_and!; [done | apply not_elem_of_nil | lia].
  - destruct (IndexByte s c) as [m|] eqn:Hm; [|done].
    intros [= <-]. destruct (IH m eq_refl) as (Heq & Hnin & Hlt).
    simpl. split_and!; [by rewrite <- Heq | | lia].
    rewrite not_elem_of_cons. done.
Qed.

Lemma IndexByte_app s1 s2 c :
  c ∉ s1 →
  IndexByte (s1 ++ s2) c = (λ n, length s1 + n) <$> IndexByte s2 c.
Proof.
  induction s1 as [|x s1 IH]; intros Hnin; simpl.
  - by destruct (IndexByte s2 c).
  - apply not_elem_of_cons in Hnin as [Hne Hnin].
    destruct (decide (x = c)); [congruence|].
    rewrite IH by done. by destruct (IndexByte s2 c).
Qed.

Lemma IndexByte_here s1 s2 c :
  c ∉ s1 → IndexByte (s1 ++ c :: s2) c = Some (length s1).
Proof.
  intros H. rewrite IndexByte_app by done. simpl.
  destruct (decide (c = c)); [|done]. simpl. f_equal. lia.
Qed.

(** ** Slices and their contents *)

Lemma bytes_of_sub tr s i j :
  j ≤ len s → bytes_of tr (sub s i j) = take (j - i) (drop i (bytes_of tr s)).
Proof.
  intros Hj. unfold bytes_of, sub. simpl.
  rewrite skipn_firstn_comm, take_take, drop_drop.
  f_equal. lia.
Qed.

Lemma bytes_of_sfrom tr s i :
  bytes_of tr (sfrom s i) = drop i (bytes_of tr s).
Proof.
  unfold sfrom, bytes_of, sub. simpl.
  by rewrite skipn_firstn_comm, drop_drop.
Qed.

Lemma bytes_of_length tr s :
  off s + len s ≤ length (mem tr (arr s)) → length (bytes_of tr s) = len s.
Proof. intros H. unfold bytes_of. rewrite length_take, length_drop. lia. Qed.

Lemma bytes_of_length_le tr s : length (bytes_of tr s) ≤ len s.
Proof. unfold bytes_of. rewrite length_take. lia. Qed.

(** [append] puts the bytes right after the slice. *)
Lemma bytes_of_append tr d xs tr' d' :
  append tr d xs = (tr', d') →
  off d + len d ≤ length (mem tr (arr d)) →
  bytes_of tr' d' = bytes_of tr d ++ xs.
Proof.
  intros [= <- <-] Hok. unfold bytes_of, write_at. simpl.
  rewrite mem_set_mem, decide_True by done.
  rewrite drop_app_le by (rewrite length_take; lia).
  rewrite take_app_ge by (rewrite length_drop, length_take; lia).
  rewrite length_drop, length_take.
  rewrite Nat.min_l by lia.
  replace (len d + length xs - (off d + len d - off d)) with (length xs) by lia.
  rewrite take_app_length.
  f_equal. rewrite skipn_firstn_comm. f_equal. lia.
Qed.

(** ** One pass of the loop of [Next] *)

Lemma Read_data s d e s' :
  Read s rBufSize = (d, e, s') →
  stream_data s = d ++ match e with None => stream_data s' | Some _ => [] end
  ∧ (ends_in_EOF s →
     match e with None => ends_in_EOF s' | Some e => e = EOF end).
Proof.
  destruct s as [|[d0 e0] s0]; simpl.
  - intros [= <- <- <-]. done.
  - destruct (decide _); intros [= <- <- <-].
    + destruct e0; simpl; [by rewrite app_nil_r|done].
    + simpl. destruct e0; simpl.
      * by rewrite take_drop.
      * by rewrite (assoc (++)), take_drop.
Qed.

Lemma bytes_of_ext tr tr' s :
  mem tr (arr s) = mem tr' (arr s) → bytes_of tr s = bytes_of tr' s.
Proof. unfold bytes_of. by intros ->. Qed.

Lemma fill_spec tr :
  rErr tr = None → slen (rb tr) = 0 → loop_inv tr →
  loop_inv (fill tr) ∧ pending (fill tr) = pending tr ∧
  row (fill tr) = row tr ∧ col (fill tr) = col tr ∧ sep (fill tr) = sep tr ∧
  err (fill tr) = err tr ∧ scratch (fill tr) = scratch tr ∧
  rb (fill tr) ≠ None.
Proof.
  intros HrErr Hrb ((Harr & Hok) & Hclean & Hnl & _).
  unfold fill. destruct (Read (r tr) rBufSize) as [[d e] s'] eqn:HR.
  apply Read_data in HR as [Hdata Hends].
  unfold clean in Hclean. rewrite HrErr in Hclean. specialize (Hends Hclean).
  assert (Hview : view tr (rb tr) = []).
  { destruct (rb tr) as [s|]; [|done]. simpl in *. unfold bytes_of.
    by rewrite Hrb. }
  set (tr1 := set_rErr _ _).
  assert (Hs : bytes_of tr1 (scratch tr) = bytes_of tr (scratch tr)).
  { subst tr1. apply bytes_of_ext. by rewrite Harr. }
  assert (Hd : bytes_of tr1 (Slice RBuf 0 (length d)) = d).
  { subst tr1. unfold bytes_of, write_at. simpl.
    by rewrite drop_0, take_app_length. }
  unfold loop_inv, scratch_ok, clean, pending.
  rewrite HrErr, Hview, Hdata.
  change (scratch tr1) with (scratch tr). change (rErr tr1) with e.
  change (r tr1) with s'. change (heap tr1) with (heap tr).
  change (view tr1 (rb tr1)) with (bytes_of tr1 (Slice RBuf 0 (length d))).
  rewrite Hs, Hd. split_and!; done.
Qed.

Lemma stash_spec tr :
  loop_inv tr → (newline ∉ view tr (rb tr)) →
  loop_inv (stash tr) ∧ pending (stash tr) = pending tr ∧
  row (stash tr) = row tr ∧ col (stash tr) = col tr ∧
  sep (stash tr) = sep tr ∧ err (stash tr) = err tr.
Proof.
  intros ((Harr & Hok) & Hclean & Hnl & _) Hnl'.
  unfold stash. destruct (append _ _ _) as [tr' s] eqn:Happ.
  pose proof Happ as Hb. apply bytes_of_append in Hb; [|by rewrite Harr].
  injection Happ as <- <-.
  set (tr' := set_mem _ _ _) in *. set (s := Slice _ _ _) in *.
  unfold loop_inv, scratch_ok, clean, pending.
  change (scratch (set_rb None (set_scratch s tr'))) with s.
  change (bytes_of (set_rb None (set_scratch s tr')) s) with (bytes_of tr' s).
  change (heap (set_rb None (set_scratch s tr'))) with (heap tr').
  change (rErr (set_rb None (set_scratch s tr'))) with (rErr tr').
  change (r (set_rb None (set_scratch s tr'))) with (r tr').
  rewrite Hb. subst tr' s. rsimpl. rewrite Harr. simpl.
  split_and!; try done.
  - unfold write_at. rewrite !length_app, length_take, length_drop. lia.
  - rewrite not_elem_of_app. done.
  - by rewrite <- (assoc (++)).
Qed.

(** What [append] changes: the array of its slice, and nothing else. *)
Lemma append_spec tr d xs tr' d' :
  append tr d xs = (tr', d') →
  off d + len d ≤ length (mem tr (arr d)) →
  bytes_of tr' d' = bytes_of tr d ++ xs ∧
  d' = Slice (arr d) (off d) (len d + length xs) ∧
  off d' + len d' ≤ length (mem tr' (arr d)) ∧
  (∀ a, a ≠ arr d → mem tr' a = mem tr a) ∧
  r tr' = r tr ∧ rb tr' = rb tr ∧ rErr tr' = rErr tr ∧ col tr' = col tr ∧
  row tr' = row tr ∧ rowBuf tr' = rowBuf tr ∧ b tr' = b tr ∧
  scratch tr' = scratch tr ∧ err tr' = err tr ∧ sep tr' = sep tr ∧
  needUnescape tr' = needUnescape tr.
Proof.
  intros Happ Hok. split; [by eapply bytes_of_append|].
  injection Happ as <- <-. rsimpl. split_and!; try done.
  - rewrite mem_set_mem, decide_True by done. unfold write_at.
    rewrite !length_app, length_take, length_drop. lia.
  - intros a Ha. rewrite mem_set_mem, decide_False by done. done.
Qed.

Lemma take_row_spec tr n :
  loop_inv tr → IndexByte (view tr (rb tr)) newline = Some n →
  ∃ c, rowBuf (take_row n tr) = Some c ∧ b (take_row n tr) = Some c ∧
    bytes_of (take_row n tr) c =
      bytes_of tr (scratch tr) ++ take n (view tr (rb tr)) ∧
    view (take_row n tr) (rb (take_row n tr)) = drop (S n) (view tr (rb tr)) ∧
    loop_inv (take_row n tr) ∧ len (scratch (take_row n tr)) = 0 ∧
    rErr (take_row n tr) = rErr tr ∧ r (take_row n tr) = r tr ∧
    row (take_row n tr) = row tr ∧ col (take_row n tr) = col tr ∧
    sep (take_row n tr) = sep tr ∧ err (take_row n tr) = err tr.
Proof.
  intros ((Harr & Hok) & Hclean & Hnl & Hrb) Hn.
  destruct (rb tr) as [s|] eqn:Hs; [|done]. simpl in Hrb, Hn.
  apply IndexByte_Some in Hn as (_ & _ & Hlt).
  pose proof (bytes_of_length_le tr s) as Hle.
  assert (Hline : bytes_of tr (sub s 0 n) = take n (bytes_of tr s)).
  { rewrite bytes_of_sub by lia. by rewrite Nat.sub_0_r, drop_0. }
  assert (Hrest : bytes_of tr (sfrom s (n + 1)) = drop (S n) (bytes_of tr s)).
  { by rewrite bytes_of_sfrom, Nat.add_1_r. }
  unfold take_row. rewrite Hs. cbn [fmap option_fmap option_map].
  set (tr1 := set_rb _ tr).
  change (scratch tr1) with (scratch tr).
  change (view tr1 (Some (sub s 0 n))) with (bytes_of tr (sub s 0 n)).
  destruct (decide (0 < len (scratch tr))) as [Hpos|Hzero].
  - destruct (append _ _ _) as [tr' d'] eqn:Happ.
    apply append_spec in Happ; [|by rewrite Harr].
    destruct Happ as (Hb & -> & Hok' & Hmem & ? & Hrb' & ? & ? & ? & ? & ? & ? & ? & ? & ?).
    eexists. unfold loop_inv, scratch_ok, clean. simpl.
    rewrite Harr in *. simpl in *.
    split_and!; try done.
    + etrans; [|etrans; [apply Hb|]].
      * by apply bytes_of_ext.
      * rewrite Hline. f_equal. 
    + rewrite Hrb'. simpl. rewrite <- Hrest. apply bytes_of_ext. simpl.
      rewrite Hrb. apply (Hmem RBuf). done.
    + lia.
    + unfold clean in *. by rewrite H0, H.
    + unfold bytes_of. simpl. apply not_elem_of_nil.
    + by rewrite Hrb'.
  - exists (sub s 0 n). unfold loop_inv, scratch_ok, clean. simpl.
    assert (len (scratch tr) = 0) as Hz by lia.
    split_and!; try done.
    etrans; [apply (bytes_of_ext _ tr); done|].
    rewrite Hline. unfold bytes_of at 2. by rewrite Hz.
Qed.

Lemma IndexByte_app_Some s1 s2 c n :
  IndexByte s1 c = Some n → IndexByte (s1 ++ s2) c = Some n.
Proof.
  revert n. induction s1 as [|x s1 IH]; intros n; simpl; [done|].
  destruct (decide (x = c)); [done|].
  destruct (IndexByte s1 c) as [m|]; [|done].
  intros [= <-]. by rewrite (IH m).
Qed.

(** ** The loop of [Next], from the pending input *)

Lemma view_empty tr s : slen s = 0 → view tr s = [].
Proof.
  destruct s as [s|]; [|done]. simpl. intros H. unfold bytes_of.
  by rewrite H.
Qed.

(** The search for the newline, after the refill. *)
Lemma scan_spec tr :
  loop_inv tr →
  match IndexByte (view tr (rb tr)) newline with
  | Some n => Next_post (pending tr) tr (true, take_row n tr)
  | None =>
      loop_inv (stash tr) ∧ pending (stash tr) = pending tr ∧
      row (stash tr) = row tr ∧ col (stash tr) = col tr ∧
      sep (stash tr) = sep tr ∧ err (stash tr) = err tr
  end.
Proof.
  intros Hinv. destruct (IndexByte _ _) as [n|] eqn:Hn.
  - destruct (take_row_spec tr n Hinv Hn)
      as (c & HrowBuf & Hb & Hc & Hrb & Hinv' & Hlen & HrErr & Hr & ? & ? & ? & ?).
    destruct Hinv as ((Harr & Hok) & Hclean & Hnl & _).
    pose proof (IndexByte_Some _ _ _ Hn) as (_ & _ & Hlt).
    unfold Next_post. simpl. split_and!; try done.
    unfold pending at 1. rewrite IndexByte_app by done.
    rewrite (IndexByte_app_Some _ _ _ _ Hn). simpl.
    split_and!; try done.
    + exists c. split_and!; try done. rewrite Hc. unfold pending.
      rewrite take_app_add', take_app_le by (rewrite ?bytes_of_length; try lia; by rewrite Harr).
      done.
    + unfold pending. rewrite Hrb, HrErr, Hr.
      assert (bytes_of (take_row n tr) (scratch (take_row n tr)) = []) as ->.
      { unfold bytes_of. by rewrite Hlen. }
      rewrite <- Nat.add_succ_r, drop_app_add', drop_app_le by (rewrite ?bytes_of_length; try lia; by rewrite Harr).
      done.
  - apply stash_spec; [done|]. by apply IndexByte_None.
Qed.

Lemma Next_loop_spec fuel tr res :
  loop_inv tr → Next_loop fuel tr = Some res → Next_post (pending tr) tr res.
Proof.
  revert tr. induction fuel as [|fuel IH]; intros tr Hinv; [done|].
  simpl. unfold Next_pass.
  assert (Hscan : ∀ tr1, loop_inv tr1 → pending tr1 = pending tr →
    row tr1 = row tr → col tr1 = col tr → sep tr1 = sep tr →
    err tr1 = err tr →
    match
      match IndexByte (view tr1 (rb tr1)) newline with
      | Some n => inl (true, take_row n tr1)
      | None => inr (stash tr1)
      end
    with
    | inl res => Some res
    | inr tr' => Next_loop fuel tr'
    end = Some res → Next_post (pending tr) tr res).
  { intros tr1 Hinv1 Hp Hrow Hcol Hsep Herr.
    pose proof (scan_spec tr1 Hinv1) as Hs.
    destruct (IndexByte _ _) as [n|].
    - intros [= <-]. rewrite Hp in Hs. unfold Next_post in *.
      rewrite <- Hrow, <- Hcol, <- Hsep, <- Herr. done.
    - destruct Hs as (Hinv' & Hp' & Hrow' & Hcol' & Hsep' & Herr').
      intros H. apply IH in H; [|done]. unfold Next_post in *.
      rewrite <- Hrow, <- Hcol, <- Hsep, <- Herr, <- Hp, <- Hp'.
      rewrite <- Hrow', <- Hcol', <- Hsep', <- Herr'. done. }
  destruct (decide (slen (rb tr) = 0)) as [Hz|Hnz].
  - destruct (rErr tr) as [e|] eqn:HrErr.
    + intros [= <-]. destruct Hinv as ((Harr & Hok) & Hclean & Hnl & _).
      unfold clean in Hclean. rewrite HrErr in Hclean. subst e.
      unfold Next_post, pending. rewrite HrErr, view_empty, !app_nil_r by done.
      apply IndexByte_None in Hnl. rewrite Hnl. simpl.
      split_and!; try done. f_equal. unfold terminal_error.
      rewrite decide_False by (by intros []).
      pose proof (bytes_of_length tr (scratch tr)) as Hlen.
      rewrite Harr in Hlen. specialize (Hlen Hok).
      destruct (decide (0 < len (scratch tr))), (decide (bytes_of tr (scratch tr) = [])) as [He|He];
        try done.
      * rewrite He in Hlen. simpl in Hlen. lia.
      * destruct (bytes_of tr (scratch tr)); [done|]. simpl in Hlen. lia.
    + destruct (fill_spec tr HrErr Hz Hinv) as (? & ? & ? & ? & ? & ? & ? & ?).
      by apply Hscan.
  - by apply Hscan.
Qed.

(** ** [Next], from the pending input *)

(** [Next] finds the row that ends at the first newline of the pending
    input. *)
Lemma Next_row tr line rest :
  err tr = None → HasCols tr = false → loop_inv tr →
  pending tr = line ++ newline :: rest → (newline ∉ line) →
  ∃ tr' c, Next tr = (true, tr') ∧
    rowBuf tr' = Some c ∧ b tr' = Some c ∧ bytes_of tr' c = line ∧
    pending tr' = rest ∧ loop_inv tr' ∧ len (scratch tr') = 0 ∧
    err tr' = None ∧ row tr' = int_incr (row tr) ∧ col tr' = 0%Z ∧
    sep tr' = sep tr.
Proof.
  intros Herr Hcols Hinv Hp Hnl. unfold Next.
  rewrite decide_False by (by rewrite Herr; intros []). rewrite Hcols.
  set (tr1 := set_rowBuf None _).
  destruct (Next_loop_total tr1) as [[ok tr'] Hres]. rewrite Hres.
  apply Next_loop_spec in Hres; [|done].
  change (pending tr1) with (pending tr) in Hres. rewrite Hp in Hres.
  unfold Next_post in Hres. rewrite IndexByte_here in Hres by done.
  simpl in Hres.
  destruct Hres as (? & ? & ? & -> & ? & (c & ? & ? & Hc) & Hp' & ? & ?).
  exists tr', c. rewrite take_app_length in Hc.
  rewrite <- Nat.add_1_r, drop_app_add' in Hp' by done. simpl in Hp'.
  rewrite drop_0 in Hp'.
  split_and!; try done. congruence.
Qed.

(** [Next] reports the end of a stream that holds no further newline. *)
Lemma Next_end tr :
  err tr = None → HasCols tr = false → loop_inv tr →
  (newline ∉ pending tr) →
  ∃ tr', Next tr = (false, tr') ∧
    err tr' = Some (if decide (pending tr = []) then EOF
                    else ErrNoNewline (int_incr (row tr)) (pending tr)).
Proof.
  intros Herr Hcols Hinv Hnl. unfold Next.
  rewrite decide_False by (by rewrite Herr; intros []). rewrite Hcols.
  set (tr1 := set_rowBuf None _).
  destruct (Next_loop_total tr1) as [[ok tr'] Hres]. rewrite Hres.
  apply Next_loop_spec in Hres; [|done].
  change (pending tr1) with (pending tr) in Hres.
  unfold Next_post in Hres. apply IndexByte_None in Hnl. rewrite Hnl in Hres.
  simpl in Hres. destruct Hres as (? & ? & ? & -> & ?).
  by exists tr'.
Qed.

(** ** Columns of a row without escapes *)

Lemma nextCol_join tr x cols :
  row tr ≠ 0%Z → cursor_at tr (x :: cols) → (sep tr ∉ x) →
  ∃ c b', nextCol tr = (inl (Some c), set_b b' (set_col (int_incr (col tr)) tr))
    ∧ bytes_of tr c = x
    ∧ cursor_at (set_b b' (set_col (int_incr (col tr)) tr)) cols.
Proof.
  intros Hrow (c & Hb & Hc) Hsep. unfold nextCol.
  rewrite decide_False by done. simpl. rewrite Hb.
  change (bytes_of (set_col _ tr) c) with (bytes_of tr c). rewrite Hc.
  destruct cols as [|y cols].
  - simpl. apply IndexByte_None in Hsep. rewrite Hsep.
    by exists c, None.
  - change (join (sep tr) (x :: y :: cols))
      with (x ++ sep tr :: join (sep tr) (y :: cols)) in *.
    rewrite IndexByte_here by done.
    pose proof (bytes_of_length_le tr c) as Hle.
    rewrite Hc, length_app in Hle. simpl in Hle.
    exists (sub c 0 (length x)), (Some (sfrom c (length x + 1))).
    split_and!; [done| |].
    + rewrite bytes_of_sub, Hc by lia.
      by rewrite Nat.sub_0_r, drop_0, take_app_length.
    + exists (sfrom c (length x + 1)). split; [done|].
      change (bytes_of (set_b _ _) ?s) with (bytes_of tr s).
      rewrite bytes_of_sfrom, Hc, drop_app_add' by done. simpl.
      by rewrite drop_0.
Qed.

Lemma Bytes_plain tr x cols :
  err tr = None → row tr ≠ 0%Z → cursor_at tr (x :: cols) →
  (sep tr ∉ x) → (backslash ∉ x) →
  ∃ c b', Bytes tr = (Some c, set_b b' (set_col (int_incr (col tr)) tr))
    ∧ bytes_of tr c = x
    ∧ cursor_at (set_b b' (set_col (int_incr (col tr)) tr)) cols.
Proof.
  intros Herr Hrow Hcur Hsep Hesc.
  destruct (nextCol_join tr x cols Hrow Hcur Hsep) as (c & b' & Hnext & Hc & Hcur').
  exists c, b'. split; [|done]. unfold Bytes.
  rewrite decide_False by (by rewrite Herr; intros []). rewrite Hnext.
  destruct (negb _); [done|]. simpl.
  change (bytes_of (set_b _ _) c) with (bytes_of tr c). rewrite Hc.
  apply IndexByte_None in Hesc. by rewrite Hesc.
Qed.

(** Reading all the columns of a row, with either accessor. *)
Lemma read_cols_plain tr cols :
  err tr = None → row tr ≠ 0%Z → cols ≠ [] → cursor_at tr cols →
  Forall (plain_col (sep tr)) cols →
  ∃ k,
    read_cols BytesValue (length cols) tr =
      (map Some cols, set_b None (set_col k tr)) ∧
    read_cols String' (length cols) tr = (cols, set_b None (set_col k tr)).
Proof.
  intros Herr Hrow Hne Hcur Hall.
  remember (sep tr) as s eqn:Hs. revert tr Hs Herr Hrow Hne Hcur.
  induction Hall as [|x cols (Hsep & _ & Hesc) Hall IH];
    intros tr -> Herr Hrow Hne Hcur; [done|].
  destruct (Bytes_plain tr x cols Herr Hrow Hcur Hsep Hesc)
    as (c & b' & HB & Hc & Hcur').
  set (tr1 := set_b b' _) in *.
  destruct cols as [|y cols].
  - exists (int_incr (col tr)). simpl in Hcur'. subst tr1.
    unfold BytesValue, String'. simpl. rewrite HB. simpl.
    change (bytes_of (set_b _ _) c) with (bytes_of tr c). rewrite Hc.
    simpl in Hcur'. by rewrite Hcur'.
  - destruct (IH tr1) as (k & HBs & HSs); try done.
    exists k. simpl in *. unfold BytesValue, String' in *. rewrite HB.
    simpl. change (bytes_of tr1 c) with (bytes_of tr c). rewrite Hc.
    destruct (Bytes tr1) as [c1 tr2].
    destruct (read_cols _ _ _) as [vs tr3] in HBs |- *.
    destruct (read_cols _ _ _) as [vs' tr3'] in HSs |- *.
    injection HBs as -> -> ->. injection HSs as -> -> ->. done.
Qed.

(** ** Whole inputs without escapes *)

Lemma int_incr_small z : (0 ≤ z < 2 ^ 63 - 1)%Z → int_incr z = (z + 1)%Z.
Proof.
  intros Hz. unfold int_incr, int_wrap.
  rewrite Z.mod_small by lia. lia.
Qed.

Lemma join_no_newline c cols :
  c ≠ newline → Forall (plain_col c) cols → newline ∉ join c cols.
Proof.
  intros Hc Hall. induction Hall as [|x cols (_ & Hx & _) Hall IH].
  - apply not_elem_of_nil.
  - destruct cols as [|y cols]; [done|].
    change (join c (x :: y :: cols)) with (x ++ c :: join c (y :: cols)).
    rewrite not_elem_of_app, not_elem_of_cons. done.
Qed.

Lemma read_rows_plain (rows : list (list bytes)) : ∀ tr,
  err tr = None → HasCols tr = false → loop_inv tr →
  sep tr ≠ newline → Forall (plain_row (sep tr)) rows →
  pending tr = encode (sep tr) rows →
  (0 ≤ row tr)%Z → (row tr + Z.of_nat (length rows) < 2 ^ 63)%Z →
  ∃ tr',
    read_rows BytesValue (map length rows) tr = (map (map Some) rows, tr') ∧
    read_rows String' (map length rows) tr = (rows, tr') ∧
    err tr' = None ∧ HasCols tr' = false ∧ loop_inv tr' ∧ pending tr' = [] ∧
    row tr' = (row tr + Z.of_nat (length rows))%Z.
Proof.
  induction rows as [|cols rows IH]; intros tr Herr Hcols Hinv Hsep Hall Hp Hr0 Hr1.
  - exists tr. simpl. split_and!; try done. lia.
  - apply Forall_cons in Hall as [[Hne Hplain] Hall].
    change (encode (sep tr) (cols :: rows))
      with ((join (sep tr) cols ++ [newline]) ++ encode (sep tr) rows) in Hp.
    rewrite <- (assoc (++)) in Hp. simpl in Hp.
    destruct (Next_row tr _ _ Herr Hcols Hinv Hp (join_no_newline _ _ Hsep Hplain))
      as (tr1 & c & HN & HrowBuf & Hb & Hc & Hp1 & Hinv1 & Hlen1 & Herr1 & Hrow1 & Hcol1 & Hsep1).
    simpl in Hr1. rewrite int_incr_small in Hrow1 by lia.
    assert (Hcur : cursor_at tr1 cols).
    { destruct cols; [done|]. exists c. by rewrite Hsep1. }
    destruct (read_cols_plain tr1 cols) as (k & HBs & HSs);
      try done; [lia | by rewrite Hsep1 |].
    set (tr2 := set_b None (set_col k tr1)) in *.
    destruct (IH tr2) as (tr' & HRB & HRS & ? & ? & ? & ? & Hrow'); try done.
    { unfold HasCols. simpl. by rewrite andb_false_r. }
    { by rewrite <- Hsep1 in Hsep. }
    { by rewrite <- Hsep1 in Hall. }
    { etrans; [apply Hp1|]. by rewrite <- Hsep1. }
    { change (row tr2) with (row tr1). lia. }
    { change (row tr2) with (row tr1). lia. }
    exists tr'. simpl. rewrite HN, HBs, HSs, HRB, HRS.
    split_and!; try done.
    change (row tr2) with (row tr1) in Hrow'. lia.
Qed.

(** ** The counters and the error across the loop of [Next] *)

Lemma fill_fields tr :
  err (fill tr) = err tr ∧ row (fill tr) = row tr ∧ col (fill tr) = col tr ∧
  sep (fill tr) = sep tr.
Proof. unfold fill. by destruct (Read _ _) as [[d e] s']. Qed.

Lemma stash_fields tr :
  err (stash tr) = err tr ∧ row (stash tr) = row tr ∧
  col (stash tr) = col tr ∧ sep (stash tr) = sep tr.
Proof. unfold stash, append. rsimpl. done. Qed.

Lemma take_row_fields tr n :
  IndexByte (view tr (rb tr)) newline = Some n →
  err (take_row n tr) = err tr ∧ row (take_row n tr) = row tr ∧
  col (take_row n tr) = col tr ∧ sep (take_row n tr) = sep tr ∧
  ∃ c, rowBuf (take_row n tr) = Some c ∧ b (take_row n tr) = Some c.
Proof.
  intros Hn. destruct (rb tr) as [s|] eqn:Hs; [|done].
  unfold take_row. rewrite Hs. cbn [fmap option_fmap option_map].
  destruct (decide _).
  - unfold append. rsimpl. split_and!; try done. by eexists.
  - simpl. split_and!; try done. by eexists.
Qed.

Lemma Next_pass_fields tr : pass_post tr (Next_pass tr).
Proof.
  unfold Next_pass.
  assert (Hscan : ∀ tr1,
    err tr1 = err tr ∧ row tr1 = row tr ∧ col tr1 = col tr ∧ sep tr1 = sep tr →
    pass_post tr
      match IndexByte (view tr1 (rb tr1)) newline with
      | Some n => inl (true, take_row n tr1)
      | None => inr (stash tr1)
      end).
  { intros tr1 (He & Hr & Hc & Hs).
    destruct (IndexByte _ _) as [n|] eqn:Hn.
    - destruct (take_row_fields tr1 n Hn) as (? & ? & ? & ? & ?).
      unfold pass_post. split_and!; congruence.
    - destruct (stash_fields tr1) as (? & ? & ? & ?).
      unfold pass_post. split_and!; congruence. }
  destruct (decide _) as [Hz|Hnz].
  - destruct (rErr tr) as [e|] eqn:HrErr.
    + simpl. split_and!; try done. by exists e.
    + apply Hscan, fill_fields.
  - by apply Hscan.
Qed.

Lemma terminal_error_not_unread tr e :
  not_unread (Some (terminal_error tr e)).
Proof.
  unfold terminal_error. destruct (decide (e ≠ EOF)) as [|He]; [done|].
  destruct (decide _); [done|].
  destruct (decide (e = EOF)) as [->|]; done.
Qed.

Lemma Next_loop_fields fuel tr ok tr' :
  Next_loop fuel tr = Some (ok, tr') →
  row tr' = row tr ∧ col tr' = col tr ∧ sep tr' = sep tr ∧
  if ok then err tr' = err tr ∧ ∃ c, rowBuf tr' = Some c ∧ b tr' = Some c
  else ∃ tr0 e, err tr' = Some (terminal_error tr0 e).
Proof.
  revert tr. induction fuel as [|fuel IH]; intros tr; [done|]. simpl.
  pose proof (Next_pass_fields tr) as Hp.
  destruct (Next_pass tr) as [[[] tr1]|tr1]; simpl in Hp.
  - intros [= <- <-]. destruct Hp as (? & ? & ? & ? & ?). done.
  - intros [= <- <-]. destruct Hp as (? & ? & ? & e & ?).
    split_and!; try done. by exists tr, e.
  - intros H. apply IH in H. destruct Hp as (<- & <- & <- & <-). done.
Qed.

(** ** A fresh reader *)

Lemma NewCustom_inv c s :
  ends_in_EOF s →
  let tr := NewCustom c s in
  err tr = None ∧ HasCols tr = false ∧ loop_inv tr ∧
  pending tr = stream_data s ∧ row tr = 0%Z ∧ sep tr = c.
Proof.
  intros Hs. split_and!; try reflexivity.
  unfold loop_inv, scratch_ok, clean. split_and!.
  - reflexivity.
  - apply Nat.le_refl.
  - exact Hs.
  - apply not_elem_of_nil.
  - exact I.
Qed.

(** ** Unescaping in place *)

Lemma unescape_byte_spec c : unescape_byte c = spec_escape c.
Proof. by destruct c. Qed.

Lemma spec_unescape_plain s : (backslash ∉ s) → spec_unescape s = s.
Proof.
  induction s as [|x s IH]; [done|]. intros H.
  apply not_elem_of_cons in H as [Hx Hs]. simpl.
  rewrite decide_False by done. by rewrite IH.
Qed.

Lemma spec_unescape_app s1 s2 :
  (backslash ∉ s1) → spec_unescape (s1 ++ s2) = s1 ++ spec_unescape s2.
Proof.
  induction s1 as [|x s1 IH]; [done|]. intros H.
  apply not_elem_of_cons in H as [Hx Hs].
  change ((x :: s1) ++ s2) with (x :: (s1 ++ s2)).
  change (spec_unescape (x :: (s1 ++ s2)))
    with (if decide (x = backslash)
          then match s1 ++ s2 with
               | [] => [x]
               | e :: s'' => spec_escape e :: spec_unescape s''
               end
          else x :: spec_unescape (s1 ++ s2)).
  rewrite decide_False by done. by rewrite IH.
Qed.

Lemma bytes_of_store_before tr a i x s :
  arr s = a → i < off s →
  bytes_of (set_mem a (<[i:=x]> (mem tr a)) tr) s = bytes_of tr s.
Proof.
  intros Ha Hlt. unfold bytes_of. rewrite Ha, mem_set_mem, decide_True by done.
  by rewrite drop_insert_lt.
Qed.

Lemma bytes_of_store_last tr d x D y :
  1 ≤ len d → off d + len d ≤ length (mem tr (arr d)) →
  bytes_of tr d = D ++ [y] →
  bytes_of (store_last tr d x) d = D ++ [x].
Proof.
  intros H1 Hok HD. unfold store_last, bytes_of in *.
  rewrite mem_set_mem, decide_True by done.
  rewrite drop_insert_ge by lia. rewrite take_insert_lt by lia.
  rewrite HD.
  assert (length D = len d - 1) as HlenD.
  { apply (f_equal length) in HD.
    rewrite length_take, length_drop, length_app in HD. simpl in HD. lia. }
  replace (off d + len d - 1 - off d) with (length D + 0) by lia.
  by rewrite insert_app_r.
Qed.

Lemma writes_below_refl a k tr : writes_below a k tr tr.
Proof. by unfold writes_below. Qed.

Lemma writes_below_trans a k tr1 tr2 tr3 :
  writes_below a k tr1 tr2 → writes_below a k tr2 tr3 →
  writes_below a k tr1 tr3.
Proof.
  unfold writes_below.
  intros (? & ? & Ho1 & ? & ? & ? & ? & ? & ? & ? & ? & ? & ? & ?)
         (? & ? & Ho2 & ? & ? & ? & ? & ? & ? & ? & ? & ? & ? & ?).
  split_and!; try congruence.
  intros a' Ha. rewrite Ho2, Ho1; done.
Qed.

Lemma writes_below_store tr d x k :
  off d + len d ≤ k → 1 ≤ len d →
  writes_below (arr d) k tr (store_last tr d x).
Proof.
  intros Hk H1. unfold writes_below, store_last. rsimpl.
  split_and!; try done.
  - by rewrite mem_set_mem, decide_True, length_insert.
  - rewrite mem_set_mem, decide_True by done. apply drop_insert_lt. lia.
  - intros a' Ha. by rewrite mem_set_mem, decide_False.
Qed.

Lemma writes_below_append tr d xs k tr' d' :
  append tr d xs = (tr', d') →
  off d + len d + length xs ≤ k → k ≤ length (mem tr (arr d)) →
  writes_below (arr d) k tr tr'.
Proof.
  intros [= <- <-] Hk Hlen. unfold writes_below. rsimpl.
  split_and!; try done.
  - rewrite mem_set_mem, decide_True by done. unfold write_at.
    rewrite !length_app, length_take, length_drop. lia.
  - rewrite mem_set_mem, decide_True by done. unfold write_at.
    rewrite (assoc (++)), drop_app_ge; rewrite length_app, length_take; [|lia].
    rewrite drop_drop. f_equal. lia.
  - intros a' Ha. by rewrite mem_set_mem, decide_False.
Qed.

Lemma writes_below_bytes a k tr tr' s :
  writes_below a k tr tr' → (arr s = a → k ≤ off s) →
  bytes_of tr' s = bytes_of tr s.
Proof.
  intros (_ & Hdrop & Hother & _) Hs. unfold bytes_of.
  destruct (decide (arr s = a)) as [Ha|Hne].
  - specialize (Hs Ha). subst a. f_equal.
    replace (off s) with (k + (off s - k)) by lia.
    by rewrite <- !drop_drop, Hdrop.
  - by rewrite Hother.
Qed.

(** The loop of [Bytes] computes [spec_unescape] and writes only inside the
    column. *)
Lemma unescape_loop_spec fuel : ∀ tr d c D tr' d',
  arr d = arr c → 1 ≤ len d → off d + len d ≤ off c →
  off c + len c ≤ length (mem tr (arr c)) → len c ≤ fuel →
  bytes_of tr d = D ++ [backslash] →
  unescape_loop fuel tr d c = (tr', d') →
  bytes_of tr' d' = D ++ spec_unescape (backslash :: bytes_of tr c) ∧
  writes_below (arr c) (off c + len c) tr tr'.
Proof.
  induction fuel as [|fuel IH]; intros tr d c D tr' d' Harr Hd1 Hdc Hok Hfuel HD.
  - simpl. intros [= <- <-].
    assert (bytes_of tr c = []) as ->.
    { unfold bytes_of. by replace (len c) with 0 by lia. }
    split; [done|apply writes_below_refl].
  - simpl. destruct (bytes_of tr c) as [|c0 C] eqn:HC.
    { intros [= <- <-]. split; [done|apply writes_below_refl]. }
    pose proof (bytes_of_length tr c Hok) as HlenC. rewrite HC in HlenC.
    simpl in HlenC.
    set (tr1 := store_last tr d (unescape_byte c0)).
    assert (W1 : writes_below (arr c) (off c + len c) tr tr1).
    { rewrite <- Harr. apply writes_below_store; [lia|done]. }
    assert (Hd : bytes_of tr1 d = D ++ [unescape_byte c0]).
    { eapply bytes_of_store_last; [done| |done]. rewrite Harr. lia. }
    assert (Hc1 : bytes_of tr1 (sfrom c 1) = C).
    { rewrite bytes_of_sfrom. unfold tr1, store_last.
      rewrite bytes_of_store_before; [by rewrite HC| done | lia]. }
    assert (Hlen1 : length (mem tr1 (arr c)) = length (mem tr (arr c)))
      by apply W1.
    rewrite Hc1.
    change (spec_unescape (backslash :: c0 :: C))
      with (spec_escape c0 :: spec_unescape C).
    rewrite <- unescape_byte_spec.
    destruct (IndexByte C backslash) as [n|] eqn:Hn.
    + apply IndexByte_Some in Hn as (HCeq & Hnin & Hlt).
      assert (Hpre : bytes_of tr1 (sub (sfrom c 1) 0 (n + 1)) =
                     take n C ++ [backslash]).
      { rewrite bytes_of_sub by (simpl; lia). rewrite Hc1.
        rewrite Nat.sub_0_r, drop_0. rewrite HCeq at 1.
        rewrite take_app_ge by (rewrite length_take; lia).
        rewrite length_take. replace (n + 1 - n `min` length C) with 1 by lia.
        done. }
      rewrite Hpre.
      destruct (append tr1 d (take n C ++ [backslash])) as [tr2 d2] eqn:Happ.
      assert (Hxs : length (take n C ++ [backslash]) = n + 1).
      { rewrite length_app, length_take. simpl. lia. }
      pose proof Happ as W2.
      apply writes_below_append with (k := off c + len c) in W2;
        [|rewrite Hxs; lia | rewrite Harr, Hlen1; lia].
      rewrite Harr in W2.
      pose proof Happ as W2'.
      apply writes_below_append with (k := off c + 1 + (n + 1)) in W2';
        [|rewrite Hxs; lia | rewrite Harr, Hlen1; lia].
      rewrite Harr in W2'.
      pose proof Happ as Hsp.
      apply append_spec in Hsp as (Hd2 & _); [|rewrite Harr, Hlen1; lia].
      unfold append in Happ. injection Happ as <- <-.
      intros Hloop.
      apply (IH _ _ _ (D ++ [unescape_byte c0] ++ take n C)) in Hloop.
      * destruct Hloop as [Hres W3]. split.
        -- rewrite Hres. rewrite <- !(assoc (++)). f_equal.
           change ([unescape_byte c0] ++ ?l) with (unescape_byte c0 :: l).
           f_equal.
           assert (HsC : spec_unescape C =
                         take n C ++ spec_unescape (backslash :: drop (S n) C)).
           { rewrite HCeq at 1. by apply spec_unescape_app. }
           rewrite HsC. do 3 f_equal.
           rewrite (writes_below_bytes _ _ _ _ _ W2') by (simpl; lia).
           rewrite bytes_of_sfrom, Hc1. by rewrite Nat.add_1_r.
        -- eapply writes_below_trans; [exact W1|].
           eapply writes_below_trans; [exact W2|].
           simpl in W3.
           replace (off c + 1 + (n + 1) + (len c - 1 - (n + 1)))
             with (off c + len c) in W3 by lia. done.
      * simpl. done.
      * simpl. lia.
      * simpl. rewrite Hxs. lia.
      * simpl. destruct W2 as [-> _]. rewrite Hlen1. lia.
      * simpl. lia.
      * rewrite Hd2, Hd. by rewrite <- !(assoc (++)).
    + intros Happ. pose proof Happ as W2.
      apply IndexByte_None in Hn.
      assert (length C = len c - 1) as HlenC' by lia.
      apply writes_below_append with (k := off c + len c) in W2;
        [|lia | rewrite Harr, Hlen1; lia].
      rewrite Harr in W2.
      apply append_spec in Happ as (Hd2 & _); [|rewrite Harr, Hlen1; lia].
      split.
      * rewrite Hd2, Hd, spec_unescape_plain by done.
        by rewrite <- (assoc (++)).
      * eapply writes_below_trans; [exact W1|exact W2].
Qed.

Lemma nextCol_state tr c tr1 :
  nextCol tr = (inl c, tr1) →
  ∃ b', tr1 = set_b b' (set_col (int_incr (col tr)) tr).
Proof.
  unfold nextCol. destruct (decide _); [done|]. simpl.
  destruct (b tr) as [s|]; [|done].
  destruct (IndexByte _ _); intros [= <- <-]; by eexists.
Qed.

(** With the gate [needUnescape] on, [Bytes] returns the column with its
    escape sequences decoded, and writes nowhere but inside the column. *)
Lemma Bytes_unescape tr c tr1 :
  err tr = None → nextCol tr = (inl (Some c), tr1) →
  needUnescape tr = true →
  off c + len c ≤ length (mem tr (arr c)) →
  ∃ d tr2, Bytes tr = (Some d, tr2) ∧
    bytes_of tr2 d = spec_unescape (bytes_of tr c) ∧
    writes_below (arr c) (off c + len c) tr1 tr2.
Proof.
  intros Herr Hnext Hgate Hok. unfold Bytes.
  rewrite decide_False by (by rewrite Herr; intros []). rewrite Hnext.
  destruct (nextCol_state _ _ _ Hnext) as [b' ->].
  change (needUnescape (set_b _ _)) with (needUnescape tr). rewrite Hgate.
  set (tr1 := set_b _ _).
  change (view tr1 (Some c)) with (bytes_of tr c).
  change (negb true) with false. cbv iota.
  destruct (IndexByte (bytes_of tr c) backslash) as [n|] eqn:Hn.
  - pose proof (IndexByte_Some _ _ _ Hn) as (HX & Hnin & Hlt).
    rewrite (bytes_of_length tr c Hok) in Hlt.
    destruct (unescape_loop _ _ _ _) as [tr2 d] eqn:Hloop.
    apply (unescape_loop_spec _ _ _ _ (take n (bytes_of tr c))) in Hloop.
    + destruct Hloop as [Hres W]. exists d, tr2. split_and!; [done| |].
      * rewrite Hres, bytes_of_sfrom.
        change (bytes_of tr1 c) with (bytes_of tr c).
        rewrite HX at 3. rewrite spec_unescape_app by done.
        by rewrite Nat.add_1_r.
      * simpl in W. by replace (off c + (n + 1) + (len c - (n + 1)))
          with (off c + len c) in W by lia.
    + done.
    + simpl. lia.
    + simpl. lia.
    + simpl. change (mem tr1 (arr c)) with (mem tr (arr c)). lia.
    + simpl. lia.
    + rewrite bytes_of_sub by lia. change (bytes_of tr1 c) with (bytes_of tr c).
      rewrite Nat.sub_0_r, drop_0. rewrite HX at 1.
      rewrite take_app_ge by (rewrite length_take; lia).
      rewrite length_take.
      replace (n + 1 - n `min` length (bytes_of tr c)) with 1; [done|].
      rewrite (bytes_of_length tr c Hok). lia.
  - exists c, tr1. split_and!; [done| |apply writes_below_refl].
    apply IndexByte_None in Hn. by rewrite spec_unescape_plain.
Qed.

(** * The claims of the specification *)

(** C1.  A row split over two reads is read like the same row in one read
    when it holds no escape marker ([ab] then [c], against [abc]).  With an
    escape sequence the two differ: the row [a\nb] read in one piece gives the
    column [a], line feed, [b]; split after the [n], the second refill holds
    no marker, [needUnescape] is false, and [Bytes] returns the four raw
    bytes. *)
Theorem split_row_escape_divergence :
  (run trace_ops (NewCSV [(bs "ab", None); (line_of "c", None)])).1 =
    (run trace_ops (NewCSV [(line_of "abc", None)])).1 ∧
  (run trace_ops (NewCSV escaped_whole)).1 =
    [ObsBool true; ObsBytes (Some [ "a"%byte; newline; "b"%byte ]);
     ObsBool false; ObsError None] ∧
  (run trace_ops (NewCSV escaped_split)).1 =
    [ObsBool true; ObsBytes (Some escaped_row);
     ObsBool false; ObsError None] ∧
  stream_data escaped_split = stream_data escaped_whole.
Proof. vm_compute. done. Qed.

(** C2.  An input of newline-terminated rows of separated columns, none
    holding the separator, a newline or the escape marker, delivered by a
    stream in any number of reads and closed by the end of the stream: reading
    every row and every column in order returns the columns as they were
    written, with [Bytes] and with [String], and then [Next] reports a clean
    end. *)
Theorem roundtrip_plain c (rows : list (list bytes)) s :
  c ≠ newline → Forall (plain_row c) rows →
  ends_in_EOF s → stream_data s = encode c rows →
  (Z.of_nat (length rows) < 2 ^ 63)%Z →
  ∃ tr' tr'',
    read_rows BytesValue (map length rows) (NewCustom c s) =
      (map (map Some) rows, tr') ∧
    read_rows String' (map length rows) (NewCustom c s) = (rows, tr') ∧
    Next tr' = (false, tr'') ∧ Error tr'' = None.
Proof.
  intros Hc Hall Hs Hdata Hlen.
  destruct (NewCustom_inv c s Hs) as (Herr & Hcols & Hinv & Hp & Hrow & Hsep).
  destruct (read_rows_plain rows (NewCustom c s))
    as (tr' & HB & HS & Herr' & Hcols' & Hinv' & Hp' & _);
    [exact Herr | exact Hcols | exact Hinv | by rewrite Hsep | by rewrite Hsep
    | by rewrite Hsep, Hp | by rewrite Hrow | rewrite Hrow; lia |].
  destruct (Next_end tr' Herr' Hcols' Hinv') as (tr'' & HN & He).
  { rewrite Hp'. apply not_elem_of_nil. }
  exists tr', tr''. split_and!; [exact HB | exact HS | exact HN |].
  rewrite decide_True in He by done. unfold Error.
  by rewrite He, decide_True.
Qed.

Lemma roundtrip_plain_witness :
  ∃ tr' tr'',
    read_rows BytesValue (map length sample_rows)
      (NewCustom ","%byte sample_stream) =
      (map (map Some) sample_rows, tr') ∧
    read_rows String' (map length sample_rows)
      (NewCustom ","%byte sample_stream) = (sample_rows, tr') ∧
    Next tr' = (false, tr'') ∧ Error tr'' = None.
Proof.
  apply (roundtrip_plain ","%byte sample_rows sample_stream).
  - discriminate.
  - repeat apply Forall_cons_2; try apply Forall_nil_2;
      (split; [discriminate|]);
      repeat apply Forall_cons_2; try apply Forall_nil_2;
      split_and!; vm_compute; absent.
  - reflexivity.
  - reflexivity.
  - reflexivity.
Defined.

(** C3.  On the row [1,x\ty], read in two pieces with the cut between the
    marker and the [t], the second column holds the marker but [Bytes] returns
    it raw: the last refill held no marker, so [needUnescape] is false.  The
    decoded column would be [x], tab, [y].  ([Bytes_unescape] above is the
    decoding when the gate is on.) *)
Theorem Bytes_raw_on_split_row :
  let tr := (Next (NewCSV tab_split)).2 in
  view tr (b tr) = bs "1," ++ tab_column ∧ needUnescape tr = false ∧
  (BytesValue (SkipCol tr)).1 = Some tab_column ∧
  spec_unescape tab_column = [ "x"%byte; x09; "y"%byte ].
Proof. vm_compute. done. Qed.

(** C4.  The stream ends, and what is pending (the staged bytes, the rest of
    the read buffer, what the stream still delivers) holds no newline: [Next]
    returns false; [Error] reports the truncated row when bytes are pending
    and no error when none are.  With an empty read buffer and the end of
    the stream already seen, the pending bytes are those of [scratch]. *)
Theorem end_of_stream tr :
  err tr = None → HasCols tr = false → loop_inv tr →
  (newline ∉ pending tr) →
  ∃ tr', Next tr = (false, tr') ∧
    (pending tr = [] → err tr' = Some EOF ∧ Error tr' = None) ∧
    (pending tr ≠ [] →
       Error tr' = Some (ErrNoNewline (int_incr (row tr)) (pending tr))) ∧
    (slen (rb tr) = 0 → rErr tr = Some EOF →
       pending tr = bytes_of tr (scratch tr)).
Proof.
  intros Herr Hcols Hinv Hnl.
  destruct (Next_end tr Herr Hcols Hinv Hnl) as (tr' & HN & He).
  exists tr'. split_and!; [done| | |].
  - intros Hp. rewrite decide_True in He by done. split; [done|].
    unfold Error. by rewrite He, decide_True.
  - intros Hp. rewrite decide_False in He by done.
    unfold Error. by rewrite He, decide_False.
  - intros Hrb HrErr. unfold pending.
    by rewrite HrErr, view_empty, !app_nil_r.
Qed.

Lemma end_of_stream_witness :
  ∃ tr', Next (NewCSV [(bs "a,b", None)]) = (false, tr') ∧
    Error tr' = Some (ErrNoNewline 1 (bs "a,b")).
Proof.
  pose (tr := NewCSV [(bs "a,b", None)]).
  destruct (NewCustom_inv ","%byte [(bs "a,b", None)] I)
    as (Herr & Hcols & Hinv & Hp & _).
  assert (Hnl : newline ∉ pending tr).
  { unfold tr, NewCSV. rewrite Hp. vm_compute. absent. }
  destruct (end_of_stream tr Herr Hcols Hinv Hnl) as (tr' & HN & _ & Hne & _).
  exists tr'. split; [exact HN|].
  unfold tr, NewCSV in Hne. rewrite Hp in Hne. apply Hne. discriminate.
Defined.

(** C5.  With the error set, [Next], [SkipCol], [Bytes], [String] and every
    typed decoder return their zero value and leave the reader as it is, the
    error included; [ResetError] clears the error. *)
Theorem sticky_error_noop tr :
  err tr ≠ None →
  Next tr = (false, tr) ∧ SkipCol tr = tr ∧
  Bytes tr = (None, tr) ∧ String' tr = ([], tr) ∧
  Int tr = (0%Z, tr) ∧ Uint tr = (0%Z, tr) ∧
  Int8 tr = (0%Z, tr) ∧ Uint8 tr = (0%Z, tr) ∧
  Int16 tr = (0%Z, tr) ∧ Uint16 tr = (0%Z, tr) ∧
  Int32 tr = (0%Z, tr) ∧ Uint32 tr = (0%Z, tr) ∧
  Int64 tr = (0%Z, tr) ∧ Uint64 tr = (0%Z, tr) ∧
  (∀ (f64 f32 : Type) (z64 : f64) (z32 : f32) parse conv,
     Float32 f64 f32 z32 parse conv tr = (z32, tr) ∧
     Float64 f64 z64 parse tr = (z64, tr)) ∧
  Date tr = (zeroTime, tr) ∧ DateTime tr = (zeroTime, tr) ∧
  err (ResetError tr) = None.
Proof.
  intros Herr.
  unfold Next, SkipCol, String', Bytes, Int, Uint, Int8, Uint8, Int16, Uint16,
    Int32, Uint32, Int64, Uint64, Float32, Float64, Date, DateTime.
  rewrite !decide_True by done. split_and!; try done.
  intros. by rewrite !decide_True.
Qed.

Lemma sticky_error_noop_witness :
  err sticky_reader ≠ None ∧ Next sticky_reader = (false, sticky_reader) ∧
  Uint8 sticky_reader = (0%Z, sticky_reader).
Proof.
  assert (H : err sticky_reader ≠ None) by (vm_compute; discriminate).
  pose proof (sticky_error_noop sticky_reader H) as P.
  split; [exact H|]. split; [apply P|]. apply P.
Defined.

(** C6, amended.  A call of [nextCol] increments [col] when a row has been
    read ([row] is not 0), the failing call on an exhausted cursor included;
    before the first [Next] it fails and leaves [col] as it is. *)
Theorem nextCol_col tr :
  col (nextCol tr).2 =
    (if decide (row tr = 0%Z) then col tr else int_incr (col tr)) ∧
  (if decide (row tr = 0%Z)
   then nextCol tr = (inr (ErrText "missing Next call"), tr)
   else if decide (b tr = None)
   then nextCol tr = (inr (ErrText "no more columns"),
                      set_col (int_incr (col tr)) tr)
   else ∃ c, (nextCol tr).1 = inl c).
Proof.
  unfold nextCol. destruct (decide (row tr = 0%Z)) as [Hz|Hnz]; [done|].
  simpl. destruct (b tr) as [c|] eqn:Hb.
  - rewrite decide_False by done.
    destruct (IndexByte _ _); split; try done; by eexists.
  - by rewrite decide_True.
Qed.

(** C6 as stated fails: on a reader that has read no row, [nextCol] fails
    with the missing-[Next] error and [col] stays 0. *)
Lemma nextCol_before_Next_keeps_col :
  nextCol (NewCSV []) = (inr (ErrText "missing Next call"), NewCSV []) ∧
  col (nextCol (NewCSV [])).2 = 0%Z ∧
  col (nextCol (NewCSV [])).2 ≠ int_incr (col (NewCSV [])).
Proof. vm_compute. split_and!; [reflexivity | reflexivity | discriminate]. Qed.

(** C7.  [parseDate] rejects the separators only when both are wrong: a
    ten-byte input with a dash at one of the offsets 4 and 7 and another byte
    at the other is accepted, and [Date] decodes it without error. *)
Theorem parseDate_accepts_one_bad_dash :
  parseDate (bs "2024x01-15") = (2024, 1, 15, None)%Z ∧
  parseDate (bs "2024-01x15") = (2024, 1, 15, None)%Z ∧
  parseDate (bs "2024x01x15") =
    (0, 0, 0, Some (ErrText "invalid date format. Must be YYYY-MM-DD"))%Z ∧
  (let tr := (Next (NewCSV [(line_of "2024x01-15", None)])).2 in
   (Date tr).1 = DateUTC 2024 1 15 0 0 0 ∧ Error (Date tr).2 = None).
Proof. vm_compute. done. Qed.







(** C10.  After [Next] has advanced to an empty row, [HasCols] is false and
    the next [Next] does not raise the unread-columns error; yet [Bytes]
    succeeds once with the empty column, and fails the second time with
    "no more columns". *)
Theorem empty_row tr tr1 :
  (0 ≤ row tr < 2 ^ 63)%Z →
  Next tr = (true, tr1) → slen (rowBuf tr1) = 0 →
  HasCols tr1 = false ∧
  not_unread (err (Next tr1).2) ∧
  ∃ c tr2,
    Bytes tr1 = (Some c, tr2) ∧ bytes_of tr2 c = [] ∧ err tr2 = None ∧
    Bytes tr2 =
      (None, setColError "cannot read `bytes`" (ErrText "no more columns")
               (set_col (int_incr (col tr2)) tr2)).
Proof.
  intros Hrow HN Hlen.
  assert (Hpost : err tr1 = None ∧ row tr1 = int_incr (row tr) ∧
                  ∃ c, rowBuf tr1 = Some c ∧ b tr1 = Some c).
  { revert HN. unfold Next.
    destruct (decide (err tr ≠ None)) as [|Herr]; [done|].
    destruct (HasCols tr); [done|].
    destruct (Next_loop _ _) as [[ok tr']|] eqn:HL; [|done].
    intros [= -> ->]. apply Next_loop_fields in HL as (Hr & _ & _ & He & ?).
    simpl in *. split_and!; try done.
    rewrite He. by destruct (err tr) as [e|]; [destruct Herr|]. }
  destruct Hpost as (Herr1 & Hrow1 & c & HrowBuf & Hb).
  rewrite HrowBuf in Hlen. simpl in Hlen.
  assert (Hrow0 : row tr1 ≠ 0%Z).
  { rewrite Hrow1. unfold int_incr, int_wrap.
    destruct (decide (row tr = 2 ^ 63 - 1)%Z) as [->|]; [done|].
    rewrite Z.mod_small by lia. lia. }
  assert (Hc : ∀ tr', bytes_of tr' c = []).
  { intros tr'. unfold bytes_of. by rewrite Hlen. }
  assert (HcolsF : HasCols tr1 = false).
  { unfold HasCols. rewrite HrowBuf. simpl. rewrite Hlen. done. }
  split_and!.
  - done.
  - unfold Next. rewrite decide_False by (by rewrite Herr1; intros []).
    rewrite HcolsF.
    destruct (Next_loop _ _) as [[ok tr']|] eqn:HL;
      [|by simpl; rewrite Herr1].
    apply Next_loop_fields in HL as (_ & _ & _ & He). simpl in *.
    destruct ok.
    + destruct He as [-> _]. by rewrite Herr1.
    + destruct He as (tr0 & e & ->). apply terminal_error_not_unread.
  - assert (HB1 : Bytes tr1 =
      (Some c, set_b None (set_col (int_incr (col tr1)) tr1))).
    { unfold Bytes. rewrite decide_False by (by rewrite Herr1; intros []).
      unfold nextCol. rewrite decide_False by done. simpl. rewrite Hb, Hc.
      simpl. destruct (negb _); [done|]. simpl. by rewrite Hc. }
    eexists c, _. split_and!; [exact HB1|apply Hc|done|].
    unfold Bytes. simpl. rewrite decide_False by (by rewrite Herr1; intros []).
    unfold nextCol. simpl. rewrite decide_False by done. done.
Qed.

Lemma empty_row_witness :
  HasCols (Next empty_row_reader).2 = false ∧
  not_unread (err (Next (Next empty_row_reader).2).2) ∧
  ∃ c tr2,
    Bytes (Next empty_row_reader).2 = (Some c, tr2) ∧ bytes_of tr2 c = [] ∧
    err tr2 = None ∧
    Bytes tr2 =
      (None, setColError "cannot read `bytes`" (ErrText "no more columns")
               (set_col (int_incr (col tr2)) tr2)).
Proof.
  apply (empty_row empty_row_reader (Next empty_row_reader).2).
  - vm_compute. split; [discriminate | reflexivity].
  - vm_compute. reflexivity.
  - vm_compute. reflexivity.
Defined.

(** * Further properties of the code *)

(** ** [Next] on failing streams and on misuse *)

(** X1.  [Next] returns true on a new row only, with no error, the row counter
    one up and the column counter at zero; when it returns false an error is
    set. *)
Theorem Next_outcome tr :
  if (Next tr).1
  then err tr = None ∧ err (Next tr).2 = None ∧
       row (Next tr).2 = int_incr (row tr) ∧ col (Next tr).2 = 0%Z ∧
       ∃ c, rowBuf (Next tr).2 = Some c ∧ b (Next tr).2 = Some c
  else err (Next tr).2 ≠ None.
Proof.
  unfold Next. destruct (decide (err tr ≠ None)) as [Herr|Herr]; [done|].
  destruct (HasCols tr); [done|].
  set (tr1 := set_rowBuf None (set_col 0 (set_row (int_incr (row tr)) tr))).
  destruct (Next_loop_total tr1) as [[ok tr'] Hloop]. rewrite Hloop.
  apply Next_loop_fields in Hloop as (Hrow & Hcol & _ & H).
  destruct ok; simpl.
  - destruct H as [Herr' Hc]. split_and!; try done.
    + by destruct (err tr) eqn:E; [exfalso; apply Herr|].
    + rewrite Herr'. simpl. by destruct (err tr) eqn:E; [exfalso; apply Herr|].
  - destruct H as (tr0 & e & ->). done.
Qed.

Lemma Read_error s d e s' :
  Read s rBufSize = (d, e, s') →
  stream_error s = match e with Some e => e | None => stream_error s' end.
Proof.
  destruct s as [|[d0 e0] s0]; simpl.
  - by intros [= <- <- <-].
  - destruct (decide _); intros [= <- <- <-]; by destruct e0.
Qed.

Lemma fill_read tr d e s' :
  Read (r tr) rBufSize = (d, e, s') →
  view (fill tr) (rb (fill tr)) = d ∧ r (fill tr) = s' ∧
  rErr (fill tr) = e ∧ rowBuf (fill tr) = rowBuf tr ∧
  row (fill tr) = row tr.
Proof.
  intros HR. unfold fill. rewrite HR. simpl. split_and!; try done.
  unfold bytes_of, write_at. simpl.
  by rewrite drop_0, take_app_length.
Qed.

Lemma stash_read tr :
  rb (stash tr) = None ∧ r (stash tr) = r tr ∧ rErr (stash tr) = rErr tr ∧
  rowBuf (stash tr) = rowBuf tr ∧ row (stash tr) = row tr.
Proof. unfold stash, append. by rsimpl. Qed.

(** The loop of [Next] on a stream that fails before it delivers a newline. *)
Lemma Next_loop_fails fuel : ∀ tr res e,
  Next_loop fuel tr = Some res →
  final_error tr = e → e ≠ EOF → (newline ∉ unread tr) →
  rowBuf tr = None →
  res.1 = false ∧ err res.2 = Some (ErrReadRow (row tr) e) ∧
  slen (rb res.2) = 0 ∧ rErr res.2 = Some e ∧ rowBuf res.2 = None ∧
  row res.2 = row tr.
Proof.
  induction fuel as [|fuel IH]; intros tr res e; [done|].
  intros Hloop Hfin He Hnl Hrow. simpl in Hloop.
  assert (Hscan : ∀ tr1, (newline ∉ unread tr1) →
            IndexByte (view tr1 (rb tr1)) newline = None).
  { intros tr1 H. apply IndexByte_None. intros Hin. apply H.
    unfold unread. apply elem_of_app. by left. }
  assert (Hstash : ∀ tr1, final_error tr1 = e → (newline ∉ unread tr1) →
            rowBuf tr1 = None → row tr1 = row tr →
            Next_loop fuel (stash tr1) = Some res →
            res.1 = false ∧ err res.2 = Some (ErrReadRow (row tr) e) ∧
            slen (rb res.2) = 0 ∧ rErr res.2 = Some e ∧ rowBuf res.2 = None ∧
            row res.2 = row tr).
  { intros tr1 Hfin1 Hnl1 Hrow1 Hr1 Hl.
    destruct (stash_read tr1) as (Hrb & Hr & HrE & HrB & Hro).
    rewrite <- Hr1, <- Hro. apply (IH (stash tr1) res e Hl); try done.
    - unfold final_error. by rewrite HrE, Hr.
    - unfold unread. rewrite Hrb, HrE, Hr. simpl.
      intros Hin. apply Hnl1. unfold unread. apply elem_of_app. by right.
    - by rewrite HrB. }
  unfold Next_pass in Hloop.
  destruct (decide (slen (rb tr) = 0)) as [Hempty|Hfull].
  - destruct (rErr tr) as [e0|] eqn:HrErr.
    + injection Hloop as <-. simpl.
      unfold final_error in Hfin. rewrite HrErr in Hfin. subst e0.
      unfold terminal_error. rewrite decide_True by done. done.
    + destruct (Read (r tr) rBufSize) as [[d e'] s'] eqn:HR.
      destruct (fill_read tr d e' s' HR) as (Hv & Hr & HrE & HrB & Hro).
      pose proof (Read_error _ _ _ _ HR) as Herr.
      pose proof (Read_data _ _ _ _ HR) as [Hdata _].
      assert (Hfin' : final_error (fill tr) = e).
      { unfold final_error in *. rewrite HrErr in Hfin.
        rewrite HrE, Hr. by rewrite <- Hfin, Herr. }
      assert (Hnl' : newline ∉ unread (fill tr)).
      { unfold unread in *. rewrite Hv, HrE, Hr.
        rewrite HrErr, Hdata in Hnl. intros Hin. apply Hnl.
        apply elem_of_app. by right. }
      rewrite (Hscan _ Hnl') in Hloop.
      apply (Hstash (fill tr)); try done. by rewrite HrB.
  - rewrite (Hscan _ Hnl) in Hloop. by apply (Hstash tr).
Qed.

(** X2.  A stream that fails with an error other than [EOF] before it delivers
    a newline: [Next] reports the error of the stream with the number of the
    row, whatever it has read of the row, and reports it again after
    [ResetError]. *)
Theorem Next_read_error tr e :
  err tr = None → HasCols tr = false →
  final_error tr = e → e ≠ EOF → (newline ∉ unread tr) →
  ∃ tr', Next tr = (false, tr') ∧
    Error tr' = Some (ErrReadRow (int_incr (row tr)) e) ∧
    ∃ tr'', Next (ResetError tr') = (false, tr'') ∧
      Error tr'' = Some (ErrReadRow (int_incr (int_incr (row tr))) e).
Proof.
  assert (Hone : ∀ tr, err tr = None → HasCols tr = false →
            final_error tr = e → e ≠ EOF → (newline ∉ unread tr) →
            ∃ tr', Next tr = (false, tr') ∧
              err tr' = Some (ErrReadRow (int_incr (row tr)) e) ∧
              slen (rb tr') = 0 ∧ rErr tr' = Some e ∧ rowBuf tr' = None ∧
              row tr' = int_incr (row tr)).
  { clear tr. intros tr Herr Hcols Hfin He Hnl. unfold Next.
    rewrite decide_False by (by rewrite Herr; intros []). rewrite Hcols.
    set (tr1 := set_rowBuf None (set_col 0 (set_row (int_incr (row tr)) tr))).
    destruct (Next_loop_total tr1) as [[ok tr'] Hloop]. rewrite Hloop.
    destruct (Next_loop_fails _ tr1 (ok, tr') e Hloop) as (Hok & H); try done.
    simpl in Hok. subst ok. by exists tr'. }
  intros Herr Hcols Hfin He Hnl.
  destruct (Hone tr Herr Hcols Hfin He Hnl)
    as (tr' & HN & Herr' & Hrb & HrE & HrB & Hro).
  assert (Herror : ∀ tr0 n, err tr0 = Some (ErrReadRow n e) →
            Error tr0 = Some (ErrReadRow n e)).
  { intros tr0 n H. unfold Error. rewrite H. by rewrite decide_False. }
  exists tr'. split_and!; [done|by apply Herror|].
  destruct (Hone (ResetError tr')) as (tr'' & HN' & Herr'' & _); try done.
  - unfold HasCols. simpl. by rewrite HrB.
  - unfold final_error. simpl. by rewrite HrE.
  - unfold unread. simpl. rewrite HrE, app_nil_r.
    change (view (ResetError tr') (rb tr')) with (view tr' (rb tr')).
    rewrite view_empty by done. apply not_elem_of_nil.
  - exists tr''. split; [done|]. apply Herror.
    change (row (ResetError tr')) with (row tr') in Herr''.
    by rewrite Hro in Herr''.
Qed.

(** On a stream that breaks inside its second row. *)
Lemma Next_read_error_witness :
  ∃ tr1 tr2 tr3,
    Next (NewCSV broken_stream) = (true, tr1) ∧
    Next (SkipCol (SkipCol tr1)) = (false, tr2) ∧
    Error tr2 = Some (ErrReadRow 2 (ErrStream "connection reset")) ∧
    Next (ResetError tr2) = (false, tr3) ∧
    Error tr3 = Some (ErrReadRow 3 (ErrStream "connection reset")).
Proof.
  pose (tr := SkipCol (SkipCol (Next (NewCSV broken_stream)).2)).
  destruct (Next_read_error tr (ErrStream "connection reset"))
    as (tr2 & HN & HE & tr3 & HN' & HE').
  - vm_compute. reflexivity.
  - vm_compute. reflexivity.
  - vm_compute. reflexivity.
  - discriminate.
  - vm_compute. absent.
  - exists (Next (NewCSV broken_stream)).2, tr2, tr3.
    split; [vm_compute; reflexivity|].
    split; [exact HN|]. split; [exact HE|]. split; [exact HN'|exact HE'].
Defined.

(** X3.  [Next] on a row with unread columns changes nothing but the error:
    after [ResetError] the reader is as it was, and the columns can still be
    read. *)
Theorem Next_unread_columns tr :
  err tr = None → HasCols tr = true →
  Next tr = (false, set_err (Some (ErrUnreadCols (row tr) (view tr (rowBuf tr))
                                                 (view tr (b tr)))) tr) ∧
  ResetError (Next tr).2 = tr.
Proof.
  intros Herr Hcols. unfold Next.
  rewrite decide_False by (by rewrite Herr; intros []). rewrite Hcols.
  split; [done|]. destruct tr. simpl in *. by subst.
Qed.

(** On the row [255], before its column is read. *)
Lemma Next_unread_columns_witness :
  (Next uint8_reader).1 = false ∧
  ResetError (Next uint8_reader).2 = uint8_reader.
Proof.
  destruct (Next_unread_columns uint8_reader) as (HN & HR).
  - vm_compute. reflexivity.
  - vm_compute. reflexivity.
  - split; [|exact HR]. rewrite HN. reflexivity.
Defined.

(** ** Lines and fields *)

Lemma fields_ne c s : fields c s ≠ [].
Proof.
  destruct s as [|x s]; simpl; [done|].
  destruct (decide _); [done|]. by destruct (fields c s).
Qed.

Lemma fields_nosep c x : (c ∉ x) → fields c x = [x].
Proof.
  induction x as [|y x IH]; intros H; simpl; [done|].
  apply not_elem_of_cons in H as [Hy Hx].
  rewrite decide_False by done. by rewrite IH.
Qed.

Lemma fields_app c x rest :
  (c ∉ x) → fields c (x ++ c :: rest) = x :: fields c rest.
Proof.
  induction x as [|y x IH]; intros H; simpl.
  - by rewrite decide_True.
  - apply not_elem_of_cons in H as [Hy Hx].
    rewrite decide_False by done. by rewrite IH.
Qed.

Lemma join_fields c s : join c (fields c s) = s.
Proof.
  induction s as [|x s IH]; simpl; [done|].
  destruct (decide (x = c)) as [->|Hx].
  - pose proof (fields_ne c s). destruct (fields c s) as [|f fs] eqn:E; [done|].
    change (join c ([] :: f :: fs)) with ([] ++ c :: join c (f :: fs)).
    by rewrite IH.
  - destruct (fields c s) as [|f fs] eqn:E; [by destruct (fields_ne c s)|].
    destruct fs as [|g fs].
    + simpl in *. by rewrite IH.
    + change (join c ((x :: f) :: g :: fs))
        with (x :: (f ++ c :: join c (g :: fs))).
      change (join c (f :: g :: fs)) with (f ++ c :: join c (g :: fs)) in IH.
      by rewrite IH.
Qed.

Lemma fields_nosep_all c s : Forall (λ x, c ∉ x) (fields c s).
Proof.
  induction s as [|x s IH]; simpl.
  - apply Forall_cons. split; [apply not_elem_of_nil|done].
  - destruct (decide (x = c)) as [->|Hx].
    + apply Forall_cons. split; [apply not_elem_of_nil|done].
    + destruct (fields c s) as [|f fs] eqn:E; [by destruct (fields_ne c s)|].
      apply Forall_cons in IH as [Hf Hfs]. apply Forall_cons. split; [|done].
      by apply not_elem_of_cons.
Qed.

Lemma fields_absent c d s : (d ∉ s) → Forall (λ x, d ∉ x) (fields c s).
Proof.
  induction s as [|x s IH]; simpl; intros H.
  - apply Forall_cons. split; [apply not_elem_of_nil|done].
  - apply not_elem_of_cons in H as [Hx Hs]. specialize (IH Hs).
    destruct (decide (x = c)) as [->|Hxc].
    + apply Forall_cons. split; [apply not_elem_of_nil|done].
    + destruct (fields c s) as [|f fs].
      * apply Forall_cons. split; [|done].
        apply not_elem_of_cons. split; [done|apply not_elem_of_nil].
      * apply Forall_cons in IH as [Hf Hfs]. apply Forall_cons. split; [|done].
        by apply not_elem_of_cons.
Qed.

Lemma lines_cons s l ls t :
  lines s = (l :: ls, t) →
  ∃ rest, s = l ++ newline :: rest ∧ (newline ∉ l) ∧ lines rest = (ls, t).
Proof.
  revert l ls. induction s as [|x s IH]; intros l ls; simpl; [done|].
  destruct (lines s) as [ls0 t0] eqn:E.
  destruct (decide (x = newline)) as [->|Hx].
  - intros [= <- <- <-]. exists s. split_and!; [done|apply not_elem_of_nil|done].
  - destruct ls0 as [|l0 ls0]; [done|]. intros [= <- <- <-].
    destruct (IH l0 ls0 eq_refl) as (rest & -> & Hl0 & Hrest).
    exists rest. split_and!; [done| |done]. by apply not_elem_of_cons.
Qed.

Lemma lines_nil s t : lines s = ([], t) → s = t ∧ (newline ∉ t).
Proof.
  revert t. induction s as [|x s IH]; intros t; simpl.
  - intros [= <-]. split; [done|apply not_elem_of_nil].
  - destruct (lines s) as [ls0 t0] eqn:E.
    destruct (decide (x = newline)) as [->|Hx]; [done|].
    destruct ls0 as [|l0 ls0]; [|done]. intros [= <-].
    destruct (IH t0 eq_refl) as [-> Ht]. split; [done|].
    by apply not_elem_of_cons.
Qed.

Lemma lines_absent d s ls t :
  lines s = (ls, t) → (d ∉ s) → Forall (λ l, d ∉ l) ls.
Proof.
  revert s t. induction ls as [|l ls IH]; intros s t Hs Hd; [done|].
  apply lines_cons in Hs as (rest & -> & _ & Hrest).
  apply not_elem_of_app in Hd as [Hl Hd].
  apply not_elem_of_cons in Hd as [_ Hd].
  apply Forall_cons. split; [done|]. by apply (IH rest t).
Qed.

Lemma lines_length s ls t : lines s = (ls, t) → length ls ≤ length s.
Proof.
  revert s. induction ls as [|l ls IH]; intros s Hs; simpl; [lia|].
  apply lines_cons in Hs as (rest & -> & _ & Hrest).
  apply IH in Hrest. rewrite length_app. simpl. lia.
Qed.

Lemma lines_row_length s ls t :
  lines s = (ls, t) → Forall (λ l, length l ≤ length s) ls.
Proof.
  revert s. induction ls as [|l ls IH]; intros s Hs; [done|].
  apply lines_cons in Hs as (rest & -> & _ & Hrest).
  apply Forall_cons. rewrite length_app. split; [lia|].
  apply IH in Hrest. eapply Forall_impl; [done|]. simpl. intros; lia.
Qed.

Lemma fields_length c s : length (fields c s) ≤ S (length s).
Proof.
  induction s as [|x s IH]; simpl; [lia|].
  destruct (decide _); simpl; [lia|].
  destruct (fields c s); simpl in *; lia.
Qed.

(** ** The columns of a row, read until [HasCols] is false *)

Lemma writes_below_le a k k' tr tr' :
  k ≤ k' → writes_below a k tr tr' → writes_below a k' tr tr'.
Proof.
  intros Hk (Hlen & Hdrop & H). split; [done|]. split; [|done].
  replace k' with (k + (k' - k)) by lia.
  by rewrite <- !drop_drop, Hdrop.
Qed.

Lemma writes_below_cursor a k tr tr' bb cc :
  writes_below a k tr tr' →
  writes_below a k (set_b bb (set_col cc tr)) (set_b bb (set_col cc tr')).
Proof.
  intros (Hlen & Hdrop & Hmem & H). unfold writes_below.
  split_and!; try done; by destruct H as (?&?&?&?&?&?&?&?&?&?&?).
Qed.

Lemma row_frame_fields a k tr tr' :
  row_frame a k tr tr' →
  r tr' = r tr ∧ rb tr' = rb tr ∧ rErr tr' = rErr tr ∧ row tr' = row tr ∧
  rowBuf tr' = rowBuf tr ∧ scratch tr' = scratch tr ∧ err tr' = err tr ∧
  sep tr' = sep tr ∧ needUnescape tr' = needUnescape tr ∧
  length (mem tr' a) = length (mem tr a) ∧
  (∀ a', a' ≠ a → mem tr' a' = mem tr a') ∧
  (∀ s, (arr s = a → k ≤ off s) → bytes_of tr' s = bytes_of tr s).
Proof.
  intros H. pose proof H as (Hlen & Hdrop & Hmem & ?&?&?&?&?&?&?&?&?&?&?).
  split_and!; try done.
  intros s Hs. by rewrite (writes_below_bytes _ _ _ _ s H Hs).
Qed.

(** The column under the cursor and the cursor after it, as slices. *)
Lemma nextCol_at tr cur x cols :
  row tr ≠ 0%Z → b tr = Some cur →
  bytes_of tr cur = join (sep tr) (x :: cols) → (sep tr ∉ x) →
  ∃ c b',
    nextCol tr = (inl (Some c), set_b b' (set_col (int_incr (col tr)) tr)) ∧
    bytes_of tr c = x ∧ arr c = arr cur ∧
    off c + len c ≤ off cur + len cur ∧
    match cols with
    | [] => b' = None
    | _ => ∃ cur', b' = Some cur' ∧ arr cur' = arr cur ∧
             off c + len c ≤ off cur' ∧
             off cur' + len cur' = off cur + len cur ∧
             bytes_of tr cur' = join (sep tr) cols
    end.
Proof.
  intros Hrow Hb Hc Hsep. unfold nextCol.
  rewrite decide_False by done. simpl. rewrite Hb.
  change (bytes_of (set_col _ tr) cur) with (bytes_of tr cur). rewrite Hc.
  destruct cols as [|y cols].
  - simpl. apply IndexByte_None in Hsep. rewrite Hsep.
    exists cur, None. split_and!; try done.
  - change (join (sep tr) (x :: y :: cols))
      with (x ++ sep tr :: join (sep tr) (y :: cols)) in *.
    rewrite IndexByte_here by done.
    pose proof (bytes_of_length_le tr cur) as Hle.
    rewrite Hc, length_app in Hle. simpl in Hle.
    exists (sub cur 0 (length x)), (Some (sfrom cur (length x + 1))).
    split_and!; [done| |done|simpl; lia|].
    + rewrite bytes_of_sub, Hc by lia.
      by rewrite Nat.sub_0_r, drop_0, take_app_length.
    + exists (sfrom cur (length x + 1)). split_and!; [done|done|simpl; lia| |].
      * unfold sfrom, sub. simpl. lia.
      * rewrite bytes_of_sfrom, Hc, drop_app_add' by done. simpl.
        by rewrite drop_0.
Qed.

(** [Bytes] on the column under the cursor, when the marker is looked for or
    the column holds none: the decoded column, by writes below its end. *)
Lemma Bytes_at tr cur x cols :
  err tr = None → row tr ≠ 0%Z → b tr = Some cur →
  bytes_of tr cur = join (sep tr) (x :: cols) → (sep tr ∉ x) →
  off cur + len cur ≤ length (mem tr (arr cur)) →
  needUnescape tr = true ∨ (backslash ∉ x) →
  ∃ d tr2, Bytes tr = (Some d, tr2) ∧
    bytes_of tr2 d = spec_unescape x ∧
    row_frame (arr cur) (off cur + len cur) tr tr2 ∧
    col tr2 = int_incr (col tr) ∧
    match cols with
    | [] => b tr2 = None
    | _ => ∃ cur', b tr2 = Some cur' ∧ arr cur' = arr cur ∧
             off cur' + len cur' = off cur + len cur ∧
             bytes_of tr2 cur' = join (sep tr) cols
    end.
Proof.
  intros Herr Hrow Hb Hc Hsep Hok Hgate.
  destruct (nextCol_at tr cur x cols Hrow Hb Hc Hsep)
    as (c & b' & Hnext & Hx & Harr & Hend & Hrest).
  set (tr1 := set_b b' (set_col (int_incr (col tr)) tr)) in *.
  assert (∃ d tr2, Bytes tr = (Some d, tr2) ∧
            bytes_of tr2 d = spec_unescape x ∧
            writes_below (arr c) (off c + len c) tr1 tr2)
    as (d & tr2 & HB & Hd & Hw).
  { destruct (needUnescape tr) eqn:Hneed.
    - destruct (Bytes_unescape tr c tr1 Herr Hnext Hneed)
        as (d & tr2 & HB & Hd & Hw).
      { rewrite Harr. lia. }
      exists d, tr2. by rewrite <- Hx.
    - destruct Hgate as [?|Hesc]; [done|].
      exists c, tr1. split_and!.
      + unfold Bytes. rewrite decide_False by (by rewrite Herr; intros []).
        rewrite Hnext. change (needUnescape tr1) with (needUnescape tr).
        by rewrite Hneed.
      + change (bytes_of tr1 c) with (bytes_of tr c).
        by rewrite Hx, spec_unescape_plain.
      + apply writes_below_refl. }
  exists d, tr2. split_and!; [done|done| | |].
  - unfold row_frame. rewrite Harr in Hw.
    apply (writes_below_le _ _ (off cur + len cur)) in Hw; [|done].
    pose proof Hw as (_ & _ & _ & _ & _ & _ & Hcol & _ & _ & Hb2 & _).
    rewrite Hcol, Hb2. exact Hw.
  - by pose proof Hw as (_ & _ & _ & _ & _ & _ & Hcol & _).
  - pose proof Hw as (_ & _ & _ & _ & _ & _ & _ & _ & _ & Hb2 & _).
    rewrite Hb2. destruct cols as [|y cols]; [done|].
    destruct Hrest as (cur' & -> & Harr' & Hbelow & Hend' & Hjoin).
    exists cur'. split_and!; try done.
    rewrite (writes_below_bytes _ _ _ _ cur' Hw); [done|]. by intros _.
Qed.

Lemma row_frame_refl a k tr : row_frame a k tr tr.
Proof.
  unfold row_frame.
  replace (set_b (b tr) (set_col (col tr) tr)) with tr by (by destruct tr).
  apply writes_below_refl.
Qed.

Lemma row_frame_trans a k tr1 tr2 tr3 :
  row_frame a k tr1 tr2 → row_frame a k tr2 tr3 → row_frame a k tr1 tr3.
Proof.
  unfold row_frame. intros H12 H23.
  apply (writes_below_cursor _ _ _ _ (b tr3) (col tr3)) in H12.
  eapply writes_below_trans; [|exact H23].
  replace (set_b (b tr3) (set_col (col tr3) tr1))
    with (set_b (b tr3) (set_col (col tr3)
            (set_b (b tr2) (set_col (col tr2) tr1)))) by (by destruct tr1).
  exact H12.
Qed.

(** The loop over the columns of a row, with [Bytes] and with [String]: the
    decoded columns, by writes below the end of the row. *)
Lemma cols_loop_spec cols : ∀ tr cur fuel,
  err tr = None → row tr ≠ 0%Z → 0 < slen (rowBuf tr) →
  b tr = Some cur → bytes_of tr cur = join (sep tr) cols → cols ≠ [] →
  off cur + len cur ≤ length (mem tr (arr cur)) →
  Forall (λ x, sep tr ∉ x) cols →
  needUnescape tr = true ∨ Forall (λ x, backslash ∉ x) cols →
  length cols ≤ fuel →
  ∃ tr',
    cols_loop BytesValue fuel tr =
      (map (λ x, Some (spec_unescape x)) cols, tr') ∧
    cols_loop String' fuel tr = (map spec_unescape cols, tr') ∧
    b tr' = None ∧ row_frame (arr cur) (off cur + len cur) tr tr'.
Proof.
  induction cols as [|x cols IH]; intros tr cur fuel; [done|].
  intros Herr Hrow Hlen Hb Hc _ Hok Hsep Hgate Hfuel.
  apply Forall_cons in Hsep as [Hsepx Hsep].
  destruct fuel as [|fuel]; [simpl in Hfuel; lia|].
  assert (Hgatex : needUnescape tr = true ∨ (backslash ∉ x)).
  { destruct Hgate as [?|H]; [by left|right]. by apply Forall_cons in H as []. }
  destruct (Bytes_at tr cur x cols Herr Hrow Hb Hc Hsepx Hok Hgatex)
    as (d & tr2 & HB & Hd & Hframe & _ & Hrest).
  destruct (row_frame_fields _ _ _ _ Hframe)
    as (_ & _ & _ & Hrow2 & HrowBuf2 & _ & Herr2 & Hsep2 & Hneed2 & Hlen2 &
        Hmem2 & _).
  assert (Hhas : HasCols tr = true).
  { unfold HasCols. rewrite Hb.
    rewrite bool_decide_eq_true_2 by done. by rewrite bool_decide_eq_true_2. }
  simpl. rewrite Hhas. unfold BytesValue at 1, String' at 1. rewrite HB.
  simpl. rewrite Hd.
  destruct cols as [|y cols].
  - exists tr2. split_and!; [| |done|done].
    + destruct fuel; simpl; [done|]. unfold HasCols. rewrite Hrest.
      by rewrite andb_false_r.
    + destruct fuel; simpl; [done|]. unfold HasCols. rewrite Hrest.
      by rewrite andb_false_r.
  - destruct Hrest as (cur' & Hb' & Harr' & Hend' & Hjoin).
    destruct (IH tr2 cur' fuel) as (tr' & HBs & HSs & Hnone & Hframe');
      try done.
    + by rewrite Herr2.
    + by rewrite Hrow2.
    + by rewrite HrowBuf2.
    + by rewrite Hsep2.
    + rewrite Hend', Harr'.
      destruct (decide (arr cur = arr cur)); [|done].
      by rewrite Hlen2.
    + by rewrite Hsep2.
    + rewrite Hneed2. destruct Hgate as [?|H]; [by left|right].
      by apply Forall_cons in H as [].
    + simpl in *. lia.
    + exists tr'. rewrite HBs, HSs. split_and!; try done.
      rewrite Harr', Hend' in Hframe'.
      by apply (row_frame_trans _ _ _ tr2).
Qed.

(** ** Where [Next] puts the row *)

Lemma take_row_layout tr n :
  loop_inv tr → IndexByte (view tr (rb tr)) newline = Some n →
  row_layout (take_row n tr).
Proof.
  intros ((Harr & Hok) & Hclean & Hnl & Hrb) Hn.
  destruct (rb tr) as [s|] eqn:Hs; [|done]. simpl in Hrb, Hn.
  apply IndexByte_Some in Hn as (_ & _ & Hlt).
  pose proof (bytes_of_length_le tr s) as Hle.
  unfold take_row. rewrite Hs. cbn [fmap option_fmap option_map].
  set (tr1 := set_rb _ tr).
  change (scratch tr1) with (scratch tr).
  change (view tr1 (Some (sub s 0 n))) with (bytes_of tr (sub s 0 n)).
  destruct (decide (0 < len (scratch tr))) as [Hpos|Hzero].
  - destruct (append _ _ _) as [tr' d'] eqn:Happ.
    apply append_spec in Happ; [|by rewrite Harr].
    destruct Happ as (Hb & -> & Hok' & Hmem & ? & Hrb' & ? & ? & ? & ? & ? & ? & ? & ? & ?).
    eexists. unfold row_layout. simpl. rewrite Harr in *. simpl in *.
    split_and!; try done; try lia.
    all: try (rewrite Hrb'; simpl; by rewrite Hrb).
  - exists (sub s 0 n). simpl. split_and!; try done; try lia.
    all: unfold bytes_of in Hlt; rewrite length_take, length_drop in Hlt.
    change (mem (set_b _ _) (arr s)) with (mem tr (arr s)). lia.
Qed.

Lemma Next_loop_layout fuel : ∀ tr tr',
  loop_inv tr → Next_loop fuel tr = Some (true, tr') → row_layout tr'.
Proof.
  induction fuel as [|fuel IH]; intros tr tr' Hinv; [done|].
  simpl. unfold Next_pass.
  assert (Hscan : ∀ tr1, loop_inv tr1 →
    match
      match IndexByte (view tr1 (rb tr1)) newline with
      | Some n => inl (true, take_row n tr1)
      | None => inr (stash tr1)
      end
    with
    | inl res => Some res
    | inr tr' => Next_loop fuel tr'
    end = Some (true, tr') → row_layout tr').
  { intros tr1 Hinv1.
    destruct (IndexByte _ _) as [n|] eqn:Hn.
    - intros [= <-]. by apply take_row_layout.
    - apply IH. apply stash_spec; [done|]. by apply IndexByte_None. }
  destruct (decide (slen (rb tr) = 0)) as [Hz|Hnz].
  - destruct (rErr tr) as [e|] eqn:HrErr; [done|].
    apply Hscan. by apply fill_spec.
  - by apply Hscan.
Qed.

Lemma Next_layout tr tr' :
  err tr = None → HasCols tr = false → loop_inv tr →
  Next tr = (true, tr') → row_layout tr'.
Proof.
  intros Herr Hcols Hinv. unfold Next.
  rewrite decide_False by (by rewrite Herr; intros []). rewrite Hcols.
  set (tr1 := set_rowBuf None _).
  destruct (Next_loop_total tr1) as [[ok tr''] Hres]. rewrite Hres.
  intros [= -> ->]. by apply (Next_loop_layout (Next_fuel tr1) tr1).
Qed.

(** After the columns of a row have been read, the reader is between rows
    with the same pending input. *)
Lemma row_done tr tr' c :
  loop_inv tr → rowBuf tr = Some c → b tr = Some c →
  off c + len c ≤ length (mem tr (arr c)) →
  from_option (λ s, arr s = arr c → off c + len c ≤ off s) True (rb tr) →
  len (scratch tr) = 0 →
  row_frame (arr c) (off c + len c) tr tr' → b tr' = None →
  loop_inv tr' ∧ pending tr' = pending tr ∧ HasCols tr' = false ∧
  len (scratch tr') = 0.
Proof.
  intros ((Harr & Hok) & Hclean & Hnl & Hrb) HrowBuf Hb Hbound Hlay Hscr
    Hframe Hnone.
  destruct (row_frame_fields _ _ _ _ Hframe)
    as (Hr & Hrb' & HrErr & Hrow & HrowBuf' & Hscratch & Herr & Hsep & Hneed &
        Hlen & Hmem & Hbytes).
  assert (Hempty : ∀ t, len (scratch t) = 0 → bytes_of t (scratch t) = []).
  { intros t H. unfold bytes_of. by rewrite H. }
  assert (Hlenh : length (heap tr') = length (heap tr)).
  { destruct (decide (Heap = arr c)) as [Heq|Hne].
    - rewrite <- Heq in Hlen. exact Hlen.
    - change (length (mem tr' Heap) = length (mem tr Heap)).
      by rewrite (Hmem Heap). }
  split_and!.
  - unfold loop_inv, scratch_ok, clean. rewrite Hscratch, Hrb', HrErr, Hr.
    split_and!; try done.
    + by rewrite Hlenh.
    + rewrite <- Hscratch, Hempty by (by rewrite Hscratch).
      apply not_elem_of_nil.
  - unfold pending. rewrite !Hempty by (by rewrite ?Hscratch).
    rewrite Hrb', HrErr, Hr. f_equal.
    destruct (rb tr) as [s|]; [|done]. simpl in *. by rewrite Hbytes.
  - unfold HasCols. rewrite Hnone. by rewrite andb_false_r.
  - by rewrite Hscratch.
Qed.

(** ** One row: [Next], then the columns until [HasCols] is false *)

Lemma scan_row tr line rest m :
  err tr = None → HasCols tr = false → loop_inv tr →
  pending tr = line ++ newline :: rest → (newline ∉ line) →
  int_incr (row tr) ≠ 0%Z → length line < m →
  (∀ tr1, Next tr = (true, tr1) →
     needUnescape tr1 = true ∨ (backslash ∉ line)) →
  ∃ tr1 tr2, Next tr = (true, tr1) ∧
    cols_loop BytesValue m tr1 =
      (map (λ x, Some (spec_unescape x)) (columns (sep tr) line), tr2) ∧
    cols_loop String' m tr1 =
      (map spec_unescape (columns (sep tr) line), tr2) ∧
    err tr2 = None ∧ HasCols tr2 = false ∧ loop_inv tr2 ∧
    pending tr2 = rest ∧ row tr2 = int_incr (row tr) ∧ sep tr2 = sep tr ∧
    len (scratch tr2) = 0 ∧ r tr2 = r tr1 ∧ rb tr2 = rb tr1 ∧
    rErr tr2 = rErr tr1 ∧ needUnescape tr2 = needUnescape tr1.
Proof.
  intros Herr Hcols Hinv Hp Hnl Hrow Hm Hgate.
  destruct (Next_row tr line rest Herr Hcols Hinv Hp Hnl)
    as (tr1 & c & HN & HrowBuf & Hb & Hc & Hp1 & Hinv1 & Hscr1 & Herr1 &
        Hrow1 & Hcol1 & Hsep1).
  pose proof (Next_layout tr tr1 Herr Hcols Hinv HN)
    as (c' & HrowBuf' & _ & Hbound & Hlay & _).
  rewrite HrowBuf in HrowBuf'. injection HrowBuf' as <-.
  specialize (Hgate tr1 HN).
  pose proof (bytes_of_length tr1 c Hbound) as Hlen. rewrite Hc in Hlen.
  exists tr1. destruct line as [|x line].
  - exists tr1. simpl.
    assert (Hhas : HasCols tr1 = false).
    { unfold HasCols. rewrite HrowBuf. simpl in *.
      rewrite bool_decide_eq_false_2; [done|lia]. }
    split_and!; try done.
    + destruct m; simpl; by rewrite ?Hhas.
    + destruct m; simpl; by rewrite ?Hhas.
  - set (l := x :: line) in *.
    change (columns (sep tr) l) with (fields (sep tr) l).
    destruct (cols_loop_spec (fields (sep tr) l) tr1 c m)
      as (tr2 & HBs & HSs & Hnone & Hframe); try done.
    + by rewrite Hrow1.
    + rewrite HrowBuf. simpl. rewrite <- Hlen. simpl. lia.
    + by rewrite Hsep1, join_fields.
    + apply fields_ne.
    + rewrite Hsep1. apply fields_nosep_all.
    + destruct Hgate as [?|H]; [by left|right]. by apply fields_absent.
    + pose proof (fields_length (sep tr) l). lia.
    + destruct (row_done tr1 tr2 c Hinv1 HrowBuf Hb Hbound Hlay Hscr1
                  Hframe Hnone) as (Hinv2 & Hp2 & Hhas2 & Hscr2).
      destruct (row_frame_fields _ _ _ _ Hframe)
        as (Hr & Hrb' & HrErr & Hrow2 & _ & _ & Herr2 & Hsep2 & Hneed & _).
      exists tr2. split_and!; try done; congruence.
Qed.

Lemma map_spec_unescape_plain cols :
  Forall (λ x, backslash ∉ x) cols → map spec_unescape cols = cols.
Proof.
  induction 1 as [|x cols Hx _ IH]; simpl; [done|].
  by rewrite spec_unescape_plain, IH.
Qed.

Lemma int_incr_nonzero z : (0 ≤ z < 2 ^ 63 - 1)%Z → int_incr z ≠ 0%Z.
Proof. intros Hz. rewrite int_incr_small by done. lia. Qed.

(** The whole input, when it holds no marker. *)
Lemma scan_plain_from ls : ∀ tr data t n m,
  err tr = None → HasCols tr = false → loop_inv tr →
  pending tr = data → lines data = (ls, t) → (backslash ∉ data) →
  (0 ≤ row tr)%Z → (row tr + Z.of_nat (length ls) < 2 ^ 63 - 1)%Z →
  length ls < n → length data < m →
  ∃ tr',
    scan BytesValue n m tr =
      (map (λ l, map Some (columns (sep tr) l)) ls, tr') ∧
    scan String' n m tr = (map (columns (sep tr)) ls, tr') ∧
    err tr' =
      Some (if decide (t = []) then EOF
            else ErrNoNewline (row tr + Z.of_nat (length ls) + 1)%Z t).
Proof.
  induction ls as [|l ls IH];
    intros tr data t n m Herr Hcols Hinv Hp Hlines Hesc Hr0 Hr1 Hn Hm.
  - apply lines_nil in Hlines as [-> Hnl].
    destruct (Next_end tr Herr Hcols Hinv) as (tr' & HN & Herr');
      [by rewrite Hp|].
    destruct n as [|n]; [simpl in Hn; lia|].
    exists tr'. simpl. rewrite HN. split_and!; [done|done|].
    rewrite Herr', Hp. simpl.
    rewrite int_incr_small by lia. by rewrite Z.add_0_r.
  - apply lines_cons in Hlines as (rest & -> & Hnl & Hrest).
    apply not_elem_of_app in Hesc as [Hescl Hesc].
    apply not_elem_of_cons in Hesc as [_ Hesc].
    simpl in Hr1.
    destruct (scan_row tr l rest m Herr Hcols Hinv Hp Hnl)
      as (tr1 & tr2 & HN & HBs & HSs & Herr2 & Hcols2 & Hinv2 & Hp2 & Hrow2 &
          Hsep2 & _).
    { apply int_incr_nonzero. lia. }
    { rewrite length_app in Hm. lia. }
    { intros ? _. by right. }
    rewrite int_incr_small in Hrow2 by lia.
    destruct n as [|n]; [simpl in Hn; lia|].
    destruct (IH tr2 rest t n m) as (tr' & HRB & HRS & Herr'); try done.
    { lia. }
    { lia. }
    { simpl in Hn. lia. }
    { rewrite length_app in Hm. simpl in Hm. lia. }
    assert (Hplain : Forall (λ x, backslash ∉ x) (columns (sep tr) l)).
    { destruct l; [done|]. by apply fields_absent. }
    exists tr'. simpl. rewrite HN, HBs, HSs, HRB, HRS, Hsep2.
    rewrite map_spec_unescape_plain by done.
    split_and!; [| done |].
    + do 2 f_equal. rewrite <- (map_spec_unescape_plain _ Hplain) at 2.
      by rewrite map_map.
    + rewrite Herr', Hrow2. destruct (decide (t = [])); [done|].
      do 2 f_equal. lia.
Qed.

(** [Error] after the last [Next]. *)
Lemma Error_of tr t z :
  err tr = Some (if decide (t = []) then EOF else ErrNoNewline z t) →
  Error tr = if decide (t = []) then None else Some (ErrNoNewline z t).
Proof.
  intros H. unfold Error. rewrite H.
  destruct (decide (t = [])).
  - by rewrite decide_True.
  - by rewrite decide_False.
Qed.

(** ** An input that arrives in one read *)

Lemma Next_first_pass tr res :
  err tr = None → HasCols tr = false →
  Next_pass (set_rowBuf None (set_col 0 (set_row (int_incr (row tr)) tr)))
    = inl res →
  Next tr = res.
Proof.
  intros Herr Hcols Hpass. unfold Next.
  rewrite decide_False by (by rewrite Herr; intros []). rewrite Hcols.
  unfold Next_fuel. rewrite Nat.add_comm.
  change (3 + ?n) with (S (2 + n)).
  cbn [Next_loop]. by rewrite Hpass.
Qed.

Lemma take_row_gate tr n :
  IndexByte (view tr (rb tr)) newline = Some n →
  needUnescape (take_row n tr) = needUnescape tr ∧
  r (take_row n tr) = r tr.
Proof.
  intros Hn. destruct (rb tr) as [s|] eqn:Hs; [|done].
  unfold take_row. rewrite Hs. cbn [fmap option_fmap option_map].
  destruct (decide _).
  - unfold append. by rsimpl.
  - done.
Qed.

Lemma fill_gate tr :
  needUnescape (fill tr) =
    bool_decide (IndexByte (view (fill tr) (rb (fill tr))) backslash ≠ None).
Proof. unfold fill. by destruct (Read _ _) as [[d e] s']. Qed.

Lemma Next_single tr line rest tr' :
  err tr = None → HasCols tr = false → single_read tr →
  pending tr = line ++ newline :: rest → (newline ∉ line) →
  Next tr = (true, tr') →
  r tr' = [] ∧ (needUnescape tr' = true ∨ (backslash ∉ line ++ newline :: rest)).
Proof.
  intros Herr Hcols (Hscr & Hcase) Hp Hnl HN.
  set (tr1 := set_rowBuf None (set_col 0 (set_row (int_incr (row tr)) tr))).
  assert (Hscr0 : bytes_of tr (scratch tr) = []).
  { unfold bytes_of. by rewrite Hscr. }
  unfold pending in Hp. rewrite Hscr0 in Hp. simpl in Hp.
  destruct Hcase as [(Hrb & HrErr & d & e & Hr & Hd)|(Hr & Hgate)].
  - rewrite HrErr, Hr, view_empty in Hp by done. simpl in Hp.
    assert (Hdata : d = line ++ newline :: rest).
    { destruct e; [done|]. by rewrite app_nil_r in Hp. }
    assert (HR : Read (r tr1) rBufSize = (d, e, [])).
    { change (r tr1) with (r tr). rewrite Hr. simpl.
      by rewrite decide_True by done. }
    destruct (fill_read tr1 d e [] HR) as (Hv & Hr' & HrE & _).
    assert (Hpass : Next_pass tr1 =
                    inl (true, take_row (length line) (fill tr1))).
    { unfold Next_pass. change (rb tr1) with (rb tr).
      rewrite decide_True by done. change (rErr tr1) with (rErr tr).
      rewrite HrErr. rewrite Hv, Hdata. by rewrite IndexByte_here. }
    rewrite (Next_first_pass tr _ Herr Hcols Hpass) in HN.
    injection HN as <-.
    destruct (take_row_gate (fill tr1) (length line)) as [Hneed Hr''].
    { rewrite Hv, Hdata. by rewrite IndexByte_here. }
    rewrite Hneed, Hr'', Hr', fill_gate, Hv, <- Hdata. split; [done|].
    destruct (IndexByte d backslash) eqn:Hi.
    + left. by rewrite bool_decide_eq_true_2.
    + right. by apply IndexByte_None.
  - rewrite Hr in Hp.
    assert (Hview : view tr (rb tr) = line ++ newline :: rest).
    { destruct (rErr tr); simpl in Hp; by rewrite app_nil_r in Hp. }
    assert (Hnz : slen (rb tr) ≠ 0).
    { intros Hz. rewrite view_empty in Hview by done. by destruct line. }
    assert (Hpass : Next_pass tr1 = inl (true, take_row (length line) tr1)).
    { assert (Hv1 : view tr1 (rb tr1) = line ++ newline :: rest)
        by exact Hview.
      unfold Next_pass. rewrite decide_False by exact Hnz.
      by rewrite Hv1, IndexByte_here. }
    rewrite (Next_first_pass tr _ Herr Hcols Hpass) in HN.
    injection HN as <-.
    destruct (take_row_gate tr1 (length line)) as [Hneed Hr''].
    { change (view tr1 (rb tr1)) with (view tr (rb tr)).
      by rewrite Hview, IndexByte_here. }
    rewrite Hneed, Hr''. split; [done|].
    change (needUnescape tr1) with (needUnescape tr).
    destruct Hgate as [?|Hesc]; [by left|right].
    unfold pending in Hesc. rewrite Hscr0, Hr in Hesc. simpl in Hesc.
    rewrite Hview in Hesc.
    destruct (rErr tr); simpl in Hesc; by rewrite app_nil_r in Hesc.
Qed.

Lemma scan_single_from ls : ∀ tr data t n m,
  err tr = None → HasCols tr = false → loop_inv tr → single_read tr →
  pending tr = data → lines data = (ls, t) →
  (0 ≤ row tr)%Z → (row tr + Z.of_nat (length ls) < 2 ^ 63 - 1)%Z →
  length ls < n → length data < m →
  ∃ tr',
    scan BytesValue n m tr =
      (map (λ l, map (λ x, Some (spec_unescape x)) (columns (sep tr) l)) ls,
       tr') ∧
    scan String' n m tr =
      (map (λ l, map spec_unescape (columns (sep tr) l)) ls, tr') ∧
    err tr' =
      Some (if decide (t = []) then EOF
            else ErrNoNewline (row tr + Z.of_nat (length ls) + 1)%Z t).
Proof.
  induction ls as [|l ls IH];
    intros tr data t n m Herr Hcols Hinv Hsingle Hp Hlines Hr0 Hr1 Hn Hm.
  - apply lines_nil in Hlines as [-> Hnl].
    destruct (Next_end tr Herr Hcols Hinv) as (tr' & HN & Herr');
      [by rewrite Hp|].
    destruct n as [|n]; [simpl in Hn; lia|].
    exists tr'. simpl. rewrite HN. split_and!; [done|done|].
    rewrite Herr', Hp. simpl.
    rewrite int_incr_small by lia. by rewrite Z.add_0_r.
  - apply lines_cons in Hlines as (rest & -> & Hnl & Hrest).
    simpl in Hr1.
    assert (Hgate : ∀ tr1, Next tr = (true, tr1) →
              r tr1 = [] ∧
              (needUnescape tr1 = true ∨ (backslash ∉ l ++ newline :: rest)))
      by (intros tr1; by apply Next_single).
    destruct (scan_row tr l rest m Herr Hcols Hinv Hp Hnl)
      as (tr1 & tr2 & HN & HBs & HSs & Herr2 & Hcols2 & Hinv2 & Hp2 & Hrow2 &
          Hsep2 & Hscr2 & Hr2 & Hrb2 & HrErr2 & Hneed2).
    { apply int_incr_nonzero. lia. }
    { rewrite length_app in Hm. lia. }
    { intros tr1 H1. destruct (Hgate tr1 H1) as [_ [?|H]]; [by left|right].
      by apply not_elem_of_app in H as []. }
    rewrite int_incr_small in Hrow2 by lia.
    destruct (Hgate tr1 HN) as [Hr1' Hg1].
    destruct n as [|n]; [simpl in Hn; lia|].
    destruct (IH tr2 rest t n m) as (tr' & HRB & HRS & Herr'); try done.
    { split; [done|right]. split; [congruence|].
      rewrite Hneed2, Hp2. destruct Hg1 as [?|H]; [by left|right].
      apply not_elem_of_app in H as [_ H].
      by apply not_elem_of_cons in H as []. }
    { lia. }
    { lia. }
    { simpl in Hn. lia. }
    { rewrite length_app in Hm. simpl in Hm. lia. }
    exists tr'. simpl. rewrite HN, HBs, HSs, HRB, HRS, Hsep2.
    split_and!; [done|done|].
    rewrite Herr', Hrow2. destruct (decide (t = [])); [done|].
    do 2 f_equal. lia.
Qed.

(** ** Rows and columns of any input, counted with [SkipCol] *)

Lemma cols_loop_skip cols : ∀ tr cur fuel,
  err tr = None → row tr ≠ 0%Z → 0 < slen (rowBuf tr) →
  b tr = Some cur → bytes_of tr cur = join (sep tr) cols → cols ≠ [] →
  Forall (λ x, sep tr ∉ x) cols → length cols ≤ fuel →
  ∃ k, cols_loop skip fuel tr =
         (map (λ _, tt) cols, set_b None (set_col k tr)).
Proof.
  induction cols as [|x cols IH]; intros tr cur fuel; [done|].
  intros Herr Hrow Hlen Hb Hc _ Hsep Hfuel.
  apply Forall_cons in Hsep as [Hsepx Hsep].
  destruct fuel as [|fuel]; [simpl in Hfuel; lia|].
  destruct (nextCol_at tr cur x cols Hrow Hb Hc Hsepx)
    as (c & b' & Hnext & _ & _ & _ & Hrest).
  set (tr1 := set_b b' (set_col (int_incr (col tr)) tr)) in *.
  assert (Hskip : SkipCol tr = tr1).
  { unfold SkipCol. rewrite decide_False by (by rewrite Herr; intros []).
    by rewrite Hnext. }
  assert (Hhas : HasCols tr = true).
  { unfold HasCols. rewrite Hb.
    rewrite bool_decide_eq_true_2 by done. by rewrite bool_decide_eq_true_2. }
  cbn [cols_loop]. rewrite Hhas. unfold skip at 1. rewrite Hskip.
  destruct cols as [|y cols].
  - subst b'. exists (int_incr (col tr)).
    destruct fuel; cbn [cols_loop]; [done|]. unfold HasCols. simpl.
    by rewrite andb_false_r.
  - destruct Hrest as (cur' & -> & _ & _ & _ & Hjoin).
    destruct (IH tr1 cur' fuel) as (k & Hloop);
      try done; try (simpl in *; lia).
    exists k. rewrite Hloop. reflexivity.
Qed.

Lemma scan_row_skip tr line rest m :
  err tr = None → HasCols tr = false → loop_inv tr →
  pending tr = line ++ newline :: rest → (newline ∉ line) →
  int_incr (row tr) ≠ 0%Z → length line < m →
  ∃ tr1 tr2, Next tr = (true, tr1) ∧
    cols_loop skip m tr1 = (map (λ _, tt) (columns (sep tr) line), tr2) ∧
    err tr2 = None ∧ HasCols tr2 = false ∧ loop_inv tr2 ∧
    pending tr2 = rest ∧ row tr2 = int_incr (row tr) ∧ sep tr2 = sep tr.
Proof.
  intros Herr Hcols Hinv Hp Hnl Hrow Hm.
  destruct (Next_row tr line rest Herr Hcols Hinv Hp Hnl)
    as (tr1 & c & HN & HrowBuf & Hb & Hc & Hp1 & Hinv1 & Hscr1 & Herr1 &
        Hrow1 & Hcol1 & Hsep1).
  pose proof (Next_layout tr tr1 Herr Hcols Hinv HN)
    as (c' & HrowBuf' & _ & Hbound & Hlay & _).
  rewrite HrowBuf in HrowBuf'. injection HrowBuf' as <-.
  pose proof (bytes_of_length tr1 c Hbound) as Hlen. rewrite Hc in Hlen.
  exists tr1. destruct line as [|x line].
  - exists tr1. simpl.
    assert (Hhas : HasCols tr1 = false).
    { unfold HasCols. rewrite HrowBuf. simpl in *.
      rewrite bool_decide_eq_false_2; [done|lia]. }
    split_and!; try done.
    destruct m; simpl; by rewrite ?Hhas.
  - set (l := x :: line) in *.
    change (columns (sep tr) l) with (fields (sep tr) l).
    destruct (cols_loop_skip (fields (sep tr) l) tr1 c m) as (k & Hloop);
      try done.
    + by rewrite Hrow1.
    + rewrite HrowBuf. simpl. rewrite <- Hlen. simpl. lia.
    + by rewrite Hsep1, join_fields.
    + apply fields_ne.
    + rewrite Hsep1. apply fields_nosep_all.
    + pose proof (fields_length (sep tr) l). lia.
    + exists (set_b None (set_col k tr1)). split_and!; try done.
      unfold HasCols. simpl. by rewrite andb_false_r.
Qed.

Lemma scan_skip_from ls : ∀ tr data t n m,
  err tr = None → HasCols tr = false → loop_inv tr →
  pending tr = data → lines data = (ls, t) →
  (0 ≤ row tr)%Z → (row tr + Z.of_nat (length ls) < 2 ^ 63 - 1)%Z →
  length ls < n → length data < m →
  ∃ tr',
    scan skip n m tr = (map (λ l, map (λ _, tt) (columns (sep tr) l)) ls, tr') ∧
    err tr' =
      Some (if decide (t = []) then EOF
            else ErrNoNewline (row tr + Z.of_nat (length ls) + 1)%Z t).
Proof.
  induction ls as [|l ls IH];
    intros tr data t n m Herr Hcols Hinv Hp Hlines Hr0 Hr1 Hn Hm.
  - apply lines_nil in Hlines as [-> Hnl].
    destruct (Next_end tr Herr Hcols Hinv) as (tr' & HN & Herr');
      [by rewrite Hp|].
    destruct n as [|n]; [simpl in Hn; lia|].
    exists tr'. simpl. rewrite HN. split; [done|].
    rewrite Herr', Hp. simpl.
    rewrite int_incr_small by lia. by rewrite Z.add_0_r.
  - apply lines_cons in Hlines as (rest & -> & Hnl & Hrest).
    simpl in Hr1.
    destruct (scan_row_skip tr l rest m Herr Hcols Hinv Hp Hnl)
      as (tr1 & tr2 & HN & Hloop & Herr2 & Hcols2 & Hinv2 & Hp2 & Hrow2 &
          Hsep2).
    { apply int_incr_nonzero. lia. }
    { rewrite length_app in Hm. lia. }
    rewrite int_incr_small in Hrow2 by lia.
    destruct n as [|n]; [simpl in Hn; lia|].
    destruct (IH tr2 rest t n m) as (tr' & HR & Herr'); try done.
    { lia. }
    { lia. }
    { simpl in Hn. lia. }
    { rewrite length_app in Hm. simpl in Hm. lia. }
    exists tr'. simpl. rewrite HN, Hloop, HR, Hsep2.
    split; [done|].
    rewrite Herr', Hrow2. destruct (decide (t = [])); [done|].
    do 2 f_equal. lia.
Qed.

(** X4.  Any input, however the stream delivers it: the loop
    [for tr.Next() { for tr.HasCols() { tr.SkipCol() } }] visits the lines of
    the input and skips as many columns in each as the line has fields.  A
    marker hides neither a newline nor a separator. *)
Theorem scan_skip c s ls t n m :
  ends_in_EOF s → lines (stream_data s) = (ls, t) →
  (Z.of_nat (length ls) < 2 ^ 63 - 1)%Z →
  length ls < n → length (stream_data s) < m →
  ∃ tr',
    scan skip n m (NewCustom c s) =
      (map (λ l, map (λ _, tt) (columns c l)) ls, tr') ∧
    Error tr' =
      if decide (t = []) then None
      else Some (ErrNoNewline (Z.of_nat (length ls) + 1)%Z t).
Proof.
  intros Hs Hlines Hrows Hn Hm.
  destruct (NewCustom_inv c s Hs) as (Herr & Hcols & Hinv & Hp & Hrow & Hsep).
  destruct (scan_skip_from ls (NewCustom c s) (stream_data s) t n m)
    as (tr' & HS & Herr'); try done.
  exists tr'. split; [done|]. by apply Error_of.
Qed.

(** On the row [a\nb] (marker, then [n]), split after the [n]. *)
Lemma scan_skip_witness :
  ∃ tr',
    scan skip 3 20 (NewCustom ","%byte escaped_split) = ([[tt]], tr') ∧
    Error tr' = None.
Proof.
  destruct (scan_skip ","%byte escaped_split [escaped_row] [] 3 20)
    as (tr' & HS & HE).
  - vm_compute. reflexivity.
  - vm_compute. reflexivity.
  - vm_compute. reflexivity.
  - vm_compute. lia.
  - vm_compute. lia.
  - exists tr'. split; [exact HS|exact HE].
Defined.

(** ** Whole inputs, read with [HasCols] *)

Lemma Reset_inv s tr :
  scratch_ok tr → ends_in_EOF s →
  err (Reset s tr) = None ∧ HasCols (Reset s tr) = false ∧
  loop_inv (Reset s tr) ∧ pending (Reset s tr) = stream_data s ∧
  row (Reset s tr) = 0%Z ∧ sep (Reset s tr) = sep tr ∧
  len (scratch (Reset s tr)) = 0.
Proof.
  intros [Harr Hok] Hs. split_and!; try reflexivity.
  unfold loop_inv, scratch_ok, clean. simpl. split_and!.
  - exact Harr.
  - lia.
  - exact Hs.
  - apply not_elem_of_nil.
  - exact I.
Qed.

(** X5.  An input without the marker, however the stream delivers it: the loop
    [for tr.Next() { for tr.HasCols() { ... } }] visits the lines of the input
    in order and reads, with [Bytes] and with [String], the fields of each
    line; an empty line has no column; what follows the last newline is
    reported by the error, and a clean end leaves no error. *)
Theorem scan_plain c s ls t n m :
  ends_in_EOF s → lines (stream_data s) = (ls, t) →
  (backslash ∉ stream_data s) →
  (Z.of_nat (length ls) < 2 ^ 63 - 1)%Z →
  length ls < n → length (stream_data s) < m →
  ∃ tr',
    scan BytesValue n m (NewCustom c s) =
      (map (λ l, map Some (columns c l)) ls, tr') ∧
    scan String' n m (NewCustom c s) = (map (columns c) ls, tr') ∧
    Error tr' =
      if decide (t = []) then None
      else Some (ErrNoNewline (Z.of_nat (length ls) + 1)%Z t).
Proof.
  intros Hs Hlines Hesc Hrows Hn Hm.
  destruct (NewCustom_inv c s Hs) as (Herr & Hcols & Hinv & Hp & Hrow & Hsep).
  destruct (scan_plain_from ls (NewCustom c s) (stream_data s) t n m)
    as (tr' & HB & HS & Herr'); try done.
  exists tr'. split_and!; [done|done|]. by apply Error_of.
Qed.

(** On rows of three, no and two columns and an unfinished row, in three
    reads. *)
Lemma scan_plain_witness :
  ∃ tr',
    scan String' 4 20 (NewCustom ","%byte ragged_stream) =
      (map (columns ","%byte) ragged_lines, tr') ∧
    Error tr' = Some (ErrNoNewline 4 (bs "d")).
Proof.
  destruct (scan_plain ","%byte ragged_stream ragged_lines (bs "d") 4 20)
    as (tr' & _ & HS & HE).
  - vm_compute. reflexivity.
  - vm_compute. reflexivity.
  - vm_compute. absent.
  - vm_compute. reflexivity.
  - vm_compute. lia.
  - vm_compute. lia.
  - exists tr'. split; [exact HS|exact HE].
Defined.

(** X6.  An input that arrives in one read, markers included: the same loop
    reads the decoded fields of each line. *)
Theorem scan_single_read c d e ls t n m :
  e = None ∨ e = Some EOF → length d ≤ rBufSize → lines d = (ls, t) →
  length ls < n → length d < m →
  ∃ tr',
    scan BytesValue n m (NewCustom c [(d, e)]) =
      (map (λ l, map (λ x, Some (spec_unescape x)) (columns c l)) ls, tr') ∧
    scan String' n m (NewCustom c [(d, e)]) =
      (map (λ l, map spec_unescape (columns c l)) ls, tr') ∧
    Error tr' =
      if decide (t = []) then None
      else Some (ErrNoNewline (Z.of_nat (length ls) + 1)%Z t).
Proof.
  intros He Hd Hlines Hn Hm.
  assert (Hs : ends_in_EOF [(d, e)]) by (by destruct He as [->| ->]).
  assert (Hdata : stream_data [(d, e)] = d).
  { destruct He as [->| ->]; simpl; [by rewrite app_nil_r|done]. }
  destruct (NewCustom_inv c [(d, e)] Hs)
    as (Herr & Hcols & Hinv & Hp & Hrow & Hsep).
  pose proof (lines_length _ _ _ Hlines) as Hlen.
  destruct (scan_single_from ls (NewCustom c [(d, e)]) d t n m)
    as (tr' & HB & HS & Herr'); try done.
  - split; [done|]. left. split_and!; try done. by exists d, e.
  - rewrite Hrow. unfold rBufSize in Hd. lia.
  - exists tr'. split_and!; [done|done|]. by apply Error_of.
Qed.

(** On two rows with escape sequences. *)
Lemma scan_single_read_witness :
  ∃ tr',
    scan String' 3 20 (NewCustom ","%byte [(escaped_input, None)]) =
      ([[ [ "x"%byte; x09; "y"%byte ]; [ "a"%byte; newline; "b"%byte ] ];
        [bs "q"]], tr') ∧
    Error tr' = None.
Proof.
  destruct (scan_single_read ","%byte escaped_input None
              [tab_column ++ bs "," ++ escaped_row; bs "q"] [] 3 20)
    as (tr' & _ & HS & HE).
  - by left.
  - vm_compute. lia.
  - vm_compute. reflexivity.
  - vm_compute. lia.
  - vm_compute. lia.
  - exists tr'. split; [exact HS|exact HE].
Defined.

(** X7.  A reader that [Reset] hands a new stream reads it as a new reader
    does, whatever it has read or staged before. *)
Theorem Reset_reuse tr s ls t n m :
  scratch_ok tr → ends_in_EOF s → lines (stream_data s) = (ls, t) →
  (backslash ∉ stream_data s) →
  (Z.of_nat (length ls) < 2 ^ 63 - 1)%Z →
  length ls < n → length (stream_data s) < m →
  (scan BytesValue n m (Reset s tr)).1 =
    (scan BytesValue n m (NewCustom (sep tr) s)).1 ∧
  (scan String' n m (Reset s tr)).1 =
    (scan String' n m (NewCustom (sep tr) s)).1 ∧
  (scan String' n m (Reset s tr)).1 = map (columns (sep tr)) ls ∧
  Error (scan String' n m (Reset s tr)).2 =
    Error (scan String' n m (NewCustom (sep tr) s)).2.
Proof.
  intros Hok Hs Hlines Hesc Hrows Hn Hm.
  destruct (Reset_inv s tr Hok Hs)
    as (Herr & Hcols & Hinv & Hp & Hrow & Hsep & _).
  destruct (scan_plain_from ls (Reset s tr) (stream_data s) t n m)
    as (tr1 & HB1 & HS1 & Herr1); try done.
  destruct (NewCustom_inv (sep tr) s Hs)
    as (Herr' & Hcols' & Hinv' & Hp' & Hrow' & Hsep').
  destruct (scan_plain_from ls (NewCustom (sep tr) s) (stream_data s) t n m)
    as (tr2 & HB2 & HS2 & Herr2); try done.
  rewrite HB1, HS1, HB2, HS2, Hsep. simpl.
  split_and!; try done.
  rewrite Hrow in Herr1. rewrite Hrow' in Herr2.
  by rewrite (Error_of _ _ _ Herr1), (Error_of _ _ _ Herr2).
Qed.

(** On a reader that has staged the unfinished row [a]. *)
Lemma Reset_reuse_witness :
  (scan String' 4 20 (Reset ragged_stream sticky_reader)).1 =
    (scan String' 4 20 (NewCustom (sep sticky_reader) ragged_stream)).1.
Proof.
  destruct (Reset_reuse sticky_reader ragged_stream ragged_lines (bs "d") 4 20)
    as (_ & HS & _).
  - split; [vm_compute; reflexivity|].
    replace (off (scratch sticky_reader) + len (scratch sticky_reader))
      with 1 by (vm_compute; reflexivity).
    replace (length (heap sticky_reader)) with 1 by (vm_compute; reflexivity).
    lia.
  - vm_compute. reflexivity.
  - vm_compute. reflexivity.
  - vm_compute. absent.
  - vm_compute. reflexivity.
  - vm_compute. lia.
  - vm_compute. lia.
  - exact HS.
Defined.

(** ** [Bytes] with the marker looked for *)

Lemma spec_unescape_length_aux n : ∀ s,
  length s ≤ n → length (spec_unescape s) ≤ length s.
Proof.
  induction n as [|n IH]; intros s Hn.
  - destruct s; [done|simpl in Hn; lia].
  - destruct s as [|c s]; [done|]. simpl in *.
    destruct (decide (c = backslash)) as [Hc|Hc].
    + destruct s as [|c' s]; [done|]. simpl in *.
      specialize (IH s). lia.
    + simpl. specialize (IH s). lia.
Qed.

(** X8.  [Bytes] when the last refill held a marker: the column is decoded by
    the table, in place; the result is no longer than the column, and the
    columns behind it are as they were. *)
Theorem Bytes_in_place tr x cols :
  err tr = None → row tr ≠ 0%Z → cursor_at tr (x :: cols) → cursor_ok tr →
  (sep tr ∉ x) → needUnescape tr = true →
  ∃ d tr2, Bytes tr = (Some d, tr2) ∧
    bytes_of tr2 d = spec_unescape x ∧
    length (spec_unescape x) ≤ length x ∧
    cursor_at tr2 cols ∧ cursor_ok tr2 ∧ err tr2 = None ∧
    row tr2 = row tr ∧ col tr2 = int_incr (col tr).
Proof.
  intros Herr Hrow (cur & Hb & Hc) Hok Hsep Hneed.
  unfold cursor_ok in Hok. rewrite Hb in Hok. simpl in Hok.
  destruct (Bytes_at tr cur x cols Herr Hrow Hb Hc Hsep Hok (or_introl Hneed))
    as (d & tr2 & HB & Hd & Hframe & Hcol2 & Hrest).
  destruct (row_frame_fields _ _ _ _ Hframe)
    as (_ & _ & _ & Hrow2 & HrowBuf2 & _ & Herr2 & Hsep2 & _ & Hlen2 & Hmem2 &
        _).
  exists d, tr2.
  split; [done|]. split; [done|].
  split; [by apply (spec_unescape_length_aux (length x))|].
  split.
  { destruct cols as [|y cols]; [done|].
    destruct Hrest as (cur' & Hb' & _ & _ & Hjoin).
    exists cur'. by rewrite Hsep2. }
  split.
  { unfold cursor_ok. destruct cols as [|y cols]; [by rewrite Hrest|].
    destruct Hrest as (cur' & -> & Harr' & Hend' & _). simpl.
    by rewrite Hend', Harr', Hlen2. }
  split; [congruence|]. split; done.
Qed.

(** On the row [x\ty,z]. *)
Lemma Bytes_in_place_witness :
  ∃ d tr2, Bytes escaped_row_reader = (Some d, tr2) ∧
    bytes_of tr2 d = [ "x"%byte; x09; "y"%byte ] ∧
    cursor_at tr2 [bs "z"].
Proof.
  destruct (Bytes_in_place escaped_row_reader tab_column [bs "z"])
    as (d & tr2 & HB & Hd & _ & Hcur & _).
  - vm_compute. reflexivity.
  - vm_compute. discriminate.
  - exists (Slice RBuf 0 6). split; vm_compute; reflexivity.
  - unfold cursor_ok.
    replace (b escaped_row_reader) with (Some (Slice RBuf 0 6))
      by (vm_compute; reflexivity).
    simpl. replace (length (rBuf escaped_row_reader)) with rBufSize
      by (vm_compute; reflexivity).
    unfold rBufSize. lia.
  - vm_compute. absent.
  - vm_compute. reflexivity.
  - exists d, tr2. split; [exact HB|]. split; [exact Hd|exact Hcur].
Defined.

(** ** What [Bytes] writes *)

Lemma same_below_store tr d x k :
  1 ≤ len d → k ≤ off d + len d - 1 →
  same_below (arr d) k tr (store_last tr d x).
Proof.
  intros H1 Hk. unfold same_below, store_last.
  rewrite mem_set_mem, decide_True by done.
  by rewrite take_insert_ge by lia.
Qed.

Lemma same_below_append tr d xs k tr' d' :
  append tr d xs = (tr', d') →
  k ≤ off d + len d → k ≤ length (mem tr (arr d)) →
  same_below (arr d) k tr tr'.
Proof.
  intros [= <- <-] Hk Hlen. unfold same_below.
  rewrite mem_set_mem, decide_True by done. unfold write_at.
  rewrite take_app_le by (rewrite length_take; lia).
  rewrite take_take. f_equal. lia.
Qed.

(** The loop of [Bytes] writes from the start of its output on. *)
Lemma unescape_loop_above fuel : ∀ tr d c tr' d',
  arr d = arr c → 1 ≤ len d → off d + len d ≤ off c →
  off c + len c ≤ length (mem tr (arr c)) →
  unescape_loop fuel tr d c = (tr', d') →
  same_below (arr d) (off d) tr tr' ∧ arr d' = arr d ∧ off d' = off d.
Proof.
  induction fuel as [|fuel IH]; intros tr d c tr' d' Harr Hd1 Hdc Hok.
  - simpl. by intros [= <- <-].
  - simpl. destruct (bytes_of tr c) as [|c0 C] eqn:HC.
    { by intros [= <- <-]. }
    pose proof (bytes_of_length tr c Hok) as HlenC. rewrite HC in HlenC.
    simpl in HlenC.
    set (tr1 := store_last tr d (unescape_byte c0)).
    assert (S1 : same_below (arr d) (off d) tr tr1)
      by (apply same_below_store; lia).
    assert (W1 : writes_below (arr c) (off c + len c) tr tr1).
    { rewrite <- Harr. apply writes_below_store; [lia|done]. }
    assert (Hlen1 : length (mem tr1 (arr c)) = length (mem tr (arr c)))
      by apply W1.
    pose proof (bytes_of_length_le tr1 (sfrom c 1)) as Hle1. simpl in Hle1.
    destruct (IndexByte (bytes_of tr1 (sfrom c 1)) backslash) as [n|] eqn:Hn.
    + apply IndexByte_Some in Hn as (_ & _ & Hlt).
      pose proof (bytes_of_length_le tr1 (sub (sfrom c 1) 0 (n + 1))) as Hxs.
      simpl in Hxs.
      destruct (append tr1 d (bytes_of tr1 (sub (sfrom c 1) 0 (n + 1))))
        as [tr2 d2] eqn:Happ.
      pose proof Happ as S2.
      apply same_below_append with (k := off d) in S2;
        [|lia|rewrite Harr, Hlen1; lia].
      pose proof Happ as W2.
      apply writes_below_append with (k := off c + len c) in W2;
        [|lia | rewrite Harr, Hlen1; lia].
      assert (Hb2 : off (sfrom (sfrom c 1) (n + 1)) +
                    len (sfrom (sfrom c 1) (n + 1)) ≤
                    length (mem tr2 (arr (sfrom (sfrom c 1) (n + 1))))).
      { destruct W2 as [Hl2 _]. simpl. rewrite <- Harr, Hl2, Harr, Hlen1.
        lia. }
      clear W2. unfold append in Happ. injection Happ as Htr2 Hd2.
      subst tr2 d2.
      intros Hloop. apply IH in Hloop; [|done|simpl; lia|simpl; lia|exact Hb2].
      destruct Hloop as (S3 & Harr' & Hoff'). simpl in *.
      split_and!; [|done|done].
      unfold same_below in *. by rewrite S3, S2, S1.
    + destruct (append tr1 d (bytes_of tr1 (sfrom c 1)))
        as [tr2 d2] eqn:Happ.
      pose proof Happ as S2.
      apply same_below_append with (k := off d) in S2;
        [|lia|rewrite Harr, Hlen1; lia].
      intros [= <- <-]. unfold append in Happ. injection Happ as <- <-.
      split_and!; [|done|done].
      unfold same_below in *. by rewrite S2, S1.
Qed.

(** X9.  [Bytes] writes inside the column it returns and nowhere else: the
    result starts where the column starts, and every slice that lies before
    the column or behind it holds the bytes it held, the columns that
    [Bytes] returned earlier among them. *)
Theorem Bytes_writes_own_column tr x cols :
  err tr = None → row tr ≠ 0%Z → cursor_at tr (x :: cols) → cursor_ok tr →
  (sep tr ∉ x) →
  ∃ cur d tr2, b tr = Some cur ∧ Bytes tr = (Some d, tr2) ∧
    arr d = arr cur ∧ off d = off cur ∧
    ∀ s, (arr s = arr cur →
            off s + len s ≤ off cur ∨ off cur + length x ≤ off s) →
         bytes_of tr2 s = bytes_of tr s.
Proof.
  intros Herr Hrow (cur & Hb & Hc) Hok Hsep.
  unfold cursor_ok in Hok. rewrite Hb in Hok. simpl in Hok.
  destruct (nextCol_at tr cur x cols Hrow Hb Hc Hsep)
    as (c & b' & Hnext & Hx & Harr & Hend & _).
  set (tr1 := set_b b' (set_col (int_incr (col tr)) tr)) in *.
  assert (Hoff : off c = off cur).
  { unfold nextCol in Hnext. rewrite decide_False in Hnext by done.
    simpl in Hnext. rewrite Hb in Hnext.
    destruct (IndexByte _ _); by injection Hnext as <- _. }
  assert (Hbound : off c + len c ≤ length (mem tr (arr c)))
    by (rewrite Harr; lia).
  pose proof (bytes_of_length tr c Hbound) as Hlenx. rewrite Hx in Hlenx.
  exists cur. unfold Bytes.
  rewrite decide_False by (by rewrite Herr; intros []). rewrite Hnext.
  destruct (negb (needUnescape tr1)) eqn:Hneed.
  { exists c, tr1. by split_and!. }
  change (view tr1 (Some c)) with (bytes_of tr c). rewrite Hx.
  destruct (IndexByte x backslash) as [n|] eqn:Hn.
  2:{ exists c, tr1. by split_and!. }
  apply IndexByte_Some in Hn as (Hxeq & _ & Hlt).
  destruct (unescape_loop _ _ _ _) as [tr2 d] eqn:Hloop.
  assert (Hb1 : off (sfrom c (n + 1)) + len (sfrom c (n + 1)) ≤
                length (mem tr1 (arr (sfrom c (n + 1))))).
  { simpl. change (mem tr1 (arr c)) with (mem tr (arr c)). lia. }
  assert (Hd0 : bytes_of tr1 (sub c 0 (n + 1)) = take n x ++ [backslash]).
  { change (bytes_of tr1 ?s) with (bytes_of tr s).
    rewrite bytes_of_sub by lia. rewrite Hx, Nat.sub_0_r, drop_0.
    rewrite Hxeq at 1.
    rewrite take_app_ge by (rewrite length_take; lia).
    rewrite length_take. replace (n + 1 - n `min` length x) with 1 by lia.
    done. }
  pose proof Hloop as Hspec.
  apply (unescape_loop_spec _ _ _ _ (take n x)) in Hspec as [_ W];
    [|done|simpl; lia|simpl; lia|exact Hb1|simpl; lia|exact Hd0].
  apply unescape_loop_above in Hloop as (Sb & Harr' & Hoff');
    [|done|simpl; lia|simpl; lia|exact Hb1].
  simpl in W, Sb, Harr', Hoff'.
  replace (off c + (n + 1) + (len c - (n + 1))) with (off c + len c) in W
    by lia.
  exists d, tr2. split_and!; [done|done|congruence|lia|].
  intros s Hs.
  destruct (decide (arr s = arr cur)) as [Ha|Hne].
  - destruct (Hs Ha) as [Hbefore|Hbehind].
    + unfold bytes_of. rewrite Ha, <- Harr.
      change (mem tr (arr c)) with (mem tr1 (arr c)).
      rewrite !take_drop_commute.
      replace (take (off s + len s) (mem tr2 (arr c)))
        with (take (off s + len s) (take (off c + 0) (mem tr2 (arr c))))
        by (rewrite take_take; f_equal; lia).
      unfold same_below in Sb. rewrite Sb.
      rewrite take_take. do 2 f_equal. lia.
    + change (bytes_of tr s) with (bytes_of tr1 s).
      apply (writes_below_bytes _ _ _ _ s W). intros _. lia.
  - change (bytes_of tr s) with (bytes_of tr1 s).
    apply (writes_below_bytes _ _ _ _ s W). intros Heq.
    destruct Hne. by rewrite Heq.
Qed.

(** On the row [x\ty,z]: the column [z] after [Bytes] on the first column. *)
Lemma Bytes_writes_own_column_witness :
  ∃ d tr2, Bytes escaped_row_reader = (Some d, tr2) ∧
    bytes_of tr2 (Slice RBuf 5 1) = bs "z".
Proof.
  destruct (Bytes_writes_own_column escaped_row_reader tab_column [bs "z"])
    as (cur & d & tr2 & Hb & HB & _ & _ & Hframe).
  - vm_compute. reflexivity.
  - vm_compute. discriminate.
  - exists (Slice RBuf 0 6). split; vm_compute; reflexivity.
  - unfold cursor_ok.
    replace (b escaped_row_reader) with (Some (Slice RBuf 0 6))
      by (vm_compute; reflexivity).
    simpl. replace (length (rBuf escaped_row_reader)) with rBufSize
      by (vm_compute; reflexivity).
    unfold rBufSize. lia.
  - vm_compute. absent.
  - exists d, tr2. split; [exact HB|].
    assert (Hcur : b escaped_row_reader = Some (Slice RBuf 0 6))
      by (vm_compute; reflexivity).
    rewrite Hcur in Hb. injection Hb as <-.
    rewrite (Hframe (Slice RBuf 5 1)).
    + vm_compute. reflexivity.
    + intros _. right. simpl. lia.
Defined.

(** X10.  Every typed decoder moves the reader as [SkipCol] does, whether the
    column parses or not: the two states differ in the error only. *)
Theorem typed_decoders_advance tr :
  ResetError (Int tr).2 = ResetError (SkipCol tr) ∧
  ResetError (Uint tr).2 = ResetError (SkipCol tr) ∧
  ResetError (Int8 tr).2 = ResetError (SkipCol tr) ∧
  ResetError (Uint8 tr).2 = ResetError (SkipCol tr) ∧
  ResetError (Int16 tr).2 = ResetError (SkipCol tr) ∧
  ResetError (Uint16 tr).2 = ResetError (SkipCol tr) ∧
  ResetError (Int32 tr).2 = ResetError (SkipCol tr) ∧
  ResetError (Uint32 tr).2 = ResetError (SkipCol tr) ∧
  ResetError (Int64 tr).2 = ResetError (SkipCol tr) ∧
  ResetError (Uint64 tr).2 = ResetError (SkipCol tr) ∧
  (∀ (f64 f32 : Type) (z64 : f64) (z32 : f32) parse conv,
     ResetError (Float32 f64 f32 z32 parse conv tr).2 =
       ResetError (SkipCol tr) ∧
     ResetError (Float64 f64 z64 parse tr).2 = ResetError (SkipCol tr)) ∧
  ResetError (Date tr).2 = ResetError (SkipCol tr) ∧
  ResetError (DateTime tr).2 = ResetError (SkipCol tr).
Proof.
  split_and!.
  - advance Int tr.
  - advance Uint tr.
  - advance Int8 tr.
  - advance Uint8 tr.
  - advance Int16 tr.
  - advance Uint16 tr.
  - advance Int32 tr.
  - advance Uint32 tr.
  - advance Int64 tr.
  - advance Uint64 tr.
  - intros. split.
    + advance Float32 tr.
    + advance Float64 tr.
  - advance Date tr.
  - advance DateTime tr.
Qed.

(** ** [strconv] against decimal texts *)

Lemma digit_range c d : strconv.digit c = Some d → (0 ≤ d ≤ 9)%Z.
Proof.
  unfold strconv.digit. destruct (decide _); [|done]. intros [= <-]. lia.
Qed.

Lemma dec_value_ge s : ∀ acc v,
  (0 ≤ acc)%Z → dec_value s acc = Some v → (acc ≤ v)%Z.
Proof.
  induction s as [|c s IH]; intros acc v Hacc; simpl.
  - intros [= <-]. lia.
  - destruct (strconv.digit c) as [d|] eqn:Hd; [|done].
    apply digit_range in Hd. intros H. apply IH in H; lia.
Qed.

(** The digit loop of [ParseUint] on a run of digits: the value, or the range
    error when the value is above [M]. *)
Lemma digits_spec M s : ∀ n,
  (0 ≤ n ≤ M)%Z → (M ≤ 2 ^ 64 - 1)%Z →
  match dec_value s n with
  | Some v =>
      strconv.digits M s n =
        if decide (v ≤ M)%Z then (v, None) else (M, Some ErrRange)
  | None =>
      (strconv.digits M s n).2 = Some ErrSyntax ∨
      strconv.digits M s n = (M, Some ErrRange)
  end.
Proof.
  induction s as [|c s IH]; intros n Hn HM; simpl.
  - rewrite decide_True by lia. done.
  - destruct (strconv.digit c) as [d|] eqn:Hd; [|by left].
    pose proof (digit_range _ _ Hd) as Hdr.
    destruct (decide ((2 ^ 64 - 1) / 10 + 1 ≤ n)%Z) as [Hcut|Hcut].
    + destruct (dec_value s (n * 10 + d)) as [v|] eqn:Hv; [|by right].
      apply dec_value_ge in Hv; [|lia].
      rewrite decide_False; [done|].
      change ((2 ^ 64 - 1) / 10 + 1)%Z with 1844674407370955162%Z in Hcut.
      change (2 ^ 64 - 1)%Z with 18446744073709551615%Z in HM. lia.
    + destruct (decide (2 ^ 64 ≤ n * 10 + d ∨ M < n * 10 + d)%Z) as [Hov|Hov].
      * destruct (dec_value s (n * 10 + d)) as [v|] eqn:Hv; [|by right].
        apply dec_value_ge in Hv; [|lia].
        rewrite decide_False; [done|].
        change (2 ^ 64 - 1)%Z with 18446744073709551615%Z in HM.
        change (2 ^ 64)%Z with 18446744073709551616%Z in Hov. lia.
      * apply IH; lia.
Qed.

(** [ParseUint] on any text: the value of an unsigned decimal text that fits
    the width; the range error with the largest value of the width; or, on a
    text that is no run of digits, one of the two errors. *)
Lemma parse_uint_cases s w :
  (1 ≤ strconv.bits w ≤ 64)%Z →
  let M := (2 ^ strconv.bits w - 1)%Z in
  match uint_text s with
  | Some u =>
      strconv.parse_uint s w =
        if decide (u ≤ M)%Z then (u, None) else (M, Some ErrRange)
  | None =>
      (strconv.parse_uint s w).2 = Some ErrSyntax ∨
      strconv.parse_uint s w = (M, Some ErrRange)
  end.
Proof.
  intros Hw M. unfold strconv.parse_uint, uint_text.
  destruct s as [|c s]; [by left|].
  assert (HM : (0 ≤ 0 ≤ M)%Z).
  { assert (0 < 2 ^ strconv.bits w)%Z by (apply Z.pow_pos_nonneg; lia).
    unfold M. lia. }
  assert (HM' : (M ≤ 2 ^ 64 - 1)%Z).
  { assert (2 ^ strconv.bits w ≤ 2 ^ 64)%Z by (apply Z.pow_le_mono_r; lia).
    unfold M. lia. }
  apply (digits_spec M (c :: s) 0 HM HM').
Qed.

Lemma uint_text_nonneg s u : uint_text s = Some u → (0 ≤ u)%Z.
Proof.
  unfold uint_text. destruct s; [done|]. intros H.
  by apply dec_value_ge in H.
Qed.

Lemma digit_not_sign c d :
  strconv.digit c = Some d → c ≠ "+"%byte ∧ c ≠ "-"%byte.
Proof. intros H. split; intros ->; by vm_compute in H. Qed.

(** A text without a sign is read the same signed and unsigned. *)
Lemma uint_text_int_text s u : uint_text s = Some u → int_text s = Some u.
Proof.
  destruct s as [|c s]; [done|]. unfold int_text. intros H.
  assert (∃ d, strconv.digit c = Some d) as [d Hd].
  { simpl in H. destruct (strconv.digit c); [eauto|done]. }
  apply digit_not_sign in Hd as [? ?].
  by rewrite !decide_False by done.
Qed.

(** [ParseInt] and [Atoi] succeed on the signed decimal texts whose value
    fits the width, with that value, and fail on every other text. *)
Lemma parse_int_cases fn s w :
  (2 ≤ strconv.bits w ≤ 64)%Z →
  let B := strconv.bits w in
  match int_in (- 2 ^ (B - 1)) (2 ^ (B - 1) - 1) s with
  | Some v => strconv.parse_int fn s w = (v, None)
  | None => ∃ v e, strconv.parse_int fn s w = (v, Some e)
  end.
Proof.
  intros Hw B. unfold int_in, int_text, strconv.parse_int.
  destruct s as [|c s]; [by eauto|].
  fold B.
  assert (Hpow : (2 ^ B = 2 * 2 ^ (B - 1))%Z).
  { rewrite <- Z.pow_succ_r by lia. f_equal. lia. }
  assert (Hpos : (2 ≤ 2 ^ (B - 1))%Z).
  { change 2%Z with (2 ^ 1)%Z at 1. apply Z.pow_le_mono_r; lia. }
  set (digs := if decide (c = "+"%byte ∨ c = "-"%byte) then s else c :: s).
  assert (Hu : (1 ≤ strconv.bits w ≤ 64)%Z) by lia.
  pose proof (parse_uint_cases digs w Hu) as Hcases. fold B in Hcases.
  cbv zeta in Hcases.
  assert (Htext :
    (if decide (c = "+"%byte) then uint_text s
     else if decide (c = "-"%byte) then Z.opp <$> uint_text s
     else uint_text (c :: s)) =
    (if bool_decide (c = "-"%byte) then Z.opp <$> uint_text digs
     else uint_text digs)).
  { unfold digs. destruct (decide (c = "+"%byte)) as [->|Hp].
    - rewrite decide_True by auto. by rewrite bool_decide_eq_false_2.
    - destruct (decide (c = "-"%byte)) as [->|Hm].
      + rewrite decide_True by auto. by rewrite bool_decide_eq_true_2.
      + rewrite decide_False by tauto. by rewrite bool_decide_eq_false_2. }
  rewrite Htext. clear Htext.
  destruct (uint_text digs) as [u|] eqn:Hdigs.
  - pose proof (uint_text_nonneg _ _ Hdigs) as Hu0.
    rewrite Hcases.
    destruct (decide (u ≤ 2 ^ B - 1)%Z) as [Hfit|Hfit].
    + destruct (bool_decide (c = "-"%byte)); simpl.
      * destruct (decide (- 2 ^ (B - 1) ≤ - u ≤ 2 ^ (B - 1) - 1)%Z).
        -- rewrite bool_decide_eq_false_2 by lia. done.
        -- rewrite bool_decide_eq_true_2 by lia. eauto.
      * destruct (decide (- 2 ^ (B - 1) ≤ u ≤ 2 ^ (B - 1) - 1)%Z).
        -- rewrite bool_decide_eq_false_2 by lia. done.
        -- rewrite bool_decide_eq_true_2 by lia. eauto.
    + destruct (bool_decide (c = "-"%byte)); simpl.
      * rewrite decide_False by lia.
        rewrite bool_decide_eq_true_2 by lia. eauto.
      * rewrite decide_False by lia.
        rewrite bool_decide_eq_true_2 by lia. eauto.
  - assert (∃ v e, (let (un, o) := strconv.parse_uint digs w in
       match o with
       | Some ErrSyntax => (0%Z, Some (ErrNum fn (c :: s) ErrSyntax))
       | _ =>
         if negb (bool_decide (c = "-"%byte)) &&
            bool_decide (2 ^ (B - 1) ≤ un)%Z
         then ((2 ^ (B - 1) - 1)%Z, Some (ErrNum fn (c :: s) ErrRange))
         else if bool_decide (c = "-"%byte) && bool_decide (2 ^ (B - 1) < un)%Z
         then ((- 2 ^ (B - 1))%Z, Some (ErrNum fn (c :: s) ErrRange))
         else ((if bool_decide (c = "-"%byte) then - un else un)%Z, None)
       end) = (v, Some e)) as Hfail.
    { destruct Hcases as [Hs|Hr].
      - destruct (strconv.parse_uint digs w) as [un o]. simpl in Hs.
        subst o. eauto.
      - rewrite Hr. destruct (bool_decide (c = "-"%byte)); simpl.
        + rewrite bool_decide_eq_true_2 by lia. eauto.
        + rewrite bool_decide_eq_true_2 by lia. eauto. }
    by destruct (bool_decide (c = "-"%byte)).
Qed.

Lemma Atoi_cases s :
  match int_in MinInt64 MaxInt64 s with
  | Some v => strconv.Atoi s = (v, None)
  | None => ∃ v e, strconv.Atoi s = (v, Some e)
  end.
Proof. apply (parse_int_cases "Atoi" s 0). by vm_compute. Qed.

Lemma to_int_id w v :
  (1 ≤ w)%Z → (- 2 ^ (w - 1) ≤ v ≤ 2 ^ (w - 1) - 1)%Z → to_int w v = v.
Proof.
  intros Hw Hv. unfold to_int.
  assert (2 ^ w = 2 * 2 ^ (w - 1))%Z as ->.
  { rewrite <- Z.pow_succ_r by lia. f_equal. lia. }
  rewrite Z.mod_small by lia. lia.
Qed.

Lemma to_uint_id w v : (0 ≤ v ≤ 2 ^ w - 1)%Z → to_uint w v = v.
Proof. intros Hv. unfold to_uint. apply Z.mod_small. lia. Qed.

(** ** The integer decoders on a column *)

(** The column under the cursor, as every decoder gets it from [nextCol]. *)
Lemma column_next tr x cols :
  err tr = None → row tr ≠ 0%Z → cursor_at tr (x :: cols) → (sep tr ∉ x) →
  ∃ c tr1, nextCol tr = (inl c, tr1) ∧ b2s tr1 c = x ∧ SkipCol tr = tr1 ∧
    cursor_at tr1 cols ∧ err tr1 = None.
Proof.
  intros Herr Hrow Hcur Hsep.
  destruct (nextCol_join tr x cols Hrow Hcur Hsep)
    as (c & b' & Hnext & Hc & Hcur').
  exists (Some c), (set_b b' (set_col (int_incr (col tr)) tr)).
  split_and!; [done|done| |done|done].
  unfold SkipCol. rewrite decide_False by (by rewrite Herr; intros []).
  by rewrite Hnext.
Qed.

Lemma int_in_Some lo hi s v :
  int_in lo hi s = Some v ↔ int_text s = Some v ∧ (lo ≤ v ≤ hi)%Z.
Proof.
  unfold int_in. destruct (int_text s) as [u|]; [|by split; [|intros []]].
  destruct (decide _); split.
  - by intros [= <-].
  - by intros [[= <-] _].
  - done.
  - intros [[= <-] ?]. done.
Qed.

Lemma int_in_None lo hi s :
  int_in lo hi s = None ↔ ∀ v, int_text s = Some v → ¬ (lo ≤ v ≤ hi)%Z.
Proof.
  unfold int_in. destruct (int_text s) as [u|]; [|by split].
  destruct (decide _); split; try done.
  - intros H. by destruct (H u).
  - by intros _ v [= <-].
Qed.

(** [Atoi] on a text whose value lies in a range within [int]. *)
Lemma Atoi_in lo hi s :
  (MinInt64 ≤ lo)%Z → (hi ≤ MaxInt64)%Z →
  match int_in lo hi s with
  | Some v => strconv.Atoi s = (v, None) ∧ (lo ≤ v ≤ hi)%Z
  | None =>
      (∃ v e, strconv.Atoi s = (v, Some e)) ∨
      (∃ v, strconv.Atoi s = (v, None) ∧ ¬ (lo ≤ v ≤ hi)%Z ∧
            (MinInt64 ≤ v ≤ MaxInt64)%Z)
  end.
Proof.
  intros Hlo Hhi. pose proof (Atoi_cases s) as HA.
  destruct (int_in lo hi s) as [v|] eqn:Hin.
  - apply int_in_Some in Hin as [Htext Hv].
    assert (int_in MinInt64 MaxInt64 s = Some v) as Hin'
      by (apply int_in_Some; split; [done|lia]).
    by rewrite Hin' in HA.
  - destruct (int_in MinInt64 MaxInt64 s) as [v|] eqn:Hin'; [|by left].
    right. exists v. split; [done|].
    apply int_in_Some in Hin' as [Htext Hv]. split; [|done].
    by apply (proj1 (int_in_None _ _ _) Hin).
Qed.

Lemma to_int_range w lo hi v :
  (1 ≤ w)%Z → lo = (- 2 ^ (w - 1))%Z → hi = (2 ^ (w - 1) - 1)%Z →
  (lo ≤ v ≤ hi)%Z → to_int w v = v.
Proof. intros ? -> -> ?. by apply to_int_id. Qed.

Lemma to_uint_range w hi v :
  hi = (2 ^ w - 1)%Z → (0 ≤ v ≤ hi)%Z → to_uint w v = v.
Proof. intros -> ?. by apply to_uint_id. Qed.

(** [ParseUint] on any text, from [parse_uint_cases]. *)
Lemma ParseUint_cases s w :
  (1 ≤ strconv.bits w ≤ 64)%Z →
  match uint_text s with
  | Some u =>
      if decide (u ≤ 2 ^ strconv.bits w - 1)%Z
      then strconv.ParseUint s w = (u, None)
      else ∃ v e, strconv.ParseUint s w = (v, Some e)
  | None => ∃ v e, strconv.ParseUint s w = (v, Some e)
  end.
Proof.
  intros Hw. pose proof (parse_uint_cases s w Hw) as H. cbv zeta in H.
  unfold strconv.ParseUint. destruct (uint_text s) as [u|].
  - rewrite H. destruct (decide _); simpl; eauto.
  - destruct H as [H|H].
    + destruct (strconv.parse_uint s w) as [n e]. simpl in H. subst e.
      simpl. eauto.
    + rewrite H. simpl. eauto.
Qed.

(** X11.  The signed decoders accept exactly the signed decimal texts whose value
    fits the type. *)
Theorem signed_decoders_exact tr x cols :
  err tr = None → row tr ≠ 0%Z → cursor_at tr (x :: cols) → (sep tr ∉ x) →
  decodes Int tr (int_in MinInt64 MaxInt64 x) ∧
  decodes Int64 tr (int_in MinInt64 MaxInt64 x) ∧
  decodes Int32 tr (int_in MinInt32 MaxInt32 x) ∧
  decodes Int16 tr (int_in MinInt16 MaxInt16 x) ∧
  decodes Int8 tr (int_in MinInt8 MaxInt8 x) ∧
  cursor_at (SkipCol tr) cols.
Proof.
  intros Herr Hrow Hcur Hsep.
  destruct (column_next tr x cols Herr Hrow Hcur Hsep)
    as (c & tr1 & Hnext & Hx & Hskip & Hcur' & Herr1).
  unfold decodes. rewrite Hskip. split_and!; [| | | | |done].
  - pose proof (Atoi_cases x) as HA.
    destruct (int_in MinInt64 MaxInt64 x) as [v|].
    + on_column Int tr Herr Hnext Hx. by rewrite HA.
    + destruct HA as (v & e & HA). on_column Int tr Herr Hnext Hx.
      rewrite HA. eauto.
  - pose proof (Atoi_cases x) as HA.
    pose proof (parse_int_cases "ParseInt" x 64 ltac:(by vm_compute)) as HP.
    change (int_in _ _ x) with (int_in MinInt64 MaxInt64 x) in HP.
    destruct (int_in MinInt64 MaxInt64 x) as [v|] eqn:Hin.
    + apply int_in_Some in Hin as [_ Hv].
      on_column Int64 tr Herr Hnext Hx. rewrite HA.
      rewrite (to_int_range 64 MinInt64 MaxInt64 v) by first [lia|reflexivity|exact Hv].
      rewrite !bool_decide_eq_true_2 by (done || tauto). done.
    + destruct HP as (v' & e' & HP). destruct HA as (v & e & HA).
      on_column Int64 tr Herr Hnext Hx.
      unfold strconv.ParseInt. rewrite HP, HA.
      rewrite (bool_decide_eq_false_2 (Some e = None)) by done. simpl. eauto.
  - pose proof (Atoi_in MinInt32 MaxInt32 x ltac:(done) ltac:(done)) as HA.
    pose proof (parse_int_cases "ParseInt" x 32 ltac:(by vm_compute)) as HP.
    change (int_in _ _ x) with (int_in MinInt32 MaxInt32 x) in HP.
    destruct (int_in MinInt32 MaxInt32 x) as [v|] eqn:Hin.
    + destruct HA as [HA Hv].
      on_column Int32 tr Herr Hnext Hx. rewrite HA.
      rewrite (to_int_range 32 MinInt32 MaxInt32 v) by first [lia|reflexivity|exact Hv].
      rewrite !bool_decide_eq_true_2 by (done || tauto). done.
    + destruct HP as (v' & e' & HP).
      on_column Int32 tr Herr Hnext Hx.
      unfold strconv.ParseInt. rewrite HP.
      destruct HA as [(v & e & HA)|(v & HA & Hv & _)]; rewrite HA.
      * rewrite (bool_decide_eq_false_2 (Some e = None)) by done. simpl. eauto.
      * destruct (_ && _ && _) eqn:Hfast; [|eauto]. exfalso. apply Hv.
        apply andb_prop in Hfast as [Hfast H2].
        apply andb_prop in Hfast as [_ H1].
        apply bool_decide_eq_true in H1, H2. done.
  - pose proof (Atoi_in MinInt16 MaxInt16 x ltac:(done) ltac:(done)) as HA.
    destruct (int_in MinInt16 MaxInt16 x) as [v|] eqn:Hin.
    + destruct HA as [HA Hv].
      on_column Int16 tr Herr Hnext Hx. rewrite HA.
      rewrite decide_False by lia.
      by rewrite (to_int_range 16 MinInt16 MaxInt16 v) by first [lia|reflexivity|exact Hv].
    + on_column Int16 tr Herr Hnext Hx.
      destruct HA as [(v & e & HA)|(v & HA & Hv & _)]; rewrite HA; [eauto|].
      rewrite decide_True by lia. eauto.
  - pose proof (Atoi_in MinInt8 MaxInt8 x ltac:(done) ltac:(done)) as HA.
    destruct (int_in MinInt8 MaxInt8 x) as [v|] eqn:Hin.
    + destruct HA as [HA Hv].
      on_column Int8 tr Herr Hnext Hx. rewrite HA.
      rewrite decide_False by lia.
      by rewrite (to_int_range 8 MinInt8 MaxInt8 v) by first [lia|reflexivity|exact Hv].
    + on_column Int8 tr Herr Hnext Hx.
      destruct HA as [(v & e & HA)|(v & HA & Hv & _)]; rewrite HA; [eauto|].
      rewrite decide_True by lia. eauto.
Qed.

(** On the row [+7,-0]. *)
Lemma signed_decoders_exact_witness :
  Int signed_row_reader = (7%Z, SkipCol signed_row_reader) ∧
  Int8 signed_row_reader = (7%Z, SkipCol signed_row_reader) ∧
  cursor_at (SkipCol signed_row_reader) [bs "-0"].
Proof.
  destruct (signed_decoders_exact signed_row_reader (bs "+7") [bs "-0"])
    as (HInt & _ & _ & _ & HInt8 & Hcur).
  - vm_compute. reflexivity.
  - vm_compute. discriminate.
  - exists (Slice RBuf 0 5). split; vm_compute; reflexivity.
  - vm_compute. absent.
  - split; [exact HInt|]. split; [exact HInt8|exact Hcur].
Defined.

(** X12.  The narrow unsigned decoders accept exactly the signed decimal texts
    with a value from 0 to the largest of the type: a sign is allowed. *)
Theorem narrow_unsigned_decoders_exact tr x cols :
  err tr = None → row tr ≠ 0%Z → cursor_at tr (x :: cols) → (sep tr ∉ x) →
  decodes Uint32 tr (int_in 0 MaxUint32 x) ∧
  decodes Uint16 tr (int_in 0 MaxUint16 x) ∧
  decodes Uint8 tr (int_in 0 MaxUint8 x) ∧
  cursor_at (SkipCol tr) cols.
Proof.
  intros Herr Hrow Hcur Hsep.
  destruct (column_next tr x cols Herr Hrow Hcur Hsep)
    as (c & tr1 & Hnext & Hx & Hskip & Hcur' & Herr1).
  unfold decodes. rewrite Hskip. split_and!; [| | |done].
  - pose proof (Atoi_in 0 MaxUint32 x ltac:(done) ltac:(done)) as HA.
    pose proof (ParseUint_cases x 32 ltac:(by vm_compute)) as HP.
    destruct (int_in 0 MaxUint32 x) as [v|] eqn:Hin.
    + destruct HA as [HA Hv].
      on_column Uint32 tr Herr Hnext Hx. rewrite HA.
      rewrite (to_uint_range 32 MaxUint32 v) by first [reflexivity|exact Hv].
      rewrite !bool_decide_eq_true_2 by (done || tauto). done.
    + assert (∃ v e, strconv.ParseUint x 32 = (v, Some e))
        as (v' & e' & HP').
      { destruct (uint_text x) as [u|] eqn:Hu; [|done].
        destruct (decide _) as [Hfit|]; [|done]. exfalso.
        apply (proj1 (int_in_None _ _ _) Hin u).
        - by apply uint_text_int_text.
        - apply uint_text_nonneg in Hu. split; [done|].
          change (strconv.bits 32) with 32%Z in Hfit. exact Hfit. }
      on_column Uint32 tr Herr Hnext Hx. rewrite HP'.
      destruct HA as [(v & e & HA)|(v & HA & Hv & _)]; rewrite HA.
      * rewrite (bool_decide_eq_false_2 (Some e = None)) by done. simpl. eauto.
      * destruct (_ && _ && _) eqn:Hfast; [|eauto]. exfalso. apply Hv.
        apply andb_prop in Hfast as [Hfast H2].
        apply andb_prop in Hfast as [_ H1].
        apply bool_decide_eq_true in H1, H2. done.
  - pose proof (Atoi_in 0 MaxUint16 x ltac:(done) ltac:(done)) as HA.
    destruct (int_in 0 MaxUint16 x) as [v|] eqn:Hin.
    + destruct HA as [HA Hv].
      on_column Uint16 tr Herr Hnext Hx. rewrite HA.
      rewrite !decide_False by lia.
      by rewrite (to_uint_range 16 MaxUint16 v) by first [reflexivity|exact Hv].
    + on_column Uint16 tr Herr Hnext Hx.
      destruct HA as [(v & e & HA)|(v & HA & Hv & _)]; rewrite HA; [eauto|].
      destruct (decide (v < 0)%Z); [eauto|]. rewrite decide_True by lia. eauto.
  - pose proof (Atoi_in 0 MaxUint8 x ltac:(done) ltac:(done)) as HA.
    destruct (int_in 0 MaxUint8 x) as [v|] eqn:Hin.
    + destruct HA as [HA Hv].
      on_column Uint8 tr Herr Hnext Hx. rewrite HA.
      rewrite !decide_False by lia.
      by rewrite (to_uint_range 8 MaxUint8 v) by first [reflexivity|exact Hv].
    + on_column Uint8 tr Herr Hnext Hx.
      destruct HA as [(v & e & HA)|(v & HA & Hv & _)]; rewrite HA; [eauto|].
      destruct (decide (v < 0)%Z); [eauto|]. rewrite decide_True by lia. eauto.
Qed.

(** On the row [+7,-0]: the sign is accepted. *)
Lemma narrow_unsigned_decoders_exact_witness :
  Uint8 signed_row_reader = (7%Z, SkipCol signed_row_reader) ∧
  Uint32 signed_row_reader = (7%Z, SkipCol signed_row_reader).
Proof.
  destruct (narrow_unsigned_decoders_exact signed_row_reader (bs "+7")
              [bs "-0"]) as (H32 & _ & H8 & _).
  - vm_compute. reflexivity.
  - vm_compute. discriminate.
  - exists (Slice RBuf 0 5). split; vm_compute; reflexivity.
  - vm_compute. absent.
  - split; [exact H8|exact H32].
Defined.

(** X13.  [Uint] and [Uint64] accept a signed text with a value in
    [0..MaxInt64] and an unsigned text with a value up to [MaxUint64], and
    nothing else: a sign is refused above [MaxInt64]. *)
Theorem wide_unsigned_decoders_exact tr x cols :
  err tr = None → row tr ≠ 0%Z → cursor_at tr (x :: cols) → (sep tr ∉ x) →
  decodes Uint tr (uint64_text x) ∧
  decodes Uint64 tr (uint64_text x) ∧
  cursor_at (SkipCol tr) cols.
Proof.
  intros Herr Hrow Hcur Hsep.
  destruct (column_next tr x cols Herr Hrow Hcur Hsep)
    as (c & tr1 & Hnext & Hx & Hskip & Hcur' & Herr1).
  pose proof (Atoi_in 0 MaxInt64 x ltac:(done) ltac:(done)) as HA.
  pose proof (ParseUint_cases x 64 ltac:(by vm_compute)) as HP.
  change (strconv.bits 64) with 64%Z in HP.
  unfold decodes, uint64_text. rewrite Hskip.
  destruct (int_in 0 MaxInt64 x) as [v|] eqn:Hin.
  - destruct HA as [HA Hv].
    assert (to_uint 64 v = v) as Hid.
    { apply (to_uint_range 64 MaxUint64); [reflexivity|].
      unfold MaxInt64, MaxUint64 in *. lia. }
    split_and!; [| |done].
    + on_column Uint tr Herr Hnext Hx. rewrite HA.
      rewrite !bool_decide_eq_true_2 by (done || tauto). simpl.
      by rewrite Hid.
    + on_column Uint64 tr Herr Hnext Hx. rewrite HA. rewrite Hid.
      rewrite !bool_decide_eq_true_2 by first [done|tauto|unfold MaxInt64, MaxUint64 in *; lia].
      done.
  - assert (∀ n e, strconv.Atoi x = (n, e) →
              bool_decide (e = None) && bool_decide (0 ≤ n)%Z = false) as Hslow.
    { intros n e Hne. destruct HA as [(v & e' & HA)|(v & HA & Hv & Hr)];
        rewrite HA in Hne; injection Hne as <- <-.
      - by rewrite (bool_decide_eq_false_2 (Some e' = None)) by done.
      - rewrite (bool_decide_eq_false_2 (0 ≤ v)%Z); [by rewrite andb_false_r|].
        lia. }
    split_and!; [| |done].
    + on_column Uint tr Herr Hnext Hx.
      destruct (strconv.Atoi x) as [n e] eqn:HAtoi.
      rewrite (Hslow n e eq_refl).
      change strconv.IntSize with 64%Z.
      destruct (uint_text x) as [u|] eqn:Hu.
      * destruct (decide (u ≤ 2 ^ 64 - 1)%Z) as [Hfit|Hfit].
        -- rewrite decide_True by exact Hfit. rewrite HP.
           rewrite (to_uint_range 64 MaxUint64 u); [done|reflexivity|].
           apply uint_text_nonneg in Hu. split; [done|exact Hfit].
        -- rewrite decide_False by exact Hfit.
           destruct HP as (v & e' & ->). eauto.
      * destruct HP as (v & e' & ->). eauto.
    + on_column Uint64 tr Herr Hnext Hx.
      destruct (strconv.Atoi x) as [n e] eqn:HAtoi.
      rewrite (Hslow n e eq_refl). simpl.
      destruct (uint_text x) as [u|] eqn:Hu.
      * destruct (decide (u ≤ 2 ^ 64 - 1)%Z) as [Hfit|Hfit].
        -- rewrite decide_True by exact Hfit. by rewrite HP.
        -- rewrite decide_False by exact Hfit.
           destruct HP as (v & e' & ->). eauto.
      * destruct HP as (v & e' & ->). eauto.
Qed.

(** On the row [+7,-0]: the sign is accepted. *)
Lemma wide_unsigned_decoders_exact_witness :
  Uint signed_row_reader = (7%Z, SkipCol signed_row_reader) ∧
  Uint64 signed_row_reader = (7%Z, SkipCol signed_row_reader).
Proof.
  destruct (wide_unsigned_decoders_exact signed_row_reader (bs "+7")
              [bs "-0"]) as (HU & HU64 & _).
  - vm_compute. reflexivity.
  - vm_compute. discriminate.
  - exists (Slice RBuf 0 5). split; vm_compute; reflexivity.
  - vm_compute. absent.
  - split; [exact HU|exact HU64].
Defined.

(** ** The date decoders *)








